(** * simple-chart: the name-substitution compiler of [app.js]

    A shallow embedding of the preprocessing core of [app.js]
    ([sanitizeName], [getUniqueId], [splitCSV], [preprocessER],
    [preprocessERAttribute], [preprocessERRelationship],
    [preprocessFlowchart], [preprocessFlowLine]) and of the substitution
    loop that [postProcessSVG] applies to the text leaves, followed by the
    properties of the specification.

    JavaScript strings are sequences of UTF-16 code units; the regular
    expressions of the source carry no [u] flag and therefore work on code
    units as well.  A string is modelled as [list N], one number per code
    unit.  The two globals [usedIds] (a [Set]) and [nameMapping] (a plain
    object used as a map and later enumerated with [Object.entries]) are
    threaded explicitly: the set as a [gset], the object as an association
    list in property-creation order. *)

From Stdlib Require Import NArith ZArith String Ascii DecimalN DecimalFacts SpecFloat.
From stdpp Require Import gmap list sorting.

Local Open Scope N_scope.

Abbreviation jsstr := (list N).

(** ** Literals

    [js] reads a literal written in this file (UTF-8) as a JavaScript
    string.  The grave accent of a literal stands for the double quote
    U+0022, which keeps quoted source lines readable. *)

Definition byte_units (s : string) : list N :=
  map (fun b => N_of_ascii b) (list_ascii_of_string s).

Fixpoint utf8_units (bs : list N) : jsstr :=
  match bs with
  | [] => []
  | b1 :: r1 =>
      if b1 <? 128 then (if b1 =? 96 then 34 else b1) :: utf8_units r1
      else match r1 with
      | [] => [b1]
      | b2 :: r2 =>
          if b1 <? 224 then ((b1 mod 32) * 64 + b2 mod 64) :: utf8_units r2
          else match r2 with
          | [] => [b1; b2]
          | b3 :: r3 =>
              if b1 <? 240
              then ((b1 mod 16) * 4096 + (b2 mod 64) * 64 + b3 mod 64) :: utf8_units r3
              else match r3 with
              | [] => [b1; b2; b3]
              | b4 :: r4 =>
                  let cp := (b1 mod 8) * 262144 + (b2 mod 64) * 4096
                            + (b3 mod 64) * 64 + b4 mod 64 in
                  (55296 + (cp - 65536) / 1024)
                    :: (56320 + (cp - 65536) mod 1024) :: utf8_units r4
              end
          end
      end
  end.

Definition js (s : string) : jsstr := utf8_units (byte_units s).

(** ** Character classes of the regular expressions *)

(** [\s], which is also what [String.prototype.trim] removes: WhiteSpace
    and LineTerminator of ECMAScript. *)
Definition is_ws (c : N) : bool :=
  ((9 <=? c) && (c <=? 13)) || (c =? 32) || (c =? 160) || (c =? 5760)
  || ((8192 <=? c) && (c <=? 8202)) || (c =? 8232) || (c =? 8233)
  || (c =? 8239) || (c =? 8287) || (c =? 12288) || (c =? 65279).

(** What [.] does not match: the line terminators. *)
Definition is_line_terminator (c : N) : bool :=
  (c =? 10) || (c =? 13) || (c =? 8232) || (c =? 8233).

Definition is_digit (c : N) : bool := (48 <=? c) && (c <=? 57).
Definition is_upper (c : N) : bool := (65 <=? c) && (c <=? 90).
Definition is_lower (c : N) : bool := (97 <=? c) && (c <=? 122).
(** [[a-zA-Z0-9]] *)
Definition is_alnum (c : N) : bool := is_lower c || is_upper c || is_digit c.
(** [\w] *)
Definition is_word (c : N) : bool := is_alnum c || (c =? 95).

Definition underscore : N := 95.
Definition dquote : N := 34.

(** Case handling.  The [i] flag of a pattern without [u] never lets a code
    unit above 127 match an ASCII letter, so a case-insensitive comparison
    with an ASCII keyword is a comparison after ASCII lower-casing; and
    [toUpperCase] is only ever applied by the source to tokens that such a
    pattern has matched, where it is ASCII upper-casing. *)
Definition lower_unit (c : N) : N := if is_upper c then c + 32 else c.
Definition upper_unit (c : N) : N := if is_lower c then c - 32 else c.
Definition toUpperCase (s : jsstr) : jsstr := map upper_unit s.
Definition eq_ci (s kw : jsstr) : bool :=
  bool_decide (map lower_unit s = map lower_unit kw).

(** ** String primitives *)

Fixpoint trimStart (s : jsstr) : jsstr :=
  match s with
  | c :: r => if is_ws c then trimStart r else s
  | [] => []
  end.
Definition trimEnd (s : jsstr) : jsstr := rev (trimStart (rev s)).
Definition trim (s : jsstr) : jsstr := trimEnd (trimStart s).

(** The leading white space of a line, which the source takes as group 1
    of a pattern (start anchor, then any number of [\s]) that matches
    every string. *)
Fixpoint leading_ws (s : jsstr) : jsstr :=
  match s with
  | c :: r => if is_ws c then c :: leading_ws r else []
  | [] => []
  end.

(** [s.startsWith(p)] *)
Fixpoint startsWith (s p : jsstr) {struct p} : bool :=
  match p, s with
  | [], _ => true
  | _ :: _, [] => false
  | a :: p', b :: s' => (a =? b) && startsWith s' p'
  end.

(** [code.split("\n")] for a one-unit separator. *)
Fixpoint split_on (sep : N) (s : jsstr) : list jsstr :=
  match s with
  | [] => [[]]
  | c :: r =>
      if c =? sep then [] :: split_on sep r
      else match split_on sep r with
           | l :: ls => (c :: l) :: ls
           | [] => [[c]]
           end
  end.

(** [parts.join(sep)] *)
Fixpoint join (sep : jsstr) (parts : list jsstr) : jsstr :=
  match parts with
  | [] => []
  | [p] => p
  | p :: ps => p ++ sep ++ join sep ps
  end.

(** [s.replace(/c+/g, "c")]: every run of [c] becomes one [c]. *)
Fixpoint collapse_runs (c : N) (s : jsstr) : jsstr :=
  match s with
  | x :: r =>
      if x =? c
      then match r with
           | y :: _ => if y =? c then collapse_runs c r else x :: collapse_runs c r
           | [] => [x]
           end
      else x :: collapse_runs c r
  | [] => []
  end.

(** [s.replace(/^c|c$/g, "")]: a [c] at index 0 is removed, and then a [c]
    at the last index if that index was not the one just removed. *)
Definition strip_last (c : N) (s : jsstr) : jsstr :=
  match rev s with
  | x :: r => if x =? c then rev r else s
  | [] => []
  end.
Definition strip_ends (c : N) (s : jsstr) : jsstr :=
  match s with
  | x :: r => if x =? c then strip_last c r else strip_last c s
  | [] => []
  end.

(** ** sanitizeName *)

(** The four transliterating [replace] calls, in the order of the chain. *)
Definition replace_a_umlaut (s : jsstr) : jsstr :=
  flat_map (fun c => if c =? 228 then js "ae" else if c =? 196 then js "Ae" else [c]) s.
Definition replace_o_umlaut (s : jsstr) : jsstr :=
  flat_map (fun c => if c =? 246 then js "oe" else if c =? 214 then js "Oe" else [c]) s.
Definition replace_u_umlaut (s : jsstr) : jsstr :=
  flat_map (fun c => if c =? 252 then js "ue" else if c =? 220 then js "Ue" else [c]) s.
Definition replace_eszett (s : jsstr) : jsstr :=
  flat_map (fun c => if c =? 223 then js "ss" else [c]) s.
(** [.replace(/[^a-zA-Z0-9]/g, "_")] *)
Definition replace_non_alnum (s : jsstr) : jsstr :=
  map (fun c => if is_alnum c then c else underscore) s.

(** The value of [s] before [s || "unnamed"]. *)
Definition sanitize_chain (name : jsstr) : jsstr :=
  strip_ends underscore
    (collapse_runs underscore
       (replace_non_alnum
          (replace_eszett
             (replace_u_umlaut (replace_o_umlaut (replace_a_umlaut name)))))).

Definition sanitizeName (name : jsstr) : jsstr :=
  match sanitize_chain name with
  | [] => js "unnamed"
  | s => s
  end.

(** ** Exceptions, fuel and the pass state

    A JavaScript call either returns or throws.  The partial primitives of
    the source ([String.prototype.repeat] with a negative count, a property
    read on [undefined]) are modelled with their exception, and the three
    [while] loops run on fuel, so that "does not throw" and "terminates"
    are statements about the code and not about the embedding. *)

Inductive exn := TypeError | RangeError.

Inductive result (A : Type) : Type :=
  | Ok (a : A)
  | Throw (e : exn)
  | OutOfFuel.
Arguments Ok {A} a.
Arguments Throw {A} e.
Arguments OutOfFuel {A}.

#[global] Instance result_ret : MRet result := fun _ a => Ok a.
#[global] Instance result_bind : MBind result := fun _ _ f r =>
  match r with
  | Ok a => f a
  | Throw e => Throw e
  | OutOfFuel => OutOfFuel
  end.

(** A value whose property the source reads: [undefined] throws. *)
Definition defined {A} (o : option A) : result A :=
  match o with
  | Some a => Ok a
  | None => Throw TypeError
  end.

(** [s.repeat(count)] *)
Definition js_repeat (s : jsstr) (count : Z) : result jsstr :=
  if (count <? 0)%Z then Throw RangeError
  else Ok (concat (replicate (Z.to_nat count) s)).

(** [nameMapping]: own properties in creation order. *)
Fixpoint nm_get (nm : list (jsstr * jsstr)) (k : jsstr) : option jsstr :=
  match nm with
  | [] => None
  | (k', v) :: r => if decide (k' = k) then Some v else nm_get r k
  end.

(** [nameMapping[k] = v]: an existing property keeps its place. *)
Fixpoint nm_set (k v : jsstr) (nm : list (jsstr * jsstr)) : list (jsstr * jsstr) :=
  match nm with
  | [] => [(k, v)]
  | (k', v') :: r => if decide (k' = k) then (k, v) :: r else (k', v') :: nm_set k v r
  end.

Record PassState := mkPass {
  usedIds : gset jsstr;
  nameMapping : list (jsstr * jsstr)
}.

(** The two assignments that open [preprocessER] and [preprocessFlowchart]. *)
Definition pass_start : PassState := mkPass ∅ [].

(** [usedIds.add(id); nameMapping[id] = displayName] *)
Definition record_id (id displayName : jsstr) (st : PassState) : PassState :=
  mkPass ({[id]} ∪ usedIds st) (nm_set id displayName (nameMapping st)).

(** ** getUniqueId *)

(** Decimal digits of the counter, as [base + n] appends them. *)
Fixpoint uint_units (d : Decimal.uint) : jsstr :=
  match d with
  | Decimal.Nil => []
  | Decimal.D0 d => 48 :: uint_units d
  | Decimal.D1 d => 49 :: uint_units d
  | Decimal.D2 d => 50 :: uint_units d
  | Decimal.D3 d => 51 :: uint_units d
  | Decimal.D4 d => 52 :: uint_units d
  | Decimal.D5 d => 53 :: uint_units d
  | Decimal.D6 d => 54 :: uint_units d
  | Decimal.D7 d => 55 :: uint_units d
  | Decimal.D8 d => 56 :: uint_units d
  | Decimal.D9 d => 57 :: uint_units d
  end.
Definition number_toString (n : N) : jsstr := uint_units (N.to_uint n).

(** The condition of the [while] of [getUniqueId]. *)
Definition id_taken (st : PassState) (displayName id : jsstr) : bool :=
  bool_decide (id ∈ usedIds st)
  && negb (bool_decide (nm_get (nameMapping st) id = Some displayName)).

Fixpoint uniqueId_loop (fuel : nat) (st : PassState) (base displayName id : jsstr)
    (n : N) : result jsstr :=
  if id_taken st displayName id
  then match fuel with
       | O => OutOfFuel
       | S fuel' =>
           uniqueId_loop fuel' st base displayName (base ++ number_toString n) (n + 1)
       end
  else Ok id.

(** [base] after the padding of the [if (minLength && ...)]. *)
Definition padded_base (displayName : jsstr) (minLength : option N) : result jsstr :=
  let base := sanitizeName displayName in
  match minLength with
  | Some m =>
      if negb (m =? 0) && (N.of_nat (length base) <? m)
      then pad ← js_repeat [underscore] (Z.of_N m - Z.of_nat (length base));
           Ok (base ++ pad)
      else Ok base
  | None => Ok base
  end.

Definition getUniqueId (displayName : jsstr) (minLength : option N) (st : PassState)
    : result (jsstr * PassState) :=
  base ← padded_base displayName minLength;
  id ← uniqueId_loop (size (usedIds st)) st base displayName base 2;
  Ok (id, record_id id displayName st).

(** ** splitCSV *)

Fixpoint splitCSV_loop (line : jsstr) (parts : list jsstr) (current : jsstr)
    (inQuotes : bool) : list jsstr :=
  match line with
  | [] => parts ++ [trim current]
  | ch :: rest =>
      if ch =? dquote then splitCSV_loop rest parts (current ++ [ch]) (negb inQuotes)
      else if (ch =? 44) && negb inQuotes
      then splitCSV_loop rest (parts ++ [trim current]) [] inQuotes
      else splitCSV_loop rest parts (current ++ [ch]) inQuotes
  end.

Definition splitCSV (line : jsstr) : list jsstr := splitCSV_loop line [] [] false.

(** ** The patterns of the ER preprocessor *)

(** [(TD|TB|BT|LR|RL)] under the [i] flag. *)
Definition is_direction_token (t : jsstr) : bool :=
  eq_ci t (js "TD") || eq_ci t (js "TB") || eq_ci t (js "BT")
  || eq_ci t (js "LR") || eq_ci t (js "RL").

(** White space, at least one unit, and then a direction token up to the
    end of the string: the tail of both direction patterns.  The token. *)
Definition ws_then_direction (rest : jsstr) : option jsstr :=
  let ws := leading_ws rest in
  let tok := drop (length ws) rest in
  if negb (bool_decide (ws = [])) && is_direction_token tok then Some tok else None.

(** The declaration pattern: [erDiagram], case-insensitive, optionally
    followed by white space and a direction token, anchored at both ends.
    [Some None] is a match without group 2, [Some (Some t)] one with it. *)
Definition erDeclMatch (trimmed : jsstr) : option (option jsstr) :=
  if eq_ci (take 9 trimmed) (js "erDiagram")
  then match drop 9 trimmed with
       | [] => Some None
       | rest => match ws_then_direction rest with
                 | Some tok => Some (Some tok)
                 | None => None
                 end
       end
  else None.

(** The statement pattern: [direction], white space, a direction token,
    anchored at both ends.  Group 1. *)
Definition dirMatch (trimmed : jsstr) : option jsstr :=
  if eq_ci (take 9 trimmed) (js "direction")
  then ws_then_direction (drop 9 trimmed)
  else None.

(** The entity-opening pattern: a lazy non-empty group 1 of units other
    than line terminators, optional white space, and a final opening brace.
    The lazy group is the shortest prefix after which only white space
    precedes the brace.  Group 1. *)
Definition entityOpen (trimmed : jsstr) : option jsstr :=
  match rev trimmed with
  | 123 :: rbody =>
      let body := rev rbody in
      let k := Nat.max 1 (length (trimEnd body)) in
      if (k <=? length body)%nat
         && forallb (fun c => negb (is_line_terminator c)) (take k body)
      then Some (take k body)
      else None
  | _ => None
  end.

(** [relOp]: [|] or [}], then [o] or [|], then [--] or [..], then [o] or
    [|], then [|] or the opening brace; six units. *)
Definition relOp_here (s : jsstr) : bool :=
  match s with
  | c0 :: c1 :: c2 :: c3 :: c4 :: c5 :: _ =>
      ((c0 =? 124) || (c0 =? 125)) && ((c1 =? 111) || (c1 =? 124))
      && (((c2 =? 45) && (c3 =? 45)) || ((c2 =? 46) && (c3 =? 46)))
      && ((c4 =? 111) || (c4 =? 124)) && ((c5 =? 124) || (c5 =? 123))
  | _ => false
  end.

(** [s.match(relOp)]: the index of the leftmost match. *)
Fixpoint relOp_match (s : jsstr) : option nat :=
  if relOp_here s then Some O
  else match s with
       | [] => None
       | _ :: r => S <$> relOp_match r
       end.

(** [s.indexOf(c)] for a one-unit [c]. *)
Fixpoint indexOf1 (c : N) (s : jsstr) : option nat :=
  match s with
  | [] => None
  | x :: r => if x =? c then Some O else S <$> indexOf1 c r
  end.

(** ** preprocessERAttribute *)

(** [/^(PK|FK|UK)$/i.test(f)] *)
Definition is_key_tag (f : jsstr) : bool :=
  eq_ci f (js "PK") || eq_ci f (js "FK") || eq_ci f (js "UK").

(** The column-3 block: [key]. *)
Definition attribute_key (parts : list jsstr) : result (option jsstr) :=
  if (3 <=? length parts)%nat
  then p2 ← defined (parts !! 2%nat);
       Ok (if is_key_tag p2 then Some (toUpperCase p2) else None)
  else Ok None.

(** The column-4 block: [comment]. *)
Definition attribute_comment (parts : list jsstr) (key : option jsstr)
    : result (option jsstr) :=
  if (4 <=? length parts)%nat
  then Ok (Some (trim (join (js ", ") (drop 3 parts))))
  else if (length parts =? 3)%nat && negb (bool_decide (is_Some key))
  then p2 ← defined (parts !! 2%nat); Ok (Some (trim p2))
  else Ok None.

(** The text appended for [comment]: nothing for [null] or an empty
    string, and nothing when the stripped comment is empty. *)
Definition comment_suffix (comment : option jsstr) : jsstr :=
  match comment with
  | Some ((_ :: _) as cm) =>
      match trim (strip_ends dquote cm) with
      | [] => []
      | c => js " `" ++ c ++ js "`"
      end
  | _ => []
  end.

Definition key_suffix (key : option jsstr) : jsstr :=
  match key with
  | Some ((_ :: _) as k) => js " " ++ k
  | _ => []
  end.

Definition preprocessERAttribute (line : jsstr) (st : PassState)
    : result (jsstr * PassState) :=
  let indent := leading_ws line in
  let trimmed := trim line in
  let parts := splitCSV trimmed in
  if (length parts <? 2)%nat then Ok (line, st)
  else
    displayName ← defined (parts !! 0%nat);
    let type := default (js "undefined") (parts !! 1%nat) in
    key ← attribute_key parts;
    comment ← attribute_comment parts key;
    '(safeName, st') ← getUniqueId displayName
                         (Some (N.of_nat (length displayName) + 2)) st;
    Ok (indent ++ safeName ++ js " " ++ type ++ key_suffix key ++ comment_suffix comment,
        st').

(** ** preprocessERRelationship *)

(** [/[^a-zA-Z0-9_ ]/.test(label)] *)
Definition has_special (label : jsstr) : bool :=
  existsb (fun c => negb (is_word c || (c =? 32))) label.

Definition relationship_label (label : jsstr) : jsstr :=
  match label with
  | [] => label
  | c :: _ =>
      if negb (c =? dquote) && has_special label
      then js "`" ++ label ++ js "`"
      else label
  end.

Definition preprocessERRelationship (line : jsstr) (st : PassState)
    : result (jsstr * PassState) :=
  let indent := leading_ws line in
  let trimmed := trim line in
  match relOp_match trimmed with
  | None => Ok (line, st)
  | Some opStart =>
      let opEnd := (opStart + 6)%nat in
      let leftRaw := trim (take opStart trimmed) in
      let operator := take 6 (drop opStart trimmed) in
      let rightPart := trim (drop opEnd trimmed) in
      let '(rightEntity, label) :=
        match indexOf1 58 rightPart with
        | Some colonIdx =>
            (trim (take colonIdx rightPart), trim (drop (S colonIdx) rightPart))
        | None => (rightPart, [])
        end in
      let leftDisplay := trim (strip_ends dquote leftRaw) in
      let rightDisplay := trim (strip_ends dquote rightEntity) in
      '(leftId, st1) ← getUniqueId leftDisplay None st;
      '(rightId, st2) ← getUniqueId rightDisplay None st1;
      let labelOut := relationship_label label in
      Ok (indent ++ leftId ++ js " " ++ operator ++ js " " ++ rightId
            ++ match labelOut with [] => [] | _ => js " : " ++ labelOut end,
          st2)
  end.

(** ** preprocessER *)

(** The variables of the loop: [result], [inEntity], [erDirection], and
    the two globals. *)
Record ERLoop := mkER {
  er_result : list jsstr;
  er_inEntity : bool;
  er_direction : option jsstr;
  er_pass : PassState
}.

Definition er_push (l : jsstr) (s : ERLoop) : ERLoop :=
  mkER (er_result s ++ [l]) (er_inEntity s) (er_direction s) (er_pass s).

(** One iteration of the [for] over the lines. *)
Definition preprocessER_line (line : jsstr) (s : ERLoop) : result ERLoop :=
  let trimmed := trim line in
  if bool_decide (trimmed = []) || startsWith trimmed (js "%%")
  then Ok (er_push line s)
  else match erDeclMatch trimmed with
  | Some g2 =>
      let dir := match g2 with
                 | Some ((_ :: _) as t) => Some (toUpperCase t)
                 | _ => er_direction s
                 end in
      Ok (mkER (er_result s ++ [js "erDiagram"]) (er_inEntity s) dir (er_pass s))
  | None =>
  match dirMatch trimmed with
  | Some t => Ok (mkER (er_result s) (er_inEntity s) (Some (toUpperCase t)) (er_pass s))
  | None =>
  if bool_decide (trimmed = js "}")
  then Ok (mkER (er_result s ++ [line]) false (er_direction s) (er_pass s))
  else if er_inEntity s
  then '(out, st') ← preprocessERAttribute line (er_pass s);
       Ok (mkER (er_result s ++ [out]) (er_inEntity s) (er_direction s) st')
  else match entityOpen trimmed with
  | Some g1 =>
      let display := trim (strip_ends dquote g1) in
      '(id, st') ← getUniqueId display None (er_pass s);
      let indent := leading_ws line in
      Ok (mkER (er_result s ++ [indent ++ id ++ js " {"]) true (er_direction s) st')
  | None =>
  match relOp_match trimmed with
  | Some _ =>
      '(out, st') ← preprocessERRelationship line (er_pass s);
      Ok (mkER (er_result s ++ [out]) (er_inEntity s) (er_direction s) st')
  | None => Ok (er_push line s)
  end end end end.

Fixpoint preprocessER_loop (lines : list jsstr) (s : ERLoop) : result ERLoop :=
  match lines with
  | [] => Ok s
  | line :: rest => s' ← preprocessER_line line s; preprocessER_loop rest s'
  end.

(** The returned object, and the globals as the call leaves them. *)
Record EROutput := mkEROut {
  out_code : jsstr;
  out_direction : option jsstr;
  out_pass : PassState
}.

Definition preprocessER (code : jsstr) : result EROutput :=
  s ← preprocessER_loop (split_on 10 code) (mkER [] false None pass_start);
  Ok (mkEROut (join [10] (er_result s)) (er_direction s) (er_pass s)).

(** ** Flowchart preprocessing: getFlowNodeId *)

(** The globals and [nodeIdMap], the object local to one call of
    [preprocessFlowchart].  [nodeIdMap] is only read and written by key:
    the finite map holds its own properties, and a key that is no own
    property is looked up in [Object.prototype]. *)
Record FlowState := mkFlow {
  fl_pass : PassState;
  nodeIdMap : gmap jsstr jsstr
}.

(** The property names that every object inherits from [Object.prototype]:
    [nodeIdMap[label]] is defined for them in an object without own
    properties, and it is not a string. *)
Definition inherited_keys : list jsstr :=
  [js "constructor"; js "hasOwnProperty"; js "isPrototypeOf"; js "propertyIsEnumerable";
   js "toLocaleString"; js "toString"; js "valueOf"; js "__proto__";
   js "__defineGetter__"; js "__defineSetter__"; js "__lookupGetter__";
   js "__lookupSetter__"].

(** The text that the template literals of [preprocessFlowLine] write for
    an inherited value, which is truthy: [__proto__] reads the prototype
    object, the other names read built-in functions, [constructor] the
    function [Object].  The text of a built-in function is the one of V8,
    the engine of Chrome and of Node. *)
Definition inherited_text (label : jsstr) : jsstr :=
  if bool_decide (label = js "__proto__") then js "[object Object]"
  else js "function "
       ++ (if bool_decide (label = js "constructor") then js "Object" else label)
       ++ js "() { [native code] }".

Fixpoint flowId_loop (fuel : nat) (used : gset jsstr) (base id : jsstr) (n : N)
    : result jsstr :=
  if bool_decide (id ∈ used)
  then match fuel with
       | O => OutOfFuel
       | S fuel' => flowId_loop fuel' used base (base ++ number_toString n) (n + 1)
       end
  else Ok id.

(** [nodeIdMap[label]]: the own property, or else the inherited one, or
    else [undefined].  The callers of [getFlowNodeId] write the value into
    a template literal, so an inherited value is given by its text. *)
Definition nodeIdMap_get (fs : FlowState) (label : jsstr) : option jsstr :=
  match nodeIdMap fs !! label with
  | Some id => Some id
  | None => if bool_decide (label ∈ inherited_keys) then Some (inherited_text label) else None
  end.

(** The first line returns a value that is truthy: a non-empty string, or
    an inherited function or object. *)
Definition getFlowNodeId (label : jsstr) (fs : FlowState) : result (jsstr * FlowState) :=
  match nodeIdMap_get fs label with
  | Some ((_ :: _) as id) => Ok (id, fs)
  | _ =>
      let base := sanitizeName label in
      id ← flowId_loop (size (usedIds (fl_pass fs))) (usedIds (fl_pass fs)) base base 2;
      Ok (id, mkFlow (record_id id label (fl_pass fs)) (<[label := id]> (nodeIdMap fs)))
  end.

(** ** Flowchart preprocessing: the scanner of preprocessFlowLine *)

Inductive shape := diamond | rect | round.

Inductive token :=
  | TArrow (raw : jsstr)
  | TRaw (raw : jsstr)
  | TNode (label : jsstr) (sh : shape).

(** Length of the run of [c] at the start of [s]. *)
Fixpoint run_length (c : N) (s : jsstr) : nat :=
  match s with
  | x :: r => if x =? c then S (run_length c r) else O
  | [] => O
  end.

(** Length of the run of word units at the start of [s]. *)
Fixpoint word_run (s : jsstr) : nat :=
  match s with
  | x :: r => if is_word x then S (word_run r) else O
  | [] => O
  end.

(** [s.indexOf(c, from)] for a one-unit [c]. *)
Definition indexOf_from (c : N) (s : jsstr) (from : nat) : option nat :=
  (fun i => (from + i)%nat) <$> indexOf1 c (drop from s).

(** [s.indexOf(p)] for any [p]. *)
Fixpoint indexOf (p s : jsstr) : option nat :=
  if startsWith s p then Some O
  else match s with
       | [] => None
       | _ :: r => S <$> indexOf p r
       end.

Definition has_unit (s : jsstr) (i : nat) (c : N) : bool :=
  bool_decide (s !! i = Some c).

(** Group 1 of the arrow pattern, its six alternatives in order: two or
    more [-] and a [>]; two or more [-]; two or more [=] and a [>]; two or
    more [=]; a [-], dots, a [-] and an optional [>]; a [-] and dots.  The
    length matched. *)
Definition arrow_body (s : jsstr) : option nat :=
  let d := run_length 45 s in
  let e := run_length 61 s in
  let dots := run_length 46 (drop 1 s) in
  if (2 <=? d)%nat && has_unit s d 62 then Some (S d)
  else if (2 <=? d)%nat then Some d
  else if (2 <=? e)%nat && has_unit s e 62 then Some (S e)
  else if (2 <=? e)%nat then Some e
  else if has_unit s 0 45 && (1 <=? dots)%nat && has_unit s (S dots) 45
  then Some (if has_unit s (S (S dots)) 62 then S (S (S dots)) else S (S dots))
  else if has_unit s 0 45 && (1 <=? dots)%nat then Some (S dots)
  else None.

(** Group 2 of the arrow pattern: an optional label between two pipes.
    The length matched. *)
Definition arrow_label (s : jsstr) : nat :=
  match s with
  | 124 :: r => match indexOf1 124 r with
                | Some i => S (S i)
                | None => O
                end
  | _ => O
  end.

(** The length of [arrowMatch[0]]. *)
Definition arrowMatch (s : jsstr) : option nat :=
  match arrow_body s with
  | Some b => Some (b + arrow_label (drop b s))%nat
  | None => None
  end.

(** One alternative of the optional suffix of the identifier pattern:
    opening units, a quote, units other than a quote, a quote, closing
    units.  The length matched. *)
Definition quoted_suffix (opening closing : jsstr) (s : jsstr) : option nat :=
  if startsWith s (opening ++ [dquote])
  then let body := drop (S (length opening)) s in
       match indexOf1 dquote body with
       | Some i =>
           if startsWith (drop (S i) body) closing
           then Some (length opening + 1 + i + 1 + length closing)%nat
           else None
       | None => None
       end
  else None.

Definition first_some {A} (a b : option A) : option A :=
  match a with
  | Some _ => a
  | None => b
  end.

(** The length of [idMatch[0]]: a letter or underscore, word units, and
    the first suffix alternative that matches, if any. *)
Definition idMatch (s : jsstr) : option nat :=
  match s with
  | c :: r =>
      if is_upper c || is_lower c || (c =? 95)
      then let n := S (word_run r) in
           let t := drop n s in
           Some (n + default O
                   (first_some (quoted_suffix (js "[") (js "]") t)
                   (first_some (quoted_suffix (js "(") (js ")") t)
                   (first_some (quoted_suffix (js "{") (js "}") t)
                   (first_some (quoted_suffix (js "([") (js "])") t)
                               (quoted_suffix (js "[[") (js "]]") t))))))%nat
      else None
  | [] => None
  end.

(** The branches of the loop body that push a token, each with the new
    value of [pos]. *)
Definition scan_arrow (rest : jsstr) (pos : nat) : option (token * nat) :=
  match arrowMatch (drop pos rest) with
  | Some len =>
      if (0 <? len)%nat
      then Some (TArrow (take len (drop pos rest)), (pos + len)%nat)
      else None
  | None => None
  end.

Definition scan_brace (rest : jsstr) (pos : nat) : option (token * nat) :=
  if has_unit rest pos 123
  then match indexOf_from 125 rest (pos + 1) with
       | Some e =>
           let inner := trim (take (e - (pos + 1)) (drop (pos + 1) rest)) in
           Some (TNode (strip_ends dquote inner) diamond, (e + 1)%nat)
       | None => None
       end
  else None.

Definition scan_quote (rest : jsstr) (pos : nat) : option (token * nat) :=
  if has_unit rest pos dquote
  then match indexOf_from dquote rest (pos + 1) with
       | Some e => Some (TNode (take (e - (pos + 1)) (drop (pos + 1) rest)) rect, (e + 1)%nat)
       | None => None
       end
  else None.

Definition scan_round (rest : jsstr) (pos : nat) : option (token * nat) :=
  if has_unit rest pos 40 && has_unit rest (pos + 1) dquote
  then match indexOf (js "`)") (drop (pos + 2) rest) with
       | Some i =>
           let e := (pos + 2 + i)%nat in
           Some (TNode (take (e - (pos + 2)) (drop (pos + 2) rest)) round, (e + 2)%nat)
       | None => None
       end
  else None.

Definition scan_id (rest : jsstr) (pos : nat) : option (token * nat) :=
  match idMatch (drop pos rest) with
  | Some len =>
      if (0 <? len)%nat
      then Some (TRaw (take len (drop pos rest)), (pos + len)%nat)
      else None
  | None => None
  end.

(** One iteration of the [while]: the token pushed, if any, and the new
    [pos]. *)
Definition scan_step (rest : jsstr) (pos : nat) : option token * nat :=
  match rest !! pos with
  | Some c =>
      if is_ws c then (None, S pos)
      else match first_some (scan_arrow rest pos)
                  (first_some (scan_brace rest pos)
                  (first_some (scan_quote rest pos)
                  (first_some (scan_round rest pos) (scan_id rest pos)))) with
           | Some (tok, pos') => (Some tok, pos')
           | None => (None, S pos)
           end
  | None => (None, S pos)
  end.

Fixpoint scan_loop (fuel : nat) (rest : jsstr) (pos : nat) (tokens : list token)
    : result (list token) :=
  if (pos <? length rest)%nat
  then match fuel with
       | O => OutOfFuel
       | S fuel' =>
           let '(tok, pos') := scan_step rest pos in
           scan_loop fuel' rest pos' (tokens ++ option_list tok)
       end
  else Ok tokens.

(** ** Flowchart preprocessing: preprocessFlowLine and preprocessFlowchart *)

Definition shape_open (sh : shape) : jsstr :=
  match sh with diamond => js "{`" | round => js "(`" | rect => js "[`" end.
Definition shape_close (sh : shape) : jsstr :=
  match sh with diamond => js "`}" | round => js "`)" | rect => js "`]" end.

(** The callback of [tokens.map]. *)
Definition render_token (getId : jsstr → FlowState → result (jsstr * FlowState))
    (tok : token) (fs : FlowState) : result (jsstr * FlowState) :=
  match tok with
  | TArrow raw => Ok (js " " ++ raw ++ js " ", fs)
  | TRaw raw => Ok (raw, fs)
  | TNode label sh =>
      '(id, fs') ← getId label fs;
      Ok (id ++ shape_open sh ++ label ++ shape_close sh, fs')
  end.

Fixpoint render_tokens (getId : jsstr → FlowState → result (jsstr * FlowState))
    (toks : list token) (fs : FlowState) : result (list jsstr * FlowState) :=
  match toks with
  | [] => Ok ([], fs)
  | tok :: rest =>
      '(p, fs1) ← render_token getId tok fs;
      '(ps, fs2) ← render_tokens getId rest fs1;
      Ok (p :: ps, fs2)
  end.

Definition preprocessFlowLine (line : jsstr)
    (getId : jsstr → FlowState → result (jsstr * FlowState)) (fs : FlowState)
    : result (jsstr * FlowState) :=
  let indent := leading_ws line in
  let rest := trim line in
  tokens ← scan_loop (length rest) rest 0 [];
  '(parts, fs') ← render_tokens getId tokens fs;
  Ok (indent ++ collapse_runs 32 (concat parts), fs').

(** A keyword at the start of [s], then a white-space unit. *)
Definition keyword_ws (kw s : jsstr) : bool :=
  eq_ci (take (length kw) s) kw
  && match s !! length kw with Some c => is_ws c | None => false end.

(** A keyword at the start of [s], then a word boundary. *)
Definition keyword_boundary (ci : bool) (kw s : jsstr) : bool :=
  (if ci then eq_ci (take (length kw) s) kw else startsWith s kw)
  && match s !! length kw with Some c => negb (is_word c) | None => true end.

(** The condition under which a line is copied unchanged. *)
Definition flow_passthrough (trimmed : jsstr) : bool :=
  bool_decide (trimmed = [])
  || startsWith trimmed (js "%%")
  || keyword_ws (js "flowchart") trimmed || keyword_ws (js "graph") trimmed
  || keyword_boundary true (js "subgraph") trimmed
  || keyword_boundary true (js "end") trimmed
  || existsb (fun kw => keyword_boundary false kw trimmed)
       [js "classDef"; js "class"; js "style"; js "click"; js "linkStyle"].

Fixpoint preprocessFlowchart_loop (lines res : list jsstr) (fs : FlowState)
    : result (list jsstr * FlowState) :=
  match lines with
  | [] => Ok (res, fs)
  | line :: rest =>
      if flow_passthrough (trim line)
      then preprocessFlowchart_loop rest (res ++ [line]) fs
      else '(out, fs') ← preprocessFlowLine line getFlowNodeId fs;
           preprocessFlowchart_loop rest (res ++ [out]) fs'
  end.

(** The returned text, and the globals as the call leaves them. *)
Definition preprocessFlowchart (code : jsstr) : result (jsstr * PassState) :=
  '(res, fs) ← preprocessFlowchart_loop (split_on 10 code) [] (mkFlow pass_start ∅);
  Ok (join [10] res, fl_pass fs).

(** ** postProcessSVG: the substitution applied to the text of one leaf

    The first loop of [postProcessSVG] assigns [textContent], which holds
    the assigned string as it is; this is the loop modelled here.  The
    second loop assigns [innerHTML], which the browser parses and
    serialises again before the next entry reads it; it is not modelled. *)

(** [Object.entries] lists the keys that are array indices first, in
    ascending numeric order, and then the others in creation order.  A key
    is an array index when it is the decimal form of a number below
    [2^32 - 1]. *)
Fixpoint units_value (acc : N) (s : jsstr) : N :=
  match s with
  | c :: r => units_value (acc * 10 + (c - 48)) r
  | [] => acc
  end.

Definition array_index (k : jsstr) : option N :=
  match k with
  | [] => None
  | c :: r =>
      if forallb is_digit k && (negb (c =? 48) || bool_decide (r = []))
         && (units_value 0 k <? 4294967295)
      then Some (units_value 0 k)
      else None
  end.

Fixpoint insert_by {A} (le : A → A → bool) (x : A) (l : list A) : list A :=
  match l with
  | [] => [x]
  | y :: r => if le x y then x :: y :: r else y :: insert_by le x r
  end.

(** A stable sort: elements that [le] ranks equal keep their order. *)
Definition stable_sort {A} (le : A → A → bool) (l : list A) : list A :=
  foldr (insert_by le) [] l.

Definition Object_entries (nm : list (jsstr * jsstr)) : list (jsstr * jsstr) :=
  stable_sort
    (fun a b => default 0 (array_index a.1) <=? default 0 (array_index b.1))
    (filter (fun e => is_Some (array_index e.1)) nm)
  ++ filter (fun e => ¬ is_Some (array_index e.1)) nm.

(** [Object.entries(nameMapping).sort((a, b) => b[0].length - a[0].length)];
    [Array.prototype.sort] is stable. *)
Definition sorted_entries (nm : list (jsstr * jsstr)) : list (jsstr * jsstr) :=
  stable_sort (fun a b => (length b.1 <=? length a.1)%nat) (Object_entries nm).

(** [text.includes(p)] *)
Definition includes (text p : jsstr) : bool := bool_decide (is_Some (indexOf p text)).

(** The replacement text of one match: [replaceAll] with a string as its
    second argument expands the patterns [$$], [$&], [$`] and [$'] of that
    string (a string pattern has no captures, so a [$] before a digit or
    before [<] stays as it is). *)
Fixpoint getSubstitution (matched before after template : jsstr) : jsstr :=
  match template with
  | c :: r =>
      if c =? 36
      then match r with
           | c2 :: r' =>
               if c2 =? 36 then 36 :: getSubstitution matched before after r'
               else if c2 =? 38 then matched ++ getSubstitution matched before after r'
               else if c2 =? 96 then before ++ getSubstitution matched before after r'
               else if c2 =? 39 then after ++ getSubstitution matched before after r'
               else 36 :: getSubstitution matched before after r
           | [] => [36]
           end
      else c :: getSubstitution matched before after r
  | [] => []
  end.

(** [whole.replaceAll(search, replacement)], at the suffix [s] of [whole]
    that starts at index [pos]; [skip] units of [s] belong to the match
    just replaced.  An empty [search] matches before every unit and at the
    end. *)
Fixpoint replaceAll_from (search replacement whole : jsstr) (pos skip : nat)
    (s : jsstr) : jsstr :=
  let subst p :=
    getSubstitution search (take p whole) (drop (p + length search) whole) replacement in
  match s with
  | [] => if bool_decide (search = []) then subst pos else []
  | c :: r =>
      match skip with
      | S k => replaceAll_from search replacement whole (S pos) k r
      | O =>
          if startsWith s search
          then subst pos
                 ++ match length search with
                    | O => c :: replaceAll_from search replacement whole (S pos) O r
                    | S k => replaceAll_from search replacement whole (S pos) k r
                    end
          else c :: replaceAll_from search replacement whole (S pos) O r
      end
  end.

Definition replaceAll (whole search replacement : jsstr) : jsstr :=
  replaceAll_from search replacement whole 0 0 whole.

(** The body of the [for] over the entries, for one text. *)
Definition restore_step (text : jsstr) (entry : jsstr * jsstr) : jsstr :=
  if negb (bool_decide (text = [])) && includes text entry.1
  then replaceAll text entry.1 entry.2
  else text.

(** The [for] over the entries, for one leaf of the first loop: the new
    [textContent]. *)
Definition restore_text (entries : list (jsstr * jsstr)) (text : jsstr) : jsstr :=
  foldl restore_step text entries.

(** The [textContent] that [postProcessSVG] leaves in a leaf that the
    rendering gave the [textContent] [text]. *)
Definition postProcess_text (nm : list (jsstr * jsstr)) (text : jsstr) : jsstr :=
  restore_text (sorted_entries nm) text.

(** ** initMermaid and render

    [initMermaid(erDirection)] hands Mermaid a configuration whose only
    part that depends on the source is [er.layoutDirection], the value of
    [erDirection || "TB"]. *)
Definition layoutDirection (erDirection : option jsstr) : jsstr :=
  match erDirection with
  | Some ((_ :: _) as d) => d
  | _ => js "TB"
  end.

(** The test of [render] for an ER source: the word [erDiagram] somewhere
    in the text, in any case, between two word boundaries.  [after_word]
    tells whether the unit before [s] is a word unit. *)
Fixpoint isER_from (after_word : bool) (s : jsstr) : bool :=
  match s with
  | [] => false
  | c :: r =>
      (negb after_word && keyword_boundary true (js "erDiagram") s)
      || isER_from (is_word c) r
  end.

Definition isER (raw : jsstr) : bool := isER_from false raw.

(** What [render] does before it calls Mermaid: it shows the placeholder
    for a blank editor, and otherwise compiles the trimmed text with one of
    the two preprocessors and initialises Mermaid with the direction. *)
Inductive RenderPlan :=
  | ShowPlaceholder
  | RenderDiagram (processed : jsstr) (direction : jsstr) (pass : PassState).

Definition render (editor_value : jsstr) : result RenderPlan :=
  let raw := trim editor_value in
  match raw with
  | [] => Ok ShowPlaceholder
  | _ =>
      if isER raw
      then out ← preprocessER raw;
           Ok (RenderDiagram (out_code out) (layoutDirection (out_direction out))
                 (out_pass out))
      else '(processed, st) ← preprocessFlowchart raw;
           Ok (RenderDiagram processed (layoutDirection None) st)
  end.

(** The message of a rendering error as [render] prepares it for the
    preview: the two [replace] calls. *)
Definition escape_message (msg : jsstr) : jsstr :=
  flat_map (fun c => if c =? 62 then js "&gt;" else [c])
    (flat_map (fun c => if c =? 60 then js "&lt;" else [c]) msg).

(** ** zoomBy

    JavaScript numbers are the binary64 floating-point numbers; [+], [-],
    [*] and [/] round to nearest, ties to even. *)
Definition num_add : spec_float → spec_float → spec_float := SFadd 53 1024.
Definition num_sub : spec_float → spec_float → spec_float := SFsub 53 1024.
Definition num_mul : spec_float → spec_float → spec_float := SFmul 53 1024.
Definition num_div : spec_float → spec_float → spec_float := SFdiv 53 1024.

(** An integer literal of the source. *)
Definition num_of_Z (z : Z) : spec_float := binary_normalize 53 1024 z 0 false.

Definition is_nan (x : spec_float) : bool :=
  match x with S754_nan => true | _ => false end.

(** [Math.max(a, b)]: NaN when an argument is NaN; otherwise the
    arguments are visited in order from negative infinity, a positive zero
    replacing a negative one and a greater number a smaller one. *)
Definition max_step (highest number : spec_float) : spec_float :=
  match number, highest with
  | S754_zero false, S754_zero true => number
  | _, _ => if SFltb highest number then number else highest
  end.

Definition Math_max (a b : spec_float) : spec_float :=
  if is_nan a || is_nan b then S754_nan
  else max_step (max_step (S754_infinity true) a) b.

(** [Math.min(a, b)], likewise from positive infinity. *)
Definition min_step (lowest number : spec_float) : spec_float :=
  match number, lowest with
  | S754_zero true, S754_zero false => number
  | _, _ => if SFltb number lowest then number else lowest
  end.

Definition Math_min (a b : spec_float) : spec_float :=
  if is_nan a || is_nan b then S754_nan
  else min_step (min_step (S754_infinity false) a) b.

(** The three globals of the canvas. *)
Record View := mkView {
  currentZoom : spec_float;
  panX : spec_float;
  panY : spec_float
}.

(** [zoomBy(delta, cx, cy)], up to its call of [applyTransform], which
    writes the three globals into the page. *)
Definition zoomBy (delta cx cy : spec_float) (v : View) : View :=
  let oldZoom := currentZoom v in
  let zoom := Math_min (num_of_Z 500) (Math_max (num_of_Z 10) (num_add (currentZoom v) delta)) in
  let factor := num_div zoom oldZoom in
  mkView zoom
    (num_sub cx (num_mul (num_sub cx (panX v)) factor))
    (num_sub cy (num_mul (num_sub cy (panY v)) factor)).

(** ** applyDirectionToEditor

    The function rewrites the text of the editor with [replace] and four
    patterns that carry the flags [i] and [m] and start with [^]: the
    leftmost match is replaced, and a match starts at index 0 or after a
    line terminator.  [here s] is the match of the pattern at the start of
    the suffix [s], if there is one. *)
Fixpoint search_line_start {A} (here : jsstr → option A) (at_start : bool)
    (s : jsstr) (pos : nat) : option (nat * A) :=
  match (if at_start then here s else None) with
  | Some m => Some (pos, m)
  | None =>
      match s with
      | [] => None
      | c :: r => search_line_start here (is_line_terminator c) r (S pos)
      end
  end.

(** White space, at least one unit, and a direction token: the length
    matched and the token.  The white space is the whole run, since no
    token starts with white space. *)
Definition ws_token_here (s : jsstr) : option (nat * jsstr) :=
  let w := length (leading_ws s) in
  let tok := take 2 (drop w s) in
  if (0 <? w)%nat && is_direction_token tok then Some ((w + 2)%nat, tok) else None.

(** The pattern for a stale direction statement: white space, [direction],
    white space and a token, white space; the optional line feed that ends
    the pattern finds nothing left to match.  The length matched. *)
Definition stale_direction_here (s : jsstr) : option nat :=
  let w := length (leading_ws s) in
  if eq_ci (take 9 (drop w s)) (js "direction")
  then match ws_token_here (drop (w + 9) s) with
       | Some (n, _) =>
           let e := (w + 9 + n)%nat in
           Some (e + length (leading_ws (drop e s)))%nat
       | None => None
       end
  else None.

(** The pattern for the declaration: white space and [erDiagram] as group
    1, a word boundary, and optionally white space and a token as groups 2
    and 3.  The length matched and the three groups. *)
Definition er_decl_here (s : jsstr) : option (nat * list (option jsstr)) :=
  let w := length (leading_ws s) in
  if keyword_boundary true (js "erDiagram") (drop w s)
  then let g1 := take (w + 9) s in
       match ws_token_here (drop (w + 9) s) with
       | Some (n, tok) =>
           Some ((w + 9 + n)%nat, [Some g1; Some (take n (drop (w + 9) s)); Some tok])
       | None => Some ((w + 9)%nat, [Some g1; None; None])
       end
  else None.

(** The pattern for the declaration with its shorthand: white space and
    [erDiagram] as group 1, white space, a token as group 2. *)
Definition er_shorthand_here (s : jsstr) : option (nat * list (option jsstr)) :=
  let w := length (leading_ws s) in
  if eq_ci (take 9 (drop w s)) (js "erDiagram")
  then match ws_token_here (drop (w + 9) s) with
       | Some (n, tok) => Some ((w + 9 + n)%nat, [Some (take (w + 9) s); Some tok])
       | None => None
       end
  else None.

(** The pattern for the header of a flowchart: white space and
    [flowchart] or [graph] as group 1, white space, a token as group 2. *)
Definition flow_header_here (s : jsstr) : option (nat * list (option jsstr)) :=
  let w := length (leading_ws s) in
  let k := if eq_ci (take 9 (drop w s)) (js "flowchart") then Some 9%nat
           else if eq_ci (take 5 (drop w s)) (js "graph") then Some 5%nat
           else None in
  match k with
  | Some k =>
      match ws_token_here (drop (w + k) s) with
      | Some (n, tok) => Some ((w + k + n)%nat, [Some (take (w + k) s); Some tok])
      | None => None
      end
  | None => None
  end.

(** The text that a capture reference stands for: the capture, the empty
    string for a group that did not take part, and nothing when the
    pattern has no group of that number. *)
Definition capture_text (captures : list (option jsstr)) (index : nat) : option jsstr :=
  if (1 <=? index)%nat && (index <=? length captures)%nat
  then Some (default [] (default None (captures !! (index - 1)%nat)))
  else None.

Definition digit_value (c : N) : nat := N.to_nat (c - 48).

(** The replacement text of a match of a pattern with groups: the patterns
    of [getSubstitution], and a dollar sign before one or two digits that
    number a group.  Two digits that number no group are read as one digit
    and a literal digit. *)
Fixpoint getSubstitution_captures (matched before after : jsstr)
    (captures : list (option jsstr)) (template : jsstr) : jsstr :=
  let rec := getSubstitution_captures matched before after captures in
  match template with
  | c :: r =>
      if c =? 36
      then match r with
           | c2 :: r' =>
               if c2 =? 36 then 36 :: rec r'
               else if c2 =? 38 then matched ++ rec r'
               else if c2 =? 96 then before ++ rec r'
               else if c2 =? 39 then after ++ rec r'
               else if is_digit c2
               then let one := match capture_text captures (digit_value c2) with
                               | Some t => t ++ rec r'
                               | None => 36 :: rec r
                               end in
                    match r' with
                    | c3 :: r'' =>
                        let index := (10 * digit_value c2 + digit_value c3)%nat in
                        if is_digit c3 && (index <=? length captures)%nat
                        then match capture_text captures index with
                             | Some t => t ++ rec r''
                             | None => 36 :: rec r
                             end
                        else one
                    | [] => one
                    end
               else 36 :: rec r
           | [] => [36]
           end
      else c :: rec r
  | [] => []
  end.

(** [code.replace(pattern, template)] for a match of [len] units at
    [pos]. *)
Definition replace_match (code : jsstr) (pos len : nat) (captures : list (option jsstr))
    (template : jsstr) : jsstr :=
  take pos code
  ++ getSubstitution_captures (take len (drop pos code)) (take pos code)
       (drop (pos + len) code) captures template
  ++ drop (pos + len) code.

Definition replace_first (here : jsstr → option (nat * list (option jsstr)))
    (template code : jsstr) : jsstr :=
  match search_line_start here true code 0 with
  | Some (pos, (len, captures)) => replace_match code pos len captures template
  | None => code
  end.

(** [applyDirectionToEditor(dir)]: the new text of the editor, which is
    the old text where the function assigns none. *)
Definition applyDirectionToEditor (dir code : jsstr) : jsstr :=
  if isER code
  then let updated :=
         match search_line_start stale_direction_here true code 0 with
         | Some (pos, len) => take pos code ++ drop (pos + len) code
         | None => code
         end in
       match dir with
       | _ :: _ => replace_first er_decl_here (js "$1 " ++ dir) updated
       | [] => replace_first er_shorthand_here (js "$1") updated
       end
  else match dir with
       | _ :: _ => replace_first flow_header_here (js "$1 " ++ dir) code
       | [] => code
       end.

(** ** The earlier revision

    The source also carries an earlier revision of the file.  Its
    functions of the core are those above except for three: [getUniqueId]
    takes no [minLength], [preprocessERAttribute] emits the type before the
    identifier, and [preprocessER] knows no direction.  Its [postProcessSVG]
    visits other elements and applies the same loop to each text. *)
Module Legacy.

Definition getUniqueId (displayName : jsstr) (st : PassState)
    : result (jsstr * PassState) :=
  let base := sanitizeName displayName in
  id ← uniqueId_loop (size (usedIds st)) st base displayName base 2;
  Ok (id, record_id id displayName st).

Definition preprocessERAttribute (line : jsstr) (st : PassState)
    : result (jsstr * PassState) :=
  let indent := leading_ws line in
  let trimmed := trim line in
  let parts := splitCSV trimmed in
  if (length parts <? 2)%nat then Ok (line, st)
  else
    displayName ← defined (parts !! 0%nat);
    let type := default (js "undefined") (parts !! 1%nat) in
    key ← attribute_key parts;
    comment ← attribute_comment parts key;
    '(safeName, st') ← getUniqueId displayName st;
    Ok (indent ++ type ++ js " " ++ safeName ++ key_suffix key ++ comment_suffix comment,
        st').

End Legacy.

(** * The vocabulary of the properties

    Predicates, harnesses and sample inputs that the statements below use;
    none of them is part of the source. *)

(** No two neighbours of [s] are both [c]. *)
Definition no_double (c : N) (s : jsstr) : Prop :=
  ∀ i : nat, ¬ (s !! i = Some c ∧ s !! S i = Some c).

(** Both identifier loops, over the test that keeps them running. *)
Fixpoint id_loop (taken : jsstr → bool) (fuel : nat) (base id : jsstr) (n : N)
    : result jsstr :=
  if taken id
  then match fuel with
       | O => OutOfFuel
       | S fuel' => id_loop taken fuel' base (base ++ number_toString n) (n + 1)
       end
  else Ok id.

(** A pass as the allocator sees it: calls of [getUniqueId], each with its
    display name and its optional [minLength]. *)
Fixpoint run_calls (calls : list (jsstr * option N)) (st : PassState)
    : result (list jsstr * PassState) :=
  match calls with
  | [] => Ok ([], st)
  | (displayName, minLength) :: rest =>
      '(id, st1) ← getUniqueId displayName minLength st;
      '(ids, st2) ← run_calls rest st1;
      Ok (id :: ids, st2)
  end.

(** [id] was issued and stands for [d]. *)
Definition assigned (st : PassState) (id d : jsstr) : Prop :=
  id ∈ usedIds st ∧ nm_get (nameMapping st) id = Some d.

(** Every issued identifier has an entry. *)
Definition pass_wf (st : PassState) : Prop :=
  ∀ id, id ∈ usedIds st → is_Some (nm_get (nameMapping st) id).

(** [st2] is [st1] after more allocations. *)
Definition pass_le (st1 st2 : PassState) : Prop :=
  usedIds st1 ⊆ usedIds st2 ∧ ∀ id d, assigned st1 id d → assigned st2 id d.

(** The key tag and the comment of an attribute line, from the fields that
    follow the name and the type. *)
Definition fields_key (more : list jsstr) : option jsstr :=
  match more with
  | f3 :: _ => if is_key_tag f3 then Some (toUpperCase f3) else None
  | [] => None
  end.

Definition fields_comment (more : list jsstr) : option jsstr :=
  match more with
  | [] => None
  | [f3] => if is_key_tag f3 then None else Some (trim f3)
  | _ :: later => Some (trim (join (js ", ") later))
  end.

Definition sample_attribute_line : jsstr := js "    Straße, string, pk, `Anschrift`".

(** The value that a line assigns to [erDirection], if it assigns one: the
    token of a declaration with the shorthand, or of a standalone
    statement, in upper case. *)
Definition line_direction (line : jsstr) : option jsstr :=
  match erDeclMatch (trim line) with
  | Some (Some ((_ :: _) as t)) => Some (toUpperCase t)
  | Some _ => None
  | None => toUpperCase <$> dirMatch (trim line)
  end.

(** The loop variables other than [erDirection]. *)
Definition er_core (s : ERLoop) : list jsstr * bool * PassState :=
  (er_result s, er_inEntity s, er_pass s).

Definition result_map {A B} (f : A → B) (r : result A) : result B :=
  match r with
  | Ok a => Ok (f a)
  | Throw e => Throw e
  | OutOfFuel => OutOfFuel
  end.

Definition er_start : ERLoop := mkER [] false None pass_start.

Definition sample_direction_source : jsstr :=
  js "erDiagram LR
Kunde {
  Name, string
}
direction tb".

(** [parts] is what [tokens.map] makes of [toks] when every labelled node
    is written with an identifier that the name mapping [nm] records for
    its label. *)
Definition written_with (nm : list (jsstr * jsstr)) (toks : list token)
    (parts : list jsstr) : Prop :=
  Forall2 (λ tok part,
    match tok with
    | TArrow raw => part = js " " ++ raw ++ js " "
    | TRaw raw => part = raw
    | TNode label sh =>
        ∃ id, (id, label) ∈ nm
              ∧ part = id ++ shape_open sh ++ label ++ shape_close sh
    end) toks parts.

(** [out] is the output line of [line] under [nm]. *)
Definition line_written_with (nm : list (jsstr * jsstr)) (line out : jsstr) : Prop :=
  if flow_passthrough (trim line) then out = line
  else ∃ toks parts,
         scan_loop (length (trim line)) (trim line) 0 [] = Ok toks
         ∧ written_with nm toks parts
         ∧ out = leading_ws line ++ collapse_runs 32 (concat parts).

(** The label of a node token is no property name of [Object.prototype]. *)
Definition own_label_token (tok : token) : bool :=
  match tok with
  | TNode label _ => negb (bool_decide (label ∈ inherited_keys))
  | _ => true
  end.

(** No labelled node of a scanned line of the source has a property name
    of [Object.prototype] as its label. *)
Definition line_labels_own (line : jsstr) : bool :=
  flow_passthrough (trim line)
  || match scan_loop (length (trim line)) (trim line) 0 [] with
     | Ok toks => forallb own_label_token toks
     | _ => true
     end.

Definition labels_own (code : jsstr) : Prop :=
  forallb line_labels_own (split_on 10 code) = true.

(** The order of the restorer's sort: a longer identifier does not come
    after a shorter one. *)
Definition longer_first (a b : jsstr * jsstr) : Prop :=
  (length b.1 ≤ length a.1)%nat.

(** No display name of the mapping contains the identifier of another
    entry. *)
Definition names_free_of_other_ids (nm : list (jsstr * jsstr)) : Prop :=
  ∀ e e', e ∈ nm → e' ∈ nm → e'.1 ≠ e.1 → includes e.2 e'.1 = false.

(** The pass after zero or more allocations of non-empty identifiers. *)
Inductive pass_steps : PassState → PassState → Prop :=
  | pass_steps_refl st : pass_steps st st
  | pass_steps_record st id d st' :
      id ≠ [] → pass_steps (record_id id d st) st' → pass_steps st st'.

(** The mapping is a well-formed object with non-empty keys. *)
Definition nm_ok (nm : list (jsstr * jsstr)) : Prop :=
  NoDup nm.*1 ∧ ∀ e, e ∈ nm → e.1 ≠ [].

Definition sample_dollar_source : jsstr :=
  js "erDiagram
Konto {
  Saldo US$$, float
}".

(** [id] is what the allocators make of the display name [d]: the
    sanitized name, [k] underscores of padding, and either nothing or the
    decimal digits of a counter that starts at two. *)
Definition derived_id (d id : jsstr) (k : nat) : Prop :=
  id = sanitizeName d ++ replicate k underscore
  ∨ ∃ n, 2 ≤ n ∧ id = sanitizeName d ++ replicate k underscore ++ number_toString n.

(** An identifier that the sanitizer leaves as it is. *)
Definition clean_identifier (s : jsstr) : Prop :=
  s ≠ [] ∧ Forall (λ c, is_word c = true) s
  ∧ head s ≠ Some underscore ∧ last s ≠ Some underscore ∧ no_double underscore s.

(** The pass as the allocators keep it: the keys of [nameMapping] are
    pairwise different, they are the members of [usedIds], and every entry
    satisfies [P]. *)
Definition pass_inv (P : jsstr → jsstr → Prop) (st : PassState) : Prop :=
  NoDup (nameMapping st).*1
  ∧ (∀ id, id ∈ usedIds st ↔ id ∈ (nameMapping st).*1)
  ∧ (∀ id d, (id, d) ∈ nameMapping st → P id d).

(** An entry of an ER pass: the identifier is derived from the name, with
    some padding. *)
Definition er_entry (id d : jsstr) : Prop := ∃ k, derived_id d id k.

(** An entry of a flowchart pass: derived without padding. *)
Definition flow_entry (id d : jsstr) : Prop := derived_id d id 0.

(** The flowchart pass: the entries of [nameMapping] are the entries of
    [nodeIdMap], turned round. *)
Definition flow_inv (fs : FlowState) : Prop :=
  pass_inv flow_entry (fl_pass fs)
  ∧ ∀ id l, (id, l) ∈ nameMapping (fl_pass fs) ↔ nodeIdMap fs !! l = Some id.

(** The number of double quotes of [s]. *)
Definition quote_count (s : jsstr) : nat := length (filter (λ c, c = dquote) s).

(** A line that [preprocessER] reads as a standalone direction statement. *)
Definition is_direction_statement (line : jsstr) : Prop := is_Some (dirMatch (trim line)).

#[global] Instance is_direction_statement_dec (line : jsstr) :
  Decision (is_direction_statement line) := is_Some_dec _.

(** The lines of a source that are not direction statements. *)
Definition kept_lines (code : jsstr) : list jsstr :=
  filter (λ l, ¬ is_direction_statement l) (split_on 10 code).

(** The text that a token carries from the line. *)
Definition token_text (tok : token) : jsstr :=
  match tok with
  | TArrow raw => raw
  | TRaw raw => raw
  | TNode label _ => label
  end.

Definition direction_tokens : list jsstr := [js "TD"; js "TB"; js "BT"; js "LR"; js "RL"].

(** A line that [preprocessER] reads as the declaration of an ER diagram. *)
Definition is_declaration_line (line : jsstr) : Prop := is_Some (erDeclMatch (trim line)).

(** A label between double quotes, as the user writes a node. *)
Definition quoted (label : jsstr) : jsstr := 34 :: label ++ [34].

(** A node as [preprocessFlowLine] writes it: the identifier and the label
    in square brackets and quotes. *)
Definition node_text (id label : jsstr) : jsstr := id ++ js "[`" ++ label ++ js "`]".

(** The identifiers of some labels, asked for in order. *)
Fixpoint flow_ids (labels : list jsstr) (fs : FlowState)
    : result (list jsstr * FlowState) :=
  match labels with
  | [] => Ok ([], fs)
  | l :: ls =>
      '(id, fs1) ← getFlowNodeId l fs;
      '(ids, fs2) ← flow_ids ls fs1;
      Ok (id :: ids, fs2)
  end.

(** The tokens of a chain of quoted nodes. *)
Fixpoint chain_tokens (labels : list jsstr) : list token :=
  match labels with
  | [] => []
  | [l] => [TNode l rect]
  | l :: ls => TNode l rect :: TArrow (js "-->") :: chain_tokens ls
  end.

(** The word [kw] occurs in [s], in any case. *)
Fixpoint occurs_ci (kw s : jsstr) : bool :=
  eq_ci (take (length kw) s) kw
  || match s with
     | [] => false
     | _ :: r => occurs_ci kw r
     end.

(** A name as the user types it in a line: it starts and ends with a unit
    that is not white space. *)
Definition typed_name (s : jsstr) : Prop :=
  (∃ c, head s = Some c ∧ is_ws c = false) ∧ (∃ c, last s = Some c ∧ is_ws c = false).

(** The display name of an entity that a line names: one layer of quotes
    is taken off. *)
Definition entity_display (name : jsstr) : jsstr := trim (strip_ends dquote name).

(** An identifier of Mermaid as the scanner reads one: a letter or an
    underscore, then letters, digits and underscores. *)
Definition plain_id (s : jsstr) : Prop :=
  ∃ c t, s = c :: t ∧ is_upper c || is_lower c || (c =? 95) = true
         ∧ Forall (λ x, is_word x = true) t.

(** The tokens of a chain of identifiers. *)
Fixpoint plain_tokens (ids : list jsstr) : list token :=
  match ids with
  | [] => []
  | [a] => [TRaw a]
  | a :: r => TRaw a :: TArrow (js "-->") :: plain_tokens r
  end.

(** A source in which no property name of [Object.prototype] occurs; every
    label is a part of the source, so no label is one of them. *)
Definition no_inherited_key (code : jsstr) : Prop :=
  forallb (λ k, negb (includes code k)) inherited_keys = true.

(** * Properties *)

(** ** The sanitizer *)

Section Sanitizer.

Lemma no_double_cons_inv c x s : no_double c (x :: s) → no_double c s.
Proof. intros H i. apply (H (S i)). Qed.

Lemma no_double_cons c x s :
  (x = c → head s ≠ Some c) → no_double c s → no_double c (x :: s).
Proof.
  intros Hx Hs [|i]; simpl.
  - intros [[= ->] H1]. apply Hx; [done|]. by destruct s.
  - apply Hs.
Qed.

Lemma no_double_prefix c s t : no_double c (s ++ t) → no_double c s.
Proof.
  intros H i [H1 H2]. apply (H i).
  split; by apply lookup_app_l_Some.
Qed.

Lemma collapse_runs_head c s :
  head (collapse_runs c s) = head s.
Proof.
  induction s as [|x r IH]; [done|]. simpl.
  destruct (x =? c) eqn:Hx; [|done].
  destruct r as [|y r']; [done|].
  destruct (y =? c) eqn:Hy; [|done].
  rewrite IH. simpl. f_equal.
  apply N.eqb_eq in Hx, Hy. congruence.
Qed.

Lemma collapse_runs_no_double c s : no_double c (collapse_runs c s).
Proof.
  induction s as [|x r IH]; [by intros [|i] [? ?]|]. simpl.
  destruct (x =? c) eqn:Hx.
  - destruct r as [|y r']; [by intros [|i] [? ?]|].
    destruct (y =? c) eqn:Hy; [done|].
    apply no_double_cons; [|done].
    intros _. rewrite collapse_runs_head. simpl.
    intros [= ->]. by rewrite N.eqb_refl in Hy.
  - apply no_double_cons; [|done].
    intros ->. by rewrite N.eqb_refl in Hx.
Qed.

Lemma collapse_runs_Forall (P : N → Prop) c s :
  Forall P s → Forall P (collapse_runs c s).
Proof.
  induction 1 as [|x r Hx Hr IH]; [done|]. simpl.
  destruct (x =? c); [|by constructor].
  destruct r as [|y r']; [by constructor|].
  destruct (y =? c); [done|by constructor].
Qed.

(** [strip_last] either finds no final [c], or removes one. *)
Lemma strip_last_cases c s :
  (strip_last c s = s ∧ last s ≠ Some c) ∨ s = strip_last c s ++ [c].
Proof.
  unfold strip_last. destruct (rev s) as [|x r] eqn:Hr.
  - apply (f_equal (@rev N)) in Hr. rewrite rev_involutive in Hr. subst s.
    left. by split.
  - apply (f_equal (@rev N)) in Hr. rewrite rev_involutive in Hr. simpl in Hr.
    destruct (x =? c) eqn:Hx.
    + apply N.eqb_eq in Hx. subst x. by right.
    + left. split; [done|]. subst s. rewrite last_snoc.
      intros [= ->]. by rewrite N.eqb_refl in Hx.
Qed.

Lemma strip_last_shape c s :
  no_double c s →
  last (strip_last c s) ≠ Some c ∧ no_double c (strip_last c s)
  ∧ (head s ≠ Some c → head (strip_last c s) ≠ Some c)
  ∧ ∀ P : N → Prop, Forall P s → Forall P (strip_last c s).
Proof.
  intros Hnd. destruct (strip_last_cases c s) as [[-> Hl]|Heq]; [done|].
  set (t := strip_last c s) in *. clearbody t. subst s.
  split_and!.
  - intros Hl. destruct t as [|x t _] using rev_ind; [done|].
    rewrite last_snoc in Hl. injection Hl as ->.
    apply (Hnd (length t)). split.
    + rewrite lookup_app_l; [by apply list_lookup_middle|].
      rewrite length_app; simpl; lia.
    + rewrite lookup_app_r; rewrite length_app; simpl; [|lia].
      by replace (S (length t) - (length t + 1))%nat with 0%nat by lia.
  - by eapply no_double_prefix.
  - by destruct t.
  - intros P HP. by apply Forall_app in HP as [? _].
Qed.

Lemma strip_ends_shape c s :
  no_double c s →
  head (strip_ends c s) ≠ Some c ∧ last (strip_ends c s) ≠ Some c
  ∧ no_double c (strip_ends c s)
  ∧ ∀ P : N → Prop, Forall P s → Forall P (strip_ends c s).
Proof.
  intros Hnd. destruct s as [|x r]; [by split_and!; [..|intros i [? ?]|]|].
  simpl. destruct (x =? c) eqn:Hx.
  - apply N.eqb_eq in Hx. subst x.
    destruct (strip_last_shape c r (no_double_cons_inv _ _ _ Hnd)) as (Hl & Hn & Hh & HP).
    split_and!; try done.
    + apply Hh. intros Hr. apply (Hnd 0%nat). split; [done|]. by destruct r.
    + intros P HF. apply HP. by inversion HF.
  - destruct (strip_last_shape c (x :: r) Hnd) as (Hl & Hn & Hh & HP).
    split_and!; try done.
    apply Hh. simpl. intros [= ->]. by rewrite N.eqb_refl in Hx.
Qed.

Lemma replace_non_alnum_word s :
  Forall (λ c, is_word c = true) (replace_non_alnum s).
Proof.
  apply Forall_forall. intros c Hc. apply list_elem_of_fmap in Hc as (x & -> & _).
  unfold is_word. destruct (is_alnum x) eqn:Hx; [by rewrite Hx|done].
Qed.

End Sanitizer.

(** C5.  For every input string, the empty one included, [sanitizeName]
    returns a non-empty string of ASCII letters, digits and underscores
    that neither starts nor ends with an underscore and has no two
    underscores in a row; when the cleaned string is empty the result is
    the token [unnamed].  The function has no throwing primitive and no
    loop, and as a function it is deterministic. *)
Theorem C5_sanitizeName_shape (name : jsstr) :
  sanitizeName name ≠ []
  ∧ Forall (λ c, is_word c = true) (sanitizeName name)
  ∧ head (sanitizeName name) ≠ Some underscore
  ∧ last (sanitizeName name) ≠ Some underscore
  ∧ no_double underscore (sanitizeName name)
  ∧ (sanitize_chain name = [] → sanitizeName name = js "unnamed").
Proof.
  unfold sanitizeName, sanitize_chain.
  set (s5 := replace_non_alnum _).
  destruct (strip_ends_shape underscore (collapse_runs underscore s5)
              (collapse_runs_no_double _ _)) as (Hh & Hl & Hn & HP).
  specialize (HP _ (collapse_runs_Forall _ underscore _ (replace_non_alnum_word _))).
  destruct (strip_ends underscore (collapse_runs underscore s5)) as [|x r] eqn:Hs.
  - split_and!; try done.
    + by apply Forall_forall; intros c Hc; repeat (apply elem_of_cons in Hc as [->|Hc]; [done|]);
        apply elem_of_nil in Hc.
    + intros i [H1 H2]. do 8 (destruct i as [|i]; [done|]). done.
  - by split_and!.
Qed.

(** ** The allocator *)

Section Allocator.

Lemma uint_units_inj d d' : uint_units d = uint_units d' → d = d'.
Proof.
  revert d'. induction d; intros []; simpl; intros H; try done;
    injection H as H; f_equal; auto.
Qed.

Lemma number_toString_inj n n' : number_toString n = number_toString n' → n = n'.
Proof.
  intros H. by apply DecimalN.Unsigned.to_uint_inj, uint_units_inj.
Qed.

Lemma number_toString_nonempty n : number_toString n ≠ [].
Proof.
  unfold number_toString. destruct n as [|p]; [done|]. simpl.
  pose proof (DecimalPos.Unsigned.to_uint_nonnil p) as Hp.
  by destruct (Pos.to_uint p).
Qed.

Lemma base_ne_candidate (base : jsstr) n : base ≠ base ++ number_toString n.
Proof.
  intros H. apply (number_toString_nonempty n).
  apply (f_equal length) in H. rewrite length_app in H.
  destruct (number_toString n); [done|simpl in H; lia].
Qed.

Lemma uniqueId_loop_id_loop fuel st base d id n :
  uniqueId_loop fuel st base d id n = id_loop (id_taken st d) fuel base id n.
Proof.
  revert id n. induction fuel as [|f IH]; intros id n; simpl;
    destruct (id_taken st d id); auto.
Qed.

Lemma flowId_loop_id_loop fuel used base id n :
  flowId_loop fuel used base id n
  = id_loop (λ c, bool_decide (c ∈ used)) fuel base id n.
Proof.
  revert id n. induction fuel as [|f IH]; intros id n; simpl;
    destruct (bool_decide (id ∈ used)); auto.
Qed.

(** The loop ends within [size U] rounds when every candidate that keeps
    it running lies in [U]: the candidates are pairwise different. *)
Lemma id_loop_total (taken : jsstr → bool) (base : jsstr) (fuel : nat)
    (U : gset jsstr) (id : jsstr) (n : N) :
  (∀ c, (c = id ∨ ∃ k, n ≤ k ∧ c = base ++ number_toString k) →
        taken c = true → c ∈ U) →
  (∀ k, n ≤ k → id ≠ base ++ number_toString k) →
  (size U ≤ fuel)%nat →
  ∃ r, id_loop taken fuel base id n = Ok r.
Proof.
  revert U id n. induction fuel as [|f IH]; intros U id n HU Hid Hsz; simpl.
  - destruct (taken id) eqn:Ht; [|by eexists].
    assert (id ∈ U) as Hin by (apply HU; auto).
    assert (size U = 0%nat) as Hz by lia.
    apply size_empty_inv in Hz. set_solver.
  - destruct (taken id) eqn:Ht; [|by eexists].
    assert (id ∈ U) as Hin by (apply HU; auto).
    apply (IH (U ∖ {[id]})).
    + intros c Hc Htc. apply elem_of_difference. split.
      * apply HU; [|done]. right.
        destruct Hc as [->|(k & Hk & ->)]; [exists n; split; [lia|done]|].
        exists k. split; [lia|done].
      * rewrite elem_of_singleton. intros ->.
        destruct Hc as [Hc|(k & Hk & Hc)].
        -- by apply (Hid n); [lia|].
        -- apply (Hid k); [lia|done].
    + intros k Hk Heq. apply app_inv_head, number_toString_inj in Heq. lia.
    + rewrite size_difference by set_solver. rewrite size_singleton.
      assert (size U ≠ 0%nat); [|lia].
      intros Hz. apply size_empty_inv in Hz. set_solver.
Qed.

Lemma id_loop_result (taken : jsstr → bool) (fuel : nat) (base id : jsstr) (n : N)
    (r : jsstr) :
  id_loop taken fuel base id n = Ok r → taken r = false.
Proof.
  revert id n. induction fuel as [|f IH]; intros id n; simpl;
    destruct (taken id) eqn:Ht; try done; [congruence|apply IH|congruence].
Qed.

(** The loop finds the same identifier again under a test that still
    rejects what it rejected and accepts the identifier found. *)
Lemma id_loop_stable (taken1 taken2 : jsstr → bool) (f1 f2 : nat)
    (base id : jsstr) (n : N) (r : jsstr) :
  id_loop taken1 f1 base id n = Ok r →
  (∀ c, taken1 c = true → taken2 c = true) →
  taken2 r = false →
  (f1 ≤ f2)%nat →
  id_loop taken2 f2 base id n = Ok r.
Proof.
  intros H Hmono Hr. revert f2 id n H.
  induction f1 as [|f1 IH]; intros f2 id n H Hf; simpl in H.
  - destruct (taken1 id) eqn:Ht; [done|]. injection H as ->.
    destruct f2; simpl; by rewrite Hr.
  - destruct (taken1 id) eqn:Ht.
    + destruct f2 as [|f2]; [lia|]. simpl. rewrite (Hmono _ Ht).
      apply IH; [done|lia].
    + injection H as ->. destruct f2; simpl; by rewrite Hr.
Qed.

Lemma padded_base_total d ml : ∃ base, padded_base d ml = Ok base.
Proof.
  unfold padded_base. destruct ml as [m|]; [|by eexists].
  destruct (negb (m =? 0) && (N.of_nat (length (sanitizeName d)) <? m)) eqn:Hc;
    [|by eexists].
  apply andb_true_iff in Hc as [_ Hlt%N.ltb_lt].
  unfold js_repeat.
  destruct (Z.of_N m - Z.of_nat (length (sanitizeName d)) <? 0)%Z eqn:Hneg;
    [apply Z.ltb_lt in Hneg; lia|].
  by eexists.
Qed.

Lemma id_taken_used st d c : id_taken st d c = true → c ∈ usedIds st.
Proof.
  unfold id_taken. intros [H _]%andb_true_iff. by apply bool_decide_eq_true in H.
Qed.

(** [getUniqueId] returns: it neither throws nor runs out of rounds. *)
Lemma getUniqueId_total d ml st :
  ∃ id, getUniqueId d ml st = Ok (id, record_id id d st).
Proof.
  unfold getUniqueId. destruct (padded_base_total d ml) as [base ->]. simpl.
  rewrite uniqueId_loop_id_loop.
  destruct (id_loop_total (id_taken st d) base (size (usedIds st)) (usedIds st) base 2)
    as [r ->]; [|intros; apply base_ne_candidate|done|by eexists].
  intros c _. apply id_taken_used.
Qed.

Lemma getUniqueId_inv d ml st id st' :
  getUniqueId d ml st = Ok (id, st') →
  st' = record_id id d st ∧ id_taken st d id = false
  ∧ ∃ base, padded_base d ml = Ok base
      ∧ id_loop (id_taken st d) (size (usedIds st)) base base 2 = Ok id.
Proof.
  unfold getUniqueId. destruct (padded_base d ml) as [base| |]; simpl; try done.
  rewrite uniqueId_loop_id_loop.
  destruct (id_loop _ _ _ _ _) as [r| |] eqn:Hl; simpl; try done.
  intros [= -> <-]. split_and!; [done|by eapply id_loop_result|by eexists].
Qed.

Lemma nm_get_set_eq nm k v : nm_get (nm_set k v nm) k = Some v.
Proof.
  induction nm as [|[k' v'] r IH]; simpl; [by rewrite decide_True|].
  destruct (decide (k' = k)); simpl; [by rewrite decide_True|by rewrite decide_False].
Qed.

Lemma nm_get_set_ne nm k v k' : k ≠ k' → nm_get (nm_set k v nm) k' = nm_get nm k'.
Proof.
  intros Hne. induction nm as [|[k0 v0] r IH]; simpl; [by rewrite decide_False|].
  destruct (decide (k0 = k)) as [->|]; simpl.
  - by rewrite !decide_False.
  - destruct (decide (k0 = k')); [done|apply IH].
Qed.

Lemma record_id_assigned id d st : assigned (record_id id d st) id d.
Proof. split; simpl; [set_solver|apply nm_get_set_eq]. Qed.

Lemma record_id_le id d st :
  id_taken st d id = false → pass_le st (record_id id d st).
Proof.
  intros Ht. split; simpl; [set_solver|].
  intros id' d' [Hin Hget]. split; simpl; [set_solver|].
  destruct (decide (id = id')) as [<-|Hne]; [|by rewrite nm_get_set_ne].
  rewrite nm_get_set_eq. unfold id_taken in Ht.
  rewrite bool_decide_eq_true_2 in Ht by done. simpl in Ht.
  apply negb_false_iff, bool_decide_eq_true in Ht. congruence.
Qed.

Lemma record_id_wf id d st : pass_wf st → pass_wf (record_id id d st).
Proof.
  intros Hwf id'. simpl. rewrite elem_of_union, elem_of_singleton.
  destruct (decide (id = id')) as [<-|Hne].
  - intros _. rewrite nm_get_set_eq. by eexists.
  - rewrite nm_get_set_ne by done. intros [->|Hin]; [done|by apply Hwf].
Qed.

Lemma pass_le_refl st : pass_le st st.
Proof. by split. Qed.

Lemma pass_le_trans st1 st2 st3 : pass_le st1 st2 → pass_le st2 st3 → pass_le st1 st3.
Proof. intros [H1 H2] [H3 H4]. split; [set_solver|auto]. Qed.

Lemma pass_start_wf : pass_wf pass_start.
Proof. intros id. simpl. set_solver. Qed.

(** What was rejected for [d] stays rejected after more allocations. *)
Lemma id_taken_mono st1 st2 d c :
  pass_wf st1 → pass_le st1 st2 →
  id_taken st1 d c = true → id_taken st2 d c = true.
Proof.
  intros Hwf [Hsub Has]. unfold id_taken.
  intros [Hin%bool_decide_eq_true Hne%negb_true_iff%bool_decide_eq_false]%andb_true_iff.
  destruct (Hwf c Hin) as [d' Hd'].
  destruct (Has c d' (conj Hin Hd')) as [Hin2 Hget2].
  apply andb_true_iff. split; [by apply bool_decide_eq_true|].
  apply negb_true_iff, bool_decide_eq_false. congruence.
Qed.

(** Stability across calls: the identifier issued for [d] from a base is
    issued again for [d] from that base later in the pass. *)
Lemma getUniqueId_again d ml1 ml2 st1 id st1' st2 id2 st2' :
  pass_wf st1 →
  getUniqueId d ml1 st1 = Ok (id, st1') →
  pass_le st1' st2 →
  padded_base d ml1 = padded_base d ml2 →
  getUniqueId d ml2 st2 = Ok (id2, st2') →
  id2 = id.
Proof.
  intros Hwf H1 Hle Hpad H2.
  apply getUniqueId_inv in H1 as (-> & Ht1 & base & Hb1 & Hl1).
  apply getUniqueId_inv in H2 as (-> & Ht2 & base2 & Hb2 & Hl2).
  assert (base2 = base) as -> by congruence.
  assert (pass_le st1 st2) as Hle12
    by (eapply pass_le_trans; [by apply record_id_le|done]).
  assert (id_loop (id_taken st2 d) (size (usedIds st2)) base base 2 = Ok id) as Hl;
    [|congruence].
  eapply id_loop_stable; [exact Hl1|..].
  - intros c. by apply id_taken_mono.
  - destruct Hle as [_ Has]. destruct (Has id d (record_id_assigned _ _ _)) as [_ Hg].
    unfold id_taken. rewrite (bool_decide_eq_true_2 _ Hg). by rewrite andb_false_r.
  - apply subseteq_size. by destruct Hle12.
Qed.

(** What a run of calls establishes: it returns, each identifier returned
    stands for the name of its call, and the pass only grows. *)
Lemma run_calls_spec calls st :
  pass_wf st →
  ∃ ids st', run_calls calls st = Ok (ids, st')
    ∧ length ids = length calls ∧ pass_wf st' ∧ pass_le st st'
    ∧ ∀ (i : nat) d ml x, calls !! i = Some (d, ml) → ids !! i = Some x →
        assigned st' x d.
Proof.
  revert st. induction calls as [|[d ml] rest IH]; intros st Hwf.
  - exists [], st. split_and!; done || apply pass_le_refl.
  - simpl. destruct (getUniqueId_total d ml st) as [id Hid]. rewrite Hid. simpl.
    apply getUniqueId_inv in Hid as (_ & Ht & _).
    destruct (IH (record_id id d st) (record_id_wf _ _ _ Hwf))
      as (ids & st' & -> & Hlen & Hwf' & Hle & Has).
    exists (id :: ids), st'. simpl. split_and!; try done; [by f_equal|..].
    + eapply pass_le_trans; [by apply record_id_le|done].
    + intros [|i] d' ml' x; simpl.
      * intros [= <- <-] [= <-]. destruct Hle as [_ Hle]. apply Hle, record_id_assigned.
      * apply Has.
Qed.

(** The earlier revision of [getUniqueId] is the present one called
    without [minLength]. *)
Lemma legacy_getUniqueId d st : Legacy.getUniqueId d st = getUniqueId d None st.
Proof. reflexivity. Qed.

Example suffix_example :
  ∃ st, run_calls [(js "ä", None); (js "ae", None); (js "Ä", Some 4); (js "ae", None)]
          pass_start
        = Ok ([js "ae"; js "ae2"; js "Ae__"; js "ae2"], st).
Proof. eexists. vm_compute. reflexivity. Qed.

End Allocator.

Section AllocatorRuns.

Lemma run_calls_cons_inv d ml rest st ids st' :
  run_calls ((d, ml) :: rest) st = Ok (ids, st') →
  ∃ id ids', ids = id :: ids'
    ∧ getUniqueId d ml st = Ok (id, record_id id d st)
    ∧ id_taken st d id = false
    ∧ run_calls rest (record_id id d st) = Ok (ids', st').
Proof.
  simpl. destruct (getUniqueId_total d ml st) as [id Hid]. rewrite Hid. simpl.
  destruct (run_calls rest _) as [[ids' st2]| |] eqn:Hr; simpl; try done.
  intros [= <- <-]. exists id, ids'. split_and!; try done.
  by apply getUniqueId_inv in Hid as (_ & ? & _).
Qed.

(** Every call of a run is made in a state that the pass has reached. *)
Lemma run_calls_calls calls st ids st' :
  pass_wf st → run_calls calls st = Ok (ids, st') →
  ∀ (j : nat) d ml y, calls !! j = Some (d, ml) → ids !! j = Some y →
    ∃ stj stj', pass_wf stj ∧ pass_le st stj ∧ getUniqueId d ml stj = Ok (y, stj').
Proof.
  revert st ids. induction calls as [|[d0 ml0] rest IH]; intros st ids Hwf Hrun j d ml y;
    [done|].
  apply run_calls_cons_inv in Hrun as (id & ids' & -> & Hid & Ht & Hrest).
  destruct j as [|j]; simpl.
  - intros [= <- <-] [= <-]. exists st, (record_id id d0 st).
    split_and!; [done|apply pass_le_refl|done].
  - intros Hc Hy.
    destruct (IH _ _ (record_id_wf _ _ _ Hwf) Hrest j d ml y Hc Hy)
      as (stj & stj' & Hwfj & Hle & Hg).
    exists stj, stj'. split_and!; try done.
    eapply pass_le_trans; [by apply record_id_le|done].
Qed.

Lemma run_calls_stable calls st ids st' :
  pass_wf st → run_calls calls st = Ok (ids, st') →
  ∀ (i j : nat) d m1 m2 x y, (i ≤ j)%nat →
    calls !! i = Some (d, m1) → calls !! j = Some (d, m2) →
    padded_base d m1 = padded_base d m2 →
    ids !! i = Some x → ids !! j = Some y → x = y.
Proof.
  revert st ids. induction calls as [|[d0 ml0] rest IH];
    intros st ids Hwf Hrun i j d m1 m2 x y Hij; [done|].
  apply run_calls_cons_inv in Hrun as (id & ids' & -> & Hid & Ht & Hrest).
  destruct i as [|i], j as [|j]; simpl; try lia.
  - intros _ _ _ [= <-] [= <-]. done.
  - intros [= <- <-] Hc Hpad [= <-] Hy.
    destruct (run_calls_calls _ _ _ _ (record_id_wf _ _ _ Hwf) Hrest j d0 m2 y Hc Hy)
      as (stj & stj' & Hwfj & Hle & Hg).
    symmetry. by eapply (getUniqueId_again d0 ml0 m2 st id _ stj y stj').
  - apply (IH _ _ (record_id_wf _ _ _ Hwf) Hrest). lia.
Qed.

End AllocatorRuns.

Section AllocatorBases.

Lemma concat_replicate_singleton (k : nat) (c : N) :
  concat (replicate k [c]) = replicate k c.
Proof. induction k as [|k IH]; [done|]. simpl. by rewrite IH. Qed.

(** The base after the padding: the sanitized name and as many underscores
    as it is shorter than [minLength]. *)
Lemma padded_base_shape d ml :
  ∃ k, padded_base d ml = Ok (sanitizeName d ++ replicate k underscore)
       ∧ N.of_nat (length (sanitizeName d) + k)
         = N.max (N.of_nat (length (sanitizeName d))) (default 0 ml).
Proof.
  unfold padded_base. destruct ml as [m|]; simpl.
  - destruct (negb (m =? 0) && (N.of_nat (length (sanitizeName d)) <? m)) eqn:Hc.
    + apply andb_true_iff in Hc as [_ Hlt%N.ltb_lt]. unfold js_repeat.
      destruct (Z.of_N m - Z.of_nat (length (sanitizeName d)) <? 0)%Z eqn:Hneg;
        [apply Z.ltb_lt in Hneg; lia|].
      exists (Z.to_nat (Z.of_N m - Z.of_nat (length (sanitizeName d)))). simpl.
      rewrite concat_replicate_singleton. split; [done|]. lia.
    + exists 0%nat. rewrite app_nil_r. split; [done|].
      apply andb_false_iff in Hc as [Hz|Hlt].
      * apply negb_false_iff, N.eqb_eq in Hz. lia.
      * apply N.ltb_ge in Hlt. lia.
  - exists 0%nat. rewrite app_nil_r. split; [done|]. lia.
Qed.

Lemma id_loop_shape (taken : jsstr → bool) (fuel : nat) (base id : jsstr) (n : N)
    (r : jsstr) :
  id_loop taken fuel base id n = Ok r →
  r = id ∨ ∃ k, n ≤ k ∧ r = base ++ number_toString k.
Proof.
  revert id n. induction fuel as [|f IH]; intros id n; simpl;
    destruct (taken id); try done; try (intros [= ->]; by left).
  intros [->|(k & Hk & ->)]%IH; right; [exists n|exists k]; split; try done; lia.
Qed.

Lemma uint_units_head d c : head (uint_units d) = Some c → is_digit c = true.
Proof. destruct d; simpl; by intros [= <-]. Qed.

(** A run of underscores, and then nothing or the digits of a counter: the
    length of the run can be read off. *)
Lemma underscores_then_digits (k1 k2 : nat) (t1 t2 : jsstr) :
  (∀ c, head t1 = Some c → is_digit c = true) →
  (∀ c, head t2 = Some c → is_digit c = true) →
  replicate k1 underscore ++ t1 = replicate k2 underscore ++ t2 → k1 = k2.
Proof.
  intros H1 H2. revert k2. induction k1 as [|k1 IH]; intros [|k2]; simpl; try done.
  - destruct t1 as [|c t1]; [done|]. intros [= ->]. by specialize (H1 _ eq_refl).
  - destruct t2 as [|c t2]; [done|]. intros [= <-]. by specialize (H2 _ eq_refl).
  - intros [= H]. f_equal. by apply IH.
Qed.

(** Two calls for one display name whose padded bases differ return
    different identifiers, whatever the states they are made in. *)
Lemma getUniqueId_bases_differ d m1 m2 st1 st2 x y st1' st2' :
  getUniqueId d m1 st1 = Ok (x, st1') → getUniqueId d m2 st2 = Ok (y, st2') →
  padded_base d m1 ≠ padded_base d m2 → x ≠ y.
Proof.
  intros (_ & _ & b1 & Hb1 & Hl1)%getUniqueId_inv (_ & _ & b2 & Hb2 & Hl2)%getUniqueId_inv
    Hne <-.
  destruct (padded_base_shape d m1) as (k1 & Hk1 & _).
  destruct (padded_base_shape d m2) as (k2 & Hk2 & _).
  apply Hne. rewrite Hk1, Hk2. cut (k1 = k2); [by intros ->|].
  rewrite Hk1 in Hb1. rewrite Hk2 in Hb2.
  assert (b1 = sanitizeName d ++ replicate k1 underscore) as -> by congruence.
  assert (b2 = sanitizeName d ++ replicate k2 underscore) as -> by congruence.
  assert (∀ (taken : jsstr → bool) fuel k,
            id_loop taken fuel (sanitizeName d ++ replicate k underscore)
              (sanitizeName d ++ replicate k underscore) 2 = Ok x →
            ∃ t, x = sanitizeName d ++ replicate k underscore ++ t
                 ∧ ∀ c, head t = Some c → is_digit c = true) as Hshape.
  { intros taken fuel k [->|(n & _ & ->)]%id_loop_shape.
    - exists []. by rewrite app_nil_r.
    - exists (number_toString n). split; [by rewrite <- (assoc_L (++))|].
      apply uint_units_head. }
  destruct (Hshape _ _ _ Hl1) as (t1 & Hx1 & Ht1).
  destruct (Hshape _ _ _ Hl2) as (t2 & Hx2 & Ht2).
  rewrite Hx1 in Hx2. apply app_inv_head in Hx2.
  exact (underscores_then_digits k1 k2 t1 t2 Ht1 Ht2 Hx2).
Qed.

(** The padding changes the base when the sanitized name is shorter than
    [minLength]. *)
Lemma padded_base_longer d ml :
  N.of_nat (length (sanitizeName d)) < ml →
  padded_base d None ≠ padded_base d (Some ml).
Proof.
  intros Hlt. destruct (padded_base_shape d (Some ml)) as (k & -> & Hk). simpl in Hk.
  unfold padded_base. intros [= H]. apply (f_equal length) in H.
  rewrite length_app, length_replicate in H. lia.
Qed.

End AllocatorBases.

(** C2, as the code has it.  Every sequence of [getUniqueId] calls of one
    pass returns; two calls with different display names never return the
    same identifier; and two calls with the same display name return the
    same identifier whenever the padding leaves them the same base, which
    is the case when both carry the same [minLength] or none.  Whenever
    the padding leaves them different bases they return different
    identifiers: a call without [minLength] and a call with a [minLength]
    above the length of the sanitized name never agree. *)
Theorem C2_allocator_unique_and_stable (calls : list (jsstr * option N)) :
  ∃ ids st, run_calls calls pass_start = Ok (ids, st)
    ∧ length ids = length calls
    ∧ ∀ (i j : nat) d1 m1 d2 m2 x y,
        calls !! i = Some (d1, m1) → calls !! j = Some (d2, m2) →
        ids !! i = Some x → ids !! j = Some y →
        (d1 ≠ d2 → x ≠ y)
        ∧ (d1 = d2 → padded_base d1 m1 = padded_base d2 m2 → x = y)
        ∧ (d1 = d2 → m1 = m2 → x = y)
        ∧ (d1 = d2 → padded_base d1 m1 ≠ padded_base d2 m2 → x ≠ y)
        ∧ (d1 = d2 → m1 = None →
           ∀ ml, m2 = Some ml → N.of_nat (length (sanitizeName d1)) < ml → x ≠ y).
Proof.
  destruct (run_calls_spec calls pass_start pass_start_wf)
    as (ids & st & Hrun & Hlen & _ & _ & Has).
  exists ids, st. split_and!; try done.
  intros i j d1 m1 d2 m2 x y Hi Hj Hx Hy.
  assert (d1 = d2 → padded_base d1 m1 = padded_base d2 m2 → x = y) as Hst.
  { intros <- Hpad. destruct (decide (i ≤ j)%nat).
    - by eapply (run_calls_stable _ _ _ _ pass_start_wf Hrun i j).
    - symmetry. eapply (run_calls_stable _ _ _ _ pass_start_wf Hrun j i); eauto; lia. }
  assert (d1 = d2 → padded_base d1 m1 ≠ padded_base d2 m2 → x ≠ y) as Hdiff.
  { intros <- Hpad.
    destruct (run_calls_calls _ _ _ _ pass_start_wf Hrun i d1 m1 x Hi Hx)
      as (sti & sti' & _ & _ & Hgi).
    destruct (run_calls_calls _ _ _ _ pass_start_wf Hrun j d1 m2 y Hj Hy)
      as (stj & stj' & _ & _ & Hgj).
    by eapply getUniqueId_bases_differ. }
  split_and!; [|done|by intros <- <-; apply Hst|done|].
  - intros Hne ->. destruct (Has _ _ _ _ Hi Hx) as [_ H1], (Has _ _ _ _ Hj Hy) as [_ H2].
    congruence.
  - intros <- -> ml -> Hlt. apply Hdiff; [done|]. by apply padded_base_longer.
Qed.

(** An entity and one of its attributes, both named [Order]: the entity is
    allocated without [minLength], the attribute with [minLength] 7. *)
Lemma C2_allocator_witness :
  ∃ ids st,
    run_calls [(js "Order", None); (js "Kunde", None); (js "Order", None);
               (js "Order", Some 7); (js "Order", Some 7)] pass_start = Ok (ids, st)
    ∧ ids !! 0%nat ≠ ids !! 1%nat ∧ ids !! 0%nat = ids !! 2%nat
    ∧ ids !! 3%nat = ids !! 4%nat ∧ ids !! 2%nat ≠ ids !! 3%nat.
Proof.
  destruct (C2_allocator_unique_and_stable
              [(js "Order", None); (js "Kunde", None); (js "Order", None);
               (js "Order", Some 7); (js "Order", Some 7)])
    as (ids & st & Hrun & Hlen & H).
  exists ids, st. split; [exact Hrun|].
  destruct ids as [|x0 [|x1 [|x2 [|x3 [|x4 [|]]]]]]; try discriminate Hlen.
  simpl. split_and!.
  - intros [= ->].
    destruct (H 0%nat 1%nat (js "Order") None (js "Kunde") None x1 x1
                eq_refl eq_refl eq_refl eq_refl) as (Hne & _).
    apply Hne; [|reflexivity]. intros Heq. vm_compute in Heq. discriminate Heq.
  - f_equal.
    destruct (H 0%nat 2%nat (js "Order") None (js "Order") None x0 x2
                eq_refl eq_refl eq_refl eq_refl) as (_ & _ & Hsame & _).
    exact (Hsame eq_refl eq_refl).
  - f_equal.
    destruct (H 3%nat 4%nat (js "Order") (Some 7) (js "Order") (Some 7) x3 x4
                eq_refl eq_refl eq_refl eq_refl) as (_ & _ & Hsame & _).
    exact (Hsame eq_refl eq_refl).
  - intros [= ->].
    destruct (H 2%nat 3%nat (js "Order") None (js "Order") (Some 7) x3 x3
                eq_refl eq_refl eq_refl eq_refl) as (_ & _ & _ & _ & Hpad).
    apply (Hpad eq_refl eq_refl 7 eq_refl); [vm_compute; reflexivity|reflexivity].
Defined.

(** The claim as worded fails: the same display name, allocated once
    without [minLength] and once with it, receives two identifiers. *)
Lemma C2_minLength_counterexample :
  ∃ st, run_calls [(js "Order", None); (js "Order", Some 7)] pass_start
        = Ok ([js "Order"; js "Order__"], st)
    ∧ js "Order" ≠ js "Order__".
Proof. eexists. split; [vm_compute; reflexivity|done]. Qed.

(** ** Attribute lines *)

Section Attributes.

Lemma is_key_tag_upper f :
  is_key_tag f = true → toUpperCase f ∈ [js "PK"; js "FK"; js "UK"].
Proof.
  unfold is_key_tag, eq_ci. rewrite !orb_true_iff, !bool_decide_eq_true.
  assert (∀ a l : N, lower_unit a = l → 97 ≤ l → l ≤ 122 → upper_unit a = l - 32) as Hup.
  { intros a l <- H1 H2. unfold lower_unit, upper_unit, is_upper, is_lower in *.
    repeat (case_match; try lia); repeat match goal with
      | H : (_ && _) = true |- _ => apply andb_true_iff in H as [?%N.leb_le ?%N.leb_le]
      | H : (_ && _) = false |- _ => apply andb_false_iff in H as [?%N.leb_gt|?%N.leb_gt]
      end; lia. }
  intros H. destruct f as [|a [|b [|? ?]]];
    try (by destruct H as [[H|H]|H]; vm_compute in H).
  unfold toUpperCase. simpl.
  destruct H as [[H|H]|H]; vm_compute (map lower_unit (js _)) in H; simpl in H;
    injection H as Ha Hb;
    rewrite (Hup _ _ Ha), (Hup _ _ Hb) by lia; set_solver.
Qed.

Lemma splitCSV_loop_nonempty line parts current q :
  splitCSV_loop line parts current q ≠ [].
Proof.
  revert parts current q. induction line as [|ch rest IH]; intros parts current q; simpl.
  - by destruct parts.
  - repeat case_match; apply IH.
Qed.

(** What [preprocessERAttribute] does with a line of two fields or more. *)
Lemma preprocessERAttribute_fields line st name type more :
  splitCSV (trim line) = name :: type :: more →
  ∃ id,
    getUniqueId name (Some (N.of_nat (length name) + 2)) st = Ok (id, record_id id name st)
    ∧ preprocessERAttribute line st
      = Ok (leading_ws line ++ id ++ js " " ++ type
              ++ key_suffix (fields_key more) ++ comment_suffix (fields_comment more),
            record_id id name st).
Proof.
  intros Hp.
  destruct (getUniqueId_total name (Some (N.of_nat (length name) + 2)) st) as [id Hid].
  exists id. split; [done|].
  unfold preprocessERAttribute. rewrite Hp. simpl.
  assert (attribute_key (name :: type :: more) = Ok (fields_key more)) as ->.
  { unfold attribute_key. destruct more as [|f3 more']; simpl; [done|].
    by destruct (is_key_tag f3). }
  simpl.
  assert (attribute_comment (name :: type :: more) (fields_key more)
          = Ok (fields_comment more)) as ->.
  { unfold attribute_comment. destruct more as [|f3 [|f4 more']]; simpl; try done.
    by destruct (is_key_tag f3). }
  simpl. rewrite Hid. done.
Qed.

Lemma key_suffix_cases more :
  key_suffix (fields_key more) ∈ [[]; js " PK"; js " FK"; js " UK"].
Proof.
  destruct more as [|f3 more]; simpl; [set_solver|].
  destruct (is_key_tag f3) eqn:Hk; [|set_solver].
  apply is_key_tag_upper in Hk.
  repeat (apply elem_of_cons in Hk as [->|Hk]; [vm_compute; set_solver|]).
  by apply elem_of_nil in Hk.
Qed.

Lemma comment_suffix_cases comment :
  comment_suffix comment = []
  ∨ ∃ c, c ≠ [] ∧ comment_suffix comment = js " `" ++ c ++ js "`".
Proof.
  unfold comment_suffix. destruct comment as [[|x cm]|]; try (by left).
  destruct (trim (strip_ends dquote (x :: cm))) as [|y c] eqn:Hc; [by left|].
  right. by exists (y :: c).
Qed.

End Attributes.

(** C3.  For every attribute line that splits into at least two fields,
    [preprocessERAttribute] returns the indentation, then the identifier
    allocated for the first field with a minimum length of the name's
    length plus two, then a space and the second field (the type), then
    the key tag if there is one and the quoted comment if there is one.
    In the target grammar, which reads an attribute as type then name, the
    identifier therefore fills the first slot. *)
Theorem C3_attribute_identifier_then_type (line : jsstr) (st : PassState) :
  (2 ≤ length (splitCSV (trim line)))%nat →
  ∃ name type id st' keyPart commentPart,
    splitCSV (trim line) !! 0%nat = Some name
    ∧ splitCSV (trim line) !! 1%nat = Some type
    ∧ getUniqueId name (Some (N.of_nat (length name) + 2)) st = Ok (id, st')
    ∧ preprocessERAttribute line st
      = Ok (leading_ws line ++ id ++ js " " ++ type ++ keyPart ++ commentPart, st')
    ∧ keyPart ∈ [[]; js " PK"; js " FK"; js " UK"]
    ∧ (commentPart = [] ∨ ∃ c, c ≠ [] ∧ commentPart = js " `" ++ c ++ js "`").
Proof.
  intros Hlen.
  destruct (splitCSV (trim line)) as [|name [|type more]] eqn:Hp; simpl in Hlen; try lia.
  destruct (preprocessERAttribute_fields line st name type more Hp) as (id & Hid & Hout).
  exists name, type, id, (record_id id name st),
    (key_suffix (fields_key more)), (comment_suffix (fields_comment more)).
  split_and!; try done; [apply key_suffix_cases|apply comment_suffix_cases].
Qed.

Lemma C3_attribute_witness :
  (2 ≤ length (splitCSV (trim sample_attribute_line)))%nat
  ∧ ∃ name type id st' keyPart commentPart,
      splitCSV (trim sample_attribute_line) !! 0%nat = Some name
      ∧ splitCSV (trim sample_attribute_line) !! 1%nat = Some type
      ∧ getUniqueId name (Some (N.of_nat (length name) + 2)) pass_start = Ok (id, st')
      ∧ preprocessERAttribute sample_attribute_line pass_start
        = Ok (leading_ws sample_attribute_line ++ id ++ js " " ++ type
                ++ keyPart ++ commentPart, st')
      ∧ keyPart ∈ [[]; js " PK"; js " FK"; js " UK"]
      ∧ (commentPart = [] ∨ ∃ c, c ≠ [] ∧ commentPart = js " `" ++ c ++ js "`").
Proof.
  split; [vm_compute; lia|].
  apply C3_attribute_identifier_then_type. vm_compute; lia.
Defined.

Example sample_attribute_output :
  ∃ st', preprocessERAttribute sample_attribute_line pass_start
         = Ok (js "    Strasse_ string PK `Anschrift`", st').
Proof. eexists. vm_compute. reflexivity. Qed.

(** The earlier revision emits the type first. *)
Example legacy_attribute_output :
  ∃ st', Legacy.preprocessERAttribute sample_attribute_line pass_start
         = Ok (js "    string Strasse PK `Anschrift`", st').
Proof. eexists. vm_compute. reflexivity. Qed.

Example order_status_example :
  splitCSV (js "Order Status, string, , `New, Shipped`")
  = [js "Order Status"; js "string"; []; js "`New, Shipped`"]
  ∧ ∃ st', preprocessERAttribute (js "Order Status, string, , `New, Shipped`") pass_start
           = Ok (js "Order_Status__ string `New, Shipped`", st').
Proof. split; [|eexists]; vm_compute; reflexivity. Qed.

(** C7, at the input that decides it.  On the line of the claim the third
    field is empty and the comment is made of the fourth.  On the line
    [Typ, string, Büro, Wohnung] the third field is no key tag, so by the
    comment in the source it starts the comment; but the branch that takes
    the third field as the comment is only entered for a line of exactly
    three fields, and with four fields the comment is made of the fields
    from the fourth on.  No key tag is emitted, the comment is [Wohnung],
    and [Büro] occurs nowhere in the output.  With three fields the third
    one is the comment. *)
Theorem C7_third_field_dropped :
  (∃ st', preprocessERAttribute (js "Order Status, string, , `New, Shipped`") pass_start
          = Ok (js "Order_Status__ string `New, Shipped`", st'))
  ∧ (∃ st', preprocessERAttribute (js "Typ, string, Büro") pass_start
            = Ok (js "Typ__ string `Büro`", st'))
  ∧ splitCSV (js "Typ, string, Büro, Wohnung")
    = [js "Typ"; js "string"; js "Büro"; js "Wohnung"]
  ∧ is_key_tag (js "Büro") = false
  ∧ (∃ st', preprocessERAttribute (js "Typ, string, Büro, Wohnung") pass_start
            = Ok (js "Typ__ string `Wohnung`", st'))
  ∧ includes (js "Typ__ string `Wohnung`") (js "Büro") = false
  ∧ js "Typ__ string `Wohnung`" ≠ js "Typ__ string `Büro, Wohnung`".
Proof.
  split_and!; try (eexists; vm_compute; reflexivity); try (vm_compute; reflexivity).
  by vm_compute.
Qed.

(** ** The scanner of a flowchart line *)

Section Scanner.

Lemma indexOf_from_ge c s from e : indexOf_from c s from = Some e → (from ≤ e)%nat.
Proof.
  unfold indexOf_from. destruct (indexOf1 c (drop from s)); simpl; [|done].
  intros [= <-]. lia.
Qed.

(** Each branch that pushes a token moves [pos] forward. *)
Lemma scan_branches_advance rest pos tok pos' :
  first_some (scan_arrow rest pos)
    (first_some (scan_brace rest pos)
    (first_some (scan_quote rest pos)
    (first_some (scan_round rest pos) (scan_id rest pos)))) = Some (tok, pos') →
  (pos < pos')%nat.
Proof.
  unfold first_some, scan_arrow, scan_brace, scan_quote, scan_round, scan_id.
  repeat (case_match; simplify_eq; try done); intros ?; simplify_eq;
    repeat match goal with
    | H : indexOf_from _ _ _ = Some _ |- _ => apply indexOf_from_ge in H
    | H : (0 <? _)%nat = true |- _ => apply Nat.ltb_lt in H
    end; lia.
Qed.

Lemma scan_step_advance rest pos : (pos < (scan_step rest pos).2)%nat.
Proof.
  unfold scan_step. destruct (rest !! pos) as [c|]; simpl; [|lia].
  destruct (is_ws c); simpl; [lia|].
  destruct (first_some _ _) as [[tok pos']|] eqn:Hb; simpl; [|lia].
  by eapply scan_branches_advance.
Qed.

Lemma scan_loop_total rest (fuel pos : nat) tokens :
  (length rest - pos ≤ fuel)%nat →
  ∃ toks, scan_loop fuel rest pos tokens = Ok toks.
Proof.
  revert pos tokens. induction fuel as [|f IH]; intros pos tokens Hf; simpl.
  - destruct (pos <? length rest)%nat eqn:Hlt; [|by eexists].
    apply Nat.ltb_lt in Hlt. lia.
  - destruct (pos <? length rest)%nat eqn:Hlt; [|by eexists].
    apply Nat.ltb_lt in Hlt.
    pose proof (scan_step_advance rest pos) as Hadv.
    destruct (scan_step rest pos) as [tok pos']. simpl in Hadv.
    apply IH. lia.
Qed.

Lemma getFlowNodeId_total label fs :
  ∃ id fs', getFlowNodeId label fs = Ok (id, fs').
Proof.
  unfold getFlowNodeId.
  assert (∃ id, flowId_loop (size (usedIds (fl_pass fs))) (usedIds (fl_pass fs))
                  (sanitizeName label) (sanitizeName label) 2 = Ok id) as [id Hid].
  { rewrite flowId_loop_id_loop.
    apply (id_loop_total _ _ _ (usedIds (fl_pass fs)));
      [|intros; apply base_ne_candidate|done].
    intros c _ Hc. by apply bool_decide_eq_true in Hc. }
  destruct (nodeIdMap_get fs label) as [[|x r]|]; [|by eexists _, _|];
    rewrite Hid; by eexists _, _.
Qed.

Lemma render_tokens_total toks fs :
  ∃ parts fs', render_tokens getFlowNodeId toks fs = Ok (parts, fs').
Proof.
  revert fs. induction toks as [|tok rest IH]; intros fs; simpl; [by eexists _, _|].
  assert (∃ p fs1, render_token getFlowNodeId tok fs = Ok (p, fs1)) as (p & fs1 & ->).
  { destruct tok as [raw|raw|label sh]; simpl; try by eexists _, _.
    destruct (getFlowNodeId_total label fs) as (id & fs' & ->). by eexists _, _. }
  simpl. destruct (IH fs1) as (ps & fs2 & ->). by eexists _, _.
Qed.

Lemma preprocessFlowLine_total line fs :
  ∃ out fs', preprocessFlowLine line getFlowNodeId fs = Ok (out, fs').
Proof.
  unfold preprocessFlowLine.
  destruct (scan_loop_total (trim line) (length (trim line)) 0 []) as [toks ->]; [lia|].
  simpl. destruct (render_tokens_total toks fs) as (parts & fs' & ->).
  by eexists _, _.
Qed.

End Scanner.

(** C10.  Every iteration of the scanning loop leaves [pos] larger than it
    found it, whichever branch it takes; the loop therefore ends within as
    many iterations as the line has units, and [preprocessFlowLine]
    returns for every line. *)
Theorem C10_flow_line_terminates :
  (∀ rest pos, (pos < length rest)%nat → (pos < (scan_step rest pos).2)%nat)
  ∧ (∀ rest, ∃ tokens, scan_loop (length rest) rest 0 [] = Ok tokens)
  ∧ (∀ line fs, ∃ out fs', preprocessFlowLine line getFlowNodeId fs = Ok (out, fs')).
Proof.
  split_and!.
  - intros rest pos _. apply scan_step_advance.
  - intros rest. apply scan_loop_total. lia.
  - apply preprocessFlowLine_total.
Qed.

Lemma C10_flow_line_witness :
  (4 < length (js "A -->|`ja`| {`B?`}"))%nat
  ∧ (4 < (scan_step (js "A -->|`ja`| {`B?`}") 4).2)%nat
  ∧ ∃ tokens, scan_loop (length (js "A -->|`ja`| {`B?`}")) (js "A -->|`ja`| {`B?`}") 0 []
              = Ok tokens.
Proof.
  destruct C10_flow_line_terminates as (Hstep & Hloop & _).
  split; [vm_compute; lia|]. split; [apply Hstep; vm_compute; lia|apply Hloop].
Defined.

Example scan_example :
  scan_loop 18 (js "A -->|`ja`| {`B?`}") 0 []
  = Ok [TRaw (js "A"); TArrow (js "-->|`ja`|"); TNode (js "B?") diamond].
Proof. vm_compute. reflexivity. Qed.

(** ** No function of the core throws *)

Section Totality.

Lemma preprocessERAttribute_total line st :
  ∃ out st', preprocessERAttribute line st = Ok (out, st').
Proof.
  destruct (splitCSV (trim line)) as [|name [|type more]] eqn:Hp.
  - by apply splitCSV_loop_nonempty in Hp.
  - unfold preprocessERAttribute. rewrite Hp. simpl. by eexists _, _.
  - destruct (preprocessERAttribute_fields line st name type more Hp) as (id & _ & ->).
    by eexists _, _.
Qed.

Lemma preprocessERRelationship_total line st :
  ∃ out st', preprocessERRelationship line st = Ok (out, st').
Proof.
  unfold preprocessERRelationship.
  destruct (relOp_match (trim line)) as [opStart|]; [|by eexists _, _].
  destruct (match indexOf1 58 _ with Some _ => _ | None => _ end) as [rightEntity label].
  destruct (getUniqueId_total (trim (strip_ends dquote (trim (take opStart (trim line)))))
              None st) as [leftId ->].
  simpl.
  destruct (getUniqueId_total (trim (strip_ends dquote rightEntity)) None
              (record_id leftId (trim (strip_ends dquote (trim (take opStart (trim line))))) st))
    as [rightId ->].
  by eexists _, _.
Qed.

Lemma preprocessER_line_total line s : ∃ s', preprocessER_line line s = Ok s'.
Proof.
  unfold preprocessER_line.
  destruct (bool_decide (trim line = []) || startsWith (trim line) (js "%%"));
    [by eexists|].
  destruct (erDeclMatch (trim line)); [by eexists|].
  destruct (dirMatch (trim line)); [by eexists|].
  destruct (bool_decide (trim line = js "}")); [by eexists|].
  destruct (er_inEntity s).
  { destruct (preprocessERAttribute_total line (er_pass s)) as (out & st' & ->).
    by eexists. }
  destruct (entityOpen (trim line)) as [g1|].
  { destruct (getUniqueId_total (trim (strip_ends dquote g1)) None (er_pass s)) as [id ->].
    by eexists. }
  destruct (relOp_match (trim line)); [|by eexists].
  destruct (preprocessERRelationship_total line (er_pass s)) as (out & st' & ->).
  by eexists.
Qed.

Lemma preprocessER_loop_total lines s : ∃ s', preprocessER_loop lines s = Ok s'.
Proof.
  revert s. induction lines as [|line rest IH]; intros s; simpl; [by eexists|].
  destruct (preprocessER_line_total line s) as [s1 ->]. apply IH.
Qed.

Lemma preprocessER_total code : ∃ out, preprocessER code = Ok out.
Proof.
  unfold preprocessER.
  destruct (preprocessER_loop_total (split_on 10 code) (mkER [] false None pass_start))
    as [s ->].
  by eexists.
Qed.

Lemma preprocessFlowchart_loop_total lines res fs :
  ∃ res' fs', preprocessFlowchart_loop lines res fs = Ok (res', fs').
Proof.
  revert res fs. induction lines as [|line rest IH]; intros res fs; simpl;
    [by eexists _, _|].
  destruct (flow_passthrough (trim line)); [apply IH|].
  destruct (preprocessFlowLine_total line fs) as (out & fs' & ->). apply IH.
Qed.

Lemma preprocessFlowchart_total code : ∃ out st, preprocessFlowchart code = Ok (out, st).
Proof.
  unfold preprocessFlowchart.
  destruct (preprocessFlowchart_loop_total (split_on 10 code) [] (mkFlow pass_start ∅))
    as (res & fs & ->).
  by eexists _, _.
Qed.

End Totality.

(** C9.  An attribute line with fewer than two fields comes back from
    [preprocessERAttribute] unchanged, and the pass with it.  And no
    function of the preprocessing core throws or fails to return, whatever
    its input: the count given to [repeat] is never negative, no property
    is read on [undefined], and the loops end. *)
Theorem C9_malformed_line_passthrough :
  (∀ line st, (length (splitCSV (trim line)) < 2)%nat →
              preprocessERAttribute line st = Ok (line, st))
  ∧ (∀ line st, ∃ out st', preprocessERAttribute line st = Ok (out, st'))
  ∧ (∀ line st, ∃ out st', preprocessERRelationship line st = Ok (out, st'))
  ∧ (∀ d ml st, ∃ id st', getUniqueId d ml st = Ok (id, st'))
  ∧ (∀ code, ∃ out, preprocessER code = Ok out)
  ∧ (∀ label fs, ∃ id fs', getFlowNodeId label fs = Ok (id, fs'))
  ∧ (∀ line fs, ∃ out fs', preprocessFlowLine line getFlowNodeId fs = Ok (out, fs'))
  ∧ (∀ code, ∃ out st, preprocessFlowchart code = Ok (out, st)).
Proof.
  split_and!.
  - intros line st Hlen. unfold preprocessERAttribute.
    apply Nat.ltb_lt in Hlen. by rewrite Hlen.
  - apply preprocessERAttribute_total.
  - apply preprocessERRelationship_total.
  - intros d ml st. destruct (getUniqueId_total d ml st) as [id Hid]. by eexists _, _.
  - apply preprocessER_total.
  - apply getFlowNodeId_total.
  - apply preprocessFlowLine_total.
  - apply preprocessFlowchart_total.
Qed.

Lemma C9_malformed_line_witness :
  (length (splitCSV (trim (js "    Gebäude ID int PK"))) < 2)%nat
  ∧ preprocessERAttribute (js "    Gebäude ID int PK") pass_start
    = Ok (js "    Gebäude ID int PK", pass_start).
Proof.
  destruct C9_malformed_line_passthrough as (Hpass & _).
  split; [vm_compute; lia|]. apply Hpass. vm_compute; lia.
Defined.

(** ** The direction of an ER diagram *)

Section Direction.

Lemma eq_ci_take_head (n : nat) c r k kw :
  eq_ci (take (S n) (c :: r)) (k :: kw) = true → lower_unit c = lower_unit k.
Proof. unfold eq_ci. rewrite bool_decide_eq_true. simpl. by intros [= ? _]. Qed.

(** A line that matches one of the two direction patterns is neither blank
    nor a comment, and matches only that one. *)
Lemma erDeclMatch_not_blank t g :
  erDeclMatch t = Some g →
  bool_decide (t = []) || startsWith t (js "%%") = false.
Proof.
  unfold erDeclMatch. destruct (eq_ci (take 9 t) (js "erDiagram")) eqn:He; [|done].
  intros _. destruct t as [|c r]; [done|].
  apply eq_ci_take_head in He. change (js "%%") with [37; 37].
  apply orb_false_iff. split; [by apply bool_decide_eq_false|]. cbn [startsWith].
  destruct (37 =? c) eqn:Hc; [|done]. apply N.eqb_eq in Hc. by subst c.
Qed.

Lemma dirMatch_not_blank t tok :
  dirMatch t = Some tok →
  bool_decide (t = []) || startsWith t (js "%%") = false ∧ erDeclMatch t = None.
Proof.
  unfold dirMatch, erDeclMatch.
  destruct (eq_ci (take 9 t) (js "direction")) eqn:He; [|done].
  intros _. destruct t as [|c r]; [done|].
  pose proof (eq_ci_take_head _ _ _ _ _ He) as Hc. split.
  - change (js "%%") with [37; 37].
    apply orb_false_iff. split; [by apply bool_decide_eq_false|]. cbn [startsWith].
    destruct (37 =? c) eqn:Hc'; [|done]. apply N.eqb_eq in Hc'. by subst c.
  - destruct (eq_ci (take 9 (c :: r)) (js "erDiagram")) eqn:He'; [|done].
    apply eq_ci_take_head in He'. vm_compute in Hc, He'. congruence.
Qed.

Lemma blank_no_direction line :
  bool_decide (trim line = []) || startsWith (trim line) (js "%%") = true →
  line_direction line = None.
Proof.
  intros Hb. unfold line_direction.
  destruct (erDeclMatch (trim line)) as [g|] eqn:Hd.
  { apply erDeclMatch_not_blank in Hd. congruence. }
  destruct (dirMatch (trim line)) as [t|] eqn:Hm; [|done].
  apply dirMatch_not_blank in Hm as [? _]. congruence.
Qed.

(** One line: the direction afterwards. *)
Lemma preprocessER_line_direction line s s' :
  preprocessER_line line s = Ok s' →
  er_direction s' = from_option Some (er_direction s) (line_direction line).
Proof.
  unfold preprocessER_line.
  destruct (bool_decide (trim line = []) || startsWith (trim line) (js "%%")) eqn:Hb.
  { intros [= <-]. by rewrite blank_no_direction. }
  unfold line_direction.
  destruct (erDeclMatch (trim line)) as [[[|c t]|]|]; try (by intros [= <-]).
  destruct (dirMatch (trim line)) as [t|]; [by intros [= <-]|]. simpl.
  repeat case_match; simpl; try done; intros ?; simplify_eq; try done.
  all: repeat match goal with
       | H : mbind _ _ = Ok _ |- _ => unfold mbind, result_bind in H
       | H : match ?x with _ => _ end = Ok _ |- _ => destruct x eqn:?; simplify_eq
       end; done.
Qed.

Lemma preprocessER_loop_app a b s :
  preprocessER_loop (a ++ b) s = s' ← preprocessER_loop a s; preprocessER_loop b s'.
Proof.
  revert s. induction a as [|l a IH]; intros s; simpl; [done|].
  destruct (preprocessER_line l s); simpl; auto.
Qed.

Lemma preprocessER_loop_no_direction lines s s' :
  Forall (λ l, line_direction l = None) lines →
  preprocessER_loop lines s = Ok s' → er_direction s' = er_direction s.
Proof.
  intros Hall. revert s. induction Hall as [|l lines Hl _ IH]; intros s; simpl.
  - by intros [= <-].
  - destruct (preprocessER_line l s) as [s1| |] eqn:H1; simpl; try done.
    intros H2. rewrite (IH _ H2), (preprocessER_line_direction _ _ _ H1), Hl. done.
Qed.

(** The direction has no influence on anything else. *)
Lemma preprocessER_line_core line r i d1 d2 p :
  result_map er_core (preprocessER_line line (mkER r i d1 p))
  = result_map er_core (preprocessER_line line (mkER r i d2 p)).
Proof.
  unfold preprocessER_line. simpl.
  repeat (case_match; simpl; try done);
    destruct (preprocessERAttribute _ _) as [[? ?]| |] || 
    destruct (getUniqueId _ _ _) as [[? ?]| |] ||
    destruct (preprocessERRelationship _ _) as [[? ?]| |]; done.
Qed.

Lemma preprocessER_loop_core lines s1 s2 :
  er_core s1 = er_core s2 →
  result_map er_core (preprocessER_loop lines s1)
  = result_map er_core (preprocessER_loop lines s2).
Proof.
  revert s1 s2. induction lines as [|l lines IH]; intros s1 s2 Hc; simpl.
  - by f_equal.
  - destruct s1 as [r1 i1 d1 p1], s2 as [r2 i2 d2 p2]. injection Hc as -> -> ->.
    pose proof (preprocessER_line_core l r2 i2 d1 d2 p2) as Hl.
    destruct (preprocessER_line l (mkER r2 i2 d1 p2)) as [a| |],
             (preprocessER_line l (mkER r2 i2 d2 p2)) as [b| |];
      cbn [result_map mbind result_bind] in *; try done.
    apply IH. congruence.
Qed.

End Direction.

Section DirectionOfSource.

Lemma ws_then_direction_token rest tok :
  ws_then_direction rest = Some tok → is_direction_token tok = true.
Proof.
  unfold ws_then_direction.
  destruct (negb _ && is_direction_token _) eqn:Hc; [|done].
  intros [= <-]. by apply andb_true_iff in Hc as [_ ?].
Qed.

Lemma line_direction_decl l t :
  erDeclMatch (trim l) = Some (Some t) → line_direction l = Some (toUpperCase t).
Proof.
  intros Hd. unfold line_direction. rewrite Hd.
  destruct t as [|c t]; [|done].
  unfold erDeclMatch in Hd. destruct (eq_ci _ _); [|done].
  destruct (drop 9 (trim l)) as [|x r]; [done|].
  destruct (ws_then_direction (x :: r)) as [tok|] eqn:Hw; [|done].
  injection Hd as ->. apply ws_then_direction_token in Hw. by vm_compute in Hw.
Qed.

Lemma line_direction_stmt l t :
  dirMatch (trim l) = Some t → line_direction l = Some (toUpperCase t).
Proof.
  intros Hd. unfold line_direction.
  destruct (dirMatch_not_blank _ _ Hd) as [_ ->]. by rewrite Hd.
Qed.

(** The direction returned is that of the last line that carries one. *)
Lemma preprocessER_last_direction code pre l post t :
  split_on 10 code = pre ++ l :: post →
  line_direction l = Some t →
  Forall (λ l', line_direction l' = None) post →
  ∃ out, preprocessER code = Ok out ∧ out_direction out = Some t.
Proof.
  intros Hsplit Hl Hpost.
  unfold preprocessER. rewrite Hsplit.
  destruct (preprocessER_loop_total (pre ++ l :: post) er_start) as [s Hs].
  fold er_start. rewrite Hs. simpl. eexists. split; [done|]. simpl.
  rewrite preprocessER_loop_app in Hs.
  destruct (preprocessER_loop pre er_start) as [s1| |]; simpl in Hs; try done.
  destruct (preprocessER_line l s1) as [s2| |] eqn:H2; simpl in Hs; try done.
  rewrite (preprocessER_loop_no_direction _ _ _ Hpost Hs).
  rewrite (preprocessER_line_direction _ _ _ H2), Hl. done.
Qed.

End DirectionOfSource.

(** C4, as the code has it.  The direction that [preprocessER] returns is
    the token, in upper case, of the last line of the source that carries
    one.  A declaration with the shorthand hands its token to the caller
    when no line after it carries a direction.  A standalone statement
    hands its token to the caller when no line after it carries a
    direction, whatever precedes it: placed after a declaration with the
    shorthand, the statement wins.  Every declaration line is emitted as
    the bare [erDiagram].  A standalone statement is left out of the
    output: the text and the name mapping are those of the source without
    that line. *)
Theorem C4_direction_of_last_direction_line :
  (∀ code pre decl post t,
     split_on 10 code = pre ++ decl :: post →
     erDeclMatch (trim decl) = Some (Some t) →
     Forall (λ l', line_direction l' = None) post →
     ∃ out, preprocessER code = Ok out ∧ out_direction out = Some (toUpperCase t))
  ∧ (∀ code pre stmt post t,
       split_on 10 code = pre ++ stmt :: post →
       dirMatch (trim stmt) = Some t →
       Forall (λ l', line_direction l' = None) post →
       ∃ out, preprocessER code = Ok out ∧ out_direction out = Some (toUpperCase t))
  ∧ (∀ l g s,
       erDeclMatch (trim l) = Some g →
       ∃ d, preprocessER_line l s
            = Ok (mkER (er_result s ++ [js "erDiagram"]) (er_inEntity s) d (er_pass s)))
  ∧ (∀ code pre l post t,
       split_on 10 code = pre ++ l :: post →
       dirMatch (trim l) = Some t →
       ∃ out s', preprocessER code = Ok out
         ∧ preprocessER_loop (pre ++ post) er_start = Ok s'
         ∧ out_code out = join [10] (er_result s')
         ∧ out_pass out = er_pass s').
Proof.
  split_and!.
  - intros code pre decl post t Hsplit Hd Hpost.
    eapply preprocessER_last_direction; [done|by apply line_direction_decl|done].
  - intros code pre stmt post t Hsplit Hd Hpost.
    eapply preprocessER_last_direction; [done|by apply line_direction_stmt|done].
  - intros l g s Hd. unfold preprocessER_line.
    rewrite (erDeclMatch_not_blank _ _ Hd), Hd. by eexists.
  - intros code pre l post t Hsplit Hd.
    unfold preprocessER. rewrite Hsplit. fold er_start.
    rewrite !preprocessER_loop_app.
    destruct (preprocessER_loop_total pre er_start) as [s1 ->]. simpl.
    assert (preprocessER_line l s1
            = Ok (mkER (er_result s1) (er_inEntity s1) (Some (toUpperCase t)) (er_pass s1)))
      as ->.
    { unfold preprocessER_line.
      destruct (dirMatch_not_blank _ _ Hd) as [-> ->]. by rewrite Hd. }
    simpl.
    pose proof (preprocessER_loop_core post
                  (mkER (er_result s1) (er_inEntity s1) (Some (toUpperCase t)) (er_pass s1))
                  s1 eq_refl) as Hcore.
    destruct (preprocessER_loop_total post
                (mkER (er_result s1) (er_inEntity s1) (Some (toUpperCase t)) (er_pass s1)))
      as [a Ha].
    destruct (preprocessER_loop_total post s1) as [b Hb].
    rewrite Ha, Hb in Hcore |- *. simpl in Hcore. injection Hcore as Hr _ Hp.
    eexists _, _. simpl. split_and!; try done. by rewrite Hr.
Qed.

(** A declaration with the shorthand [LR], an entity, and then a standalone
    statement [tb]. *)
Lemma C4_direction_witness :
  split_on 10 sample_direction_source
  = [js "erDiagram LR"; js "Kunde {"; js "  Name, string"; js "}"] ++ js "direction tb" :: []
  ∧ erDeclMatch (trim (js "erDiagram LR")) = Some (Some (js "LR"))
  ∧ dirMatch (trim (js "direction tb")) = Some (js "tb")
  ∧ Forall (λ l', line_direction l' = None) []
  ∧ ∃ out, preprocessER sample_direction_source = Ok out
      ∧ out_direction out = Some (toUpperCase (js "tb")).
Proof.
  destruct C4_direction_of_last_direction_line as (_ & Hstmt & _ & _).
  assert (split_on 10 sample_direction_source
          = [js "erDiagram LR"; js "Kunde {"; js "  Name, string"; js "}"]
            ++ js "direction tb" :: []) as Hsplit by (vm_compute; reflexivity).
  assert (dirMatch (trim (js "direction tb")) = Some (js "tb")) as Hdir
    by (vm_compute; reflexivity).
  split_and!; [exact Hsplit|vm_compute; reflexivity|exact Hdir|constructor|].
  exact (Hstmt _ _ _ _ _ Hsplit Hdir (List.Forall_nil _)).
Defined.

(** The claim as worded fails: after the shorthand [LR], a standalone
    statement [TB] is what the caller receives. *)
Lemma C4_shorthand_counterexample :
  ∃ out, preprocessER (js "erDiagram LR
direction TB") = Ok out
    ∧ out_code out = js "erDiagram"
    ∧ out_direction out = Some (js "TB")
    ∧ out_direction out ≠ Some (js "LR").
Proof. eexists. split; [vm_compute; reflexivity|]. by split_and!. Qed.

(** ** The label cache of a flowchart pass *)

Section LabelCache.

Lemma id_loop_nonempty (taken : jsstr → bool) (fuel : nat) (base id : jsstr) (n : N)
    (r : jsstr) :
  base ≠ [] → id ≠ [] → id_loop taken fuel base id n = Ok r → r ≠ [].
Proof.
  intros Hb. revert id n. induction fuel as [|f IH]; intros id n Hid; simpl;
    destruct (taken id); try done; try congruence.
  apply IH. by destruct base.
Qed.

Lemma sanitizeName_nonempty name : sanitizeName name ≠ [].
Proof. unfold sanitizeName. by destruct (sanitize_chain name). Qed.

(** The three ways in which [getFlowNodeId] returns: the own property of
    the label, the value inherited for it, or a new identifier. *)
Lemma getFlowNodeId_cases label fs id fs' :
  getFlowNodeId label fs = Ok (id, fs') →
  (nodeIdMap fs !! label = Some id ∧ id ≠ [] ∧ fs' = fs)
  ∨ (nodeIdMap fs !! label = None ∧ label ∈ inherited_keys
     ∧ id = inherited_text label ∧ fs' = fs)
  ∨ ((nodeIdMap fs !! label = Some [] ∨ (nodeIdMap fs !! label = None ∧ label ∉ inherited_keys))
     ∧ id_loop (λ c, bool_decide (c ∈ usedIds (fl_pass fs))) (size (usedIds (fl_pass fs)))
         (sanitizeName label) (sanitizeName label) 2 = Ok id
     ∧ fs' = mkFlow (record_id id label (fl_pass fs)) (<[label := id]> (nodeIdMap fs))).
Proof.
  assert (inherited_text label ≠ []) as Htext
    by (unfold inherited_text; by repeat case_bool_decide).
  unfold getFlowNodeId, nodeIdMap_get.
  destruct (nodeIdMap fs !! label) as [[|x r]|] eqn:Hc; [|by intros [= <- <-]; left|].
  - rewrite flowId_loop_id_loop.
    destruct (id_loop _ _ _ _ _) as [r| |] eqn:Hl; simpl; try done.
    intros [= <- <-]. right. right. split_and!; [by left|done..].
  - case_bool_decide as Hin.
    + destruct (inherited_text label) as [|x r] eqn:Ht; [done|].
      intros [= <- <-]. right. left. done.
    + rewrite flowId_loop_id_loop.
      destruct (id_loop _ _ _ _ _) as [r| |] eqn:Hl; simpl; try done.
      intros [= <- <-]. right. right. split_and!; [by right|done..].
Qed.

Lemma getFlowNodeId_nonempty label fs id fs' :
  getFlowNodeId label fs = Ok (id, fs') → id ≠ [].
Proof.
  intros [(_ & ? & _)|[(_ & _ & -> & _)|(_ & Hl & _)]]%getFlowNodeId_cases; [done| |].
  - unfold inherited_text. by repeat case_bool_decide.
  - eapply id_loop_nonempty; [..|exact Hl]; apply sanitizeName_nonempty.
Qed.

End LabelCache.

(** C8, at the input that decides it.  [nodeIdMap] is an object literal,
    and the first line of [getFlowNodeId] reads [nodeIdMap[label]]: for the
    label [constructor] this is the function [Object], inherited from
    [Object.prototype], so the call returns it and allocates nothing.  The
    two tokens with the label [constructor] are written with the text of
    that function where the identifier belongs, and the pass records no
    identifier for the label: the name mapping and [usedIds] hold the
    entry of [B] alone. *)
Theorem C8_inherited_label_gets_no_identifier :
  ∃ out st,
    preprocessFlowchart (js "flowchart TD
  `constructor` --> `B`
  `B` --> {`constructor`}") = Ok (out, st)
    ∧ out = js "flowchart TD
  function Object() { [native code] }[`constructor`] --> B[`B`]
  B[`B`] --> function Object() { [native code] }{`constructor`}"
    ∧ nameMapping st = [(js "B", js "B")]
    ∧ usedIds st = {[js "B"]}
    ∧ (∀ id, (id, js "constructor") ∉ nameMapping st)
    ∧ ¬ Forall (λ c, is_word c = true) (js "function Object() { [native code] }").
Proof.
  eexists _, _. split; [vm_compute; reflexivity|].
  cbn [nameMapping usedIds]. split_and!.
  - vm_compute. reflexivity.
  - reflexivity.
  - vm_compute. reflexivity.
  - intros id Hin. apply elem_of_cons in Hin as [Hin|Hin]; [|by apply elem_of_nil in Hin].
    injection Hin as _ Hin. by vm_compute in Hin.
  - rewrite Forall_forall. intros H.
    assert (is_word 32 = true) as Hsp by (apply H; compute_done).
    by vm_compute in Hsp.
Qed.

(** The same label twice on one line and once more on the next, in three
    shapes. *)
Example flow_label_reuse_example :
  ∃ st, preprocessFlowchart (js "flowchart TD
  `Antrag einreichen` --> {`Antrag einreichen`}
  (`Antrag einreichen`) --> `Ende`")
  = Ok (js "flowchart TD
  Antrag_einreichen[`Antrag einreichen`] --> Antrag_einreichen{`Antrag einreichen`}
  Antrag_einreichen(`Antrag einreichen`) --> Ende[`Ende`]", st).
Proof. eexists. vm_compute. reflexivity. Qed.

(** ** The restorer *)

Section Restorer.

Lemma insert_by_perm {A} (le : A → A → bool) x l : insert_by le x l ≡ₚ x :: l.
Proof.
  induction l as [|y r IH]; simpl; [done|].
  destruct (le x y); [done|]. rewrite IH. apply Permutation_swap.
Qed.

Lemma stable_sort_perm {A} (le : A → A → bool) l : stable_sort le l ≡ₚ l.
Proof.
  unfold stable_sort. induction l as [|x l IH]; simpl; [done|].
  rewrite insert_by_perm. by f_equiv.
Qed.

Lemma sorted_entries_perm nm : sorted_entries nm ≡ₚ nm.
Proof.
  unfold sorted_entries, Object_entries.
  rewrite !stable_sort_perm. apply filter_app_complement.
Qed.

Lemma insert_by_length_sorted x l :
  StronglySorted longer_first l →
  StronglySorted longer_first
    (insert_by (λ a b : jsstr * jsstr, (length b.1 <=? length a.1)%nat) x l).
Proof.
  induction 1 as [|y r Hr IH Hy]; simpl; [by repeat constructor|].
  destruct (length y.1 <=? length x.1)%nat eqn:Hxy.
  - apply Nat.leb_le in Hxy. constructor; [by constructor|].
    constructor; [done|]. eapply Forall_impl; [exact Hy|].
    unfold longer_first. intros z Hz. lia.
  - apply Nat.leb_gt in Hxy. constructor; [done|].
    apply Forall_forall. intros z Hz.
    apply (elem_of_Permutation_proper z _ _ (insert_by_perm _ x r)) in Hz.
    apply elem_of_cons in Hz as [->|Hz]; [unfold longer_first; lia|].
    by eapply Forall_forall in Hy.
Qed.

Lemma sorted_entries_sorted nm : StronglySorted longer_first (sorted_entries nm).
Proof.
  unfold sorted_entries, stable_sort.
  induction (Object_entries nm) as [|x l IH]; simpl; [constructor|].
  by apply insert_by_length_sorted.
Qed.

Lemma startsWith_app p b : startsWith (p ++ b) p = true.
Proof.
  induction p as [|a p IH]; [done|]. cbn [app startsWith]. by rewrite N.eqb_refl.
Qed.

Lemma startsWith_refl s : startsWith s s = true.
Proof. rewrite <- (app_nil_r s) at 1. apply startsWith_app. Qed.

Lemma startsWith_inv s p : startsWith s p = true → ∃ b, s = p ++ b.
Proof.
  revert s. induction p as [|a p IH]; intros s; [by exists s|].
  destruct s as [|c s]; [done|]. cbn [startsWith].
  intros [->%N.eqb_eq [b ->]%IH]%andb_true_iff. by exists b.
Qed.

Lemma indexOf_inv p s i : indexOf p s = Some i → ∃ a b, s = a ++ p ++ b ∧ length a = i.
Proof.
  revert i. induction s as [|c s IH]; intros i; simpl.
  - destruct (startsWith [] p) eqn:Hs; [|done].
    intros [= <-]. apply startsWith_inv in Hs as [b ->]. by exists [], b.
  - destruct (startsWith (c :: s) p) eqn:Hs.
    + intros [= <-]. apply startsWith_inv in Hs as [b ->]. by exists [], b.
    + destruct (indexOf p s) as [j|] eqn:Hj; simpl; [|done].
      intros [= <-]. destruct (IH j eq_refl) as (a & b & -> & <-).
      by exists (c :: a), b.
Qed.

(** An identifier no shorter than the text occurs in it only by being it. *)
Lemma includes_long text p :
  (length text ≤ length p)%nat → includes text p = true → p = text.
Proof.
  intros Hlen [i Hi]%bool_decide_eq_true.
  apply indexOf_inv in Hi as (a & b & -> & _).
  rewrite !length_app in Hlen.
  destruct a; [|simpl in Hlen; lia]. destruct b; [|simpl in Hlen; lia].
  by rewrite app_nil_r.
Qed.

Lemma includes_refl s : includes s s = true.
Proof.
  apply bool_decide_eq_true. exists 0%nat.
  destruct s as [|c s]; [done|]. cbn [indexOf].
  by rewrite startsWith_refl.
Qed.

Lemma restore_text_skip entries text :
  Forall (λ e, includes text e.1 = false) entries → restore_text entries text = text.
Proof.
  unfold restore_text. induction 1 as [|e r He _ IH]; simpl; [done|].
  unfold restore_step at 2. by rewrite He, andb_false_r.
Qed.

Lemma replaceAll_from_skip search replacement whole (pos skip : nat) s :
  search ≠ [] → (length s ≤ skip)%nat →
  replaceAll_from search replacement whole pos skip s = [].
Proof.
  intros Hne. revert pos skip. induction s as [|c s IH]; intros pos skip Hlen; simpl.
  - by rewrite bool_decide_eq_false_2.
  - destruct skip as [|k]; [simpl in Hlen; lia|]. apply IH. simpl in Hlen. lia.
Qed.

(** Replacing a text that is exactly the identifier yields the expansion
    of the display name. *)
Lemma replaceAll_whole id display :
  id ≠ [] → replaceAll id id display = getSubstitution id [] [] display.
Proof.
  intros Hne. unfold replaceAll. destruct id as [|c r]; [done|].
  cbn [replaceAll_from]. rewrite startsWith_refl.
  cbn [length]. rewrite replaceAll_from_skip by done.
  rewrite app_nil_r. simpl. by rewrite drop_all.
Qed.

(** A display name without a dollar sign is inserted as it is. *)
Lemma getSubstitution_plain matched before after template :
  36 ∉ template → getSubstitution matched before after template = template.
Proof.
  induction template as [|c r IH]; [done|]. intros Hc. simpl.
  destruct (c =? 36) eqn:Heq.
  - apply N.eqb_eq in Heq. subst c. set_solver.
  - f_equal. apply IH. set_solver.
Qed.

(** The restorer, applied to a text that is one identifier of the mapping:
    the entries before that identifier's own leave the text alone, its own
    entry replaces the whole text, and only entries with other identifiers,
    none of them longer, act on the replacement. *)
Lemma restore_own_entry nm id display :
  NoDup nm.*1 → (id, display) ∈ nm → id ≠ [] →
  ∃ pre post,
    sorted_entries nm = pre ++ (id, display) :: post
    ∧ restore_text pre id = id
    ∧ postProcess_text nm id = restore_text post (getSubstitution id [] [] display)
    ∧ (∀ e, e ∈ pre → (length id ≤ length e.1)%nat ∧ e.1 ≠ id)
    ∧ (∀ e, e ∈ post → (length e.1 ≤ length id)%nat ∧ e.1 ≠ id ∧ e ∈ nm).
Proof.
  intros Hnd Hin Hne.
  pose proof (sorted_entries_perm nm) as Hperm.
  pose proof (sorted_entries_sorted nm) as Hsorted.
  rewrite <- Hperm in Hin. apply list_elem_of_split in Hin as (pre & post & Heq).
  rewrite Heq in Hperm, Hsorted.
  assert (NoDup ((pre ++ (id, display) :: post).*1)) as Hnd' by (by rewrite Hperm).
  rewrite fmap_app, fmap_cons in Hnd'. simpl in Hnd'.
  apply NoDup_app in Hnd' as (_ & Hpre & [Hpost _]%NoDup_cons).
  assert (∀ e, e ∈ pre → (length id ≤ length e.1)%nat ∧ e.1 ≠ id) as Hpre'.
  { intros e He. split.
    - apply (StronglySorted_app_1_elem_of _ _ _ e (id, display) Hsorted He). set_solver.
    - intros Heid. apply (Hpre e.1); [by apply list_elem_of_fmap_2|].
      rewrite Heid. set_solver. }
  assert (∀ e, e ∈ post → (length e.1 ≤ length id)%nat ∧ e.1 ≠ id ∧ e ∈ nm) as Hpost'.
  { intros e He. split_and!.
    - apply StronglySorted_app_1_r, StronglySorted_cons in Hsorted as [Hall _].
      by eapply Forall_forall in Hall.
    - intros Heid. apply Hpost. rewrite <- Heid. by apply list_elem_of_fmap_2.
    - rewrite <- Hperm. set_solver. }
  assert (restore_text pre id = id) as Hskip.
  { apply restore_text_skip, Forall_forall. intros e He.
    destruct (Hpre' e He) as [Hlen Hneq].
    destruct (includes id e.1) eqn:Hinc; [|done].
    by apply includes_long in Hinc. }
  exists pre, post. split_and!; try done.
  unfold postProcess_text. rewrite Heq. unfold restore_text in *.
  rewrite foldl_app, Hskip. simpl. f_equal.
  unfold restore_step. simpl. rewrite includes_refl.
  rewrite bool_decide_eq_false_2 by done. simpl. by apply replaceAll_whole.
Qed.

End Restorer.


(** ** Scenarios of the specification *)

(** A quoted field keeps its commas and its quotes; an unmatched quote
    keeps the rest of the line in one field. *)
Example splitCSV_quoted_field :
  splitCSV (js "Name, string, , `a, b, c`")
  = [js "Name"; js "string"; []; js "`a, b, c`"]
  ∧ splitCSV (js "Name, `a, b") = [js "Name"; js "`a, b"].
Proof. split; vm_compute; reflexivity. Qed.

(** An entity declared in a block and named again in a relationship line
    has one identifier. *)
Example stable_relationship_identifier :
  ∃ out, preprocessER (js "erDiagram
  Gebäude Adresse {
    Straße, string
  }
  Raum ||--o{ Gebäude Adresse : liegt in") = Ok out
    ∧ out_code out = js "erDiagram
  Gebaeude_Adresse {
    Strasse_ string
  }
  Raum ||--o{ Gebaeude_Adresse : liegt in"
    ∧ nameMapping (out_pass out)
      = [(js "Gebaeude_Adresse", js "Gebäude Adresse"); (js "Strasse_", js "Straße");
         (js "Raum", js "Raum")].
Proof. eexists. split_and!; vm_compute; reflexivity. Qed.

(** From source to restored text. *)
Example end_to_end_scenario :
  ∃ out, preprocessER (js "erDiagram
A {
  Straße, string
}") = Ok out
    ∧ out_code out = js "erDiagram
A {
  Strasse_ string
}"
    ∧ postProcess_text (nameMapping (out_pass out)) (js "Strasse_") = js "Straße"
    ∧ postProcess_text (nameMapping (out_pass out)) (js "A") = js "A".
Proof.
  eexists. split; [vm_compute; reflexivity|].
  split_and!; vm_compute; reflexivity.
Qed.

(** An entity and its attribute of the same name have two identifiers, and
    the shorter one occurs in the name: the restorer applies both entries
    to the attribute's text. *)
Example same_name_restored_twice :
  ∃ out, preprocessER (js "erDiagram
Preis € {
  Preis €, float
}") = Ok out
    ∧ nameMapping (out_pass out)
      = [(js "Preis", js "Preis €"); (js "Preis____", js "Preis €")]
    ∧ postProcess_text (nameMapping (out_pass out)) (js "Preis____") = js "Preis € €".
Proof.
  eexists. split; [vm_compute; reflexivity|].
  split_and!; vm_compute; reflexivity.
Qed.

(** ** Compiling and restoring *)

Section RoundTrip.

Lemma pass_steps_trans st1 st2 st3 :
  pass_steps st1 st2 → pass_steps st2 st3 → pass_steps st1 st3.
Proof. induction 1; [done|]. intros. eapply pass_steps_record; eauto. Qed.

Lemma nm_set_keys k v nm :
  (nm_set k v nm).*1 = if bool_decide (k ∈ nm.*1) then nm.*1 else nm.*1 ++ [k].
Proof.
  induction nm as [|[k' v'] r IH]; [done|]. cbn [nm_set].
  destruct (decide (k' = k)) as [->|Hne]; rewrite !fmap_cons; cbn [fst].
  - rewrite bool_decide_eq_true_2 by set_solver. done.
  - rewrite IH. destruct (bool_decide (k ∈ r.*1)) eqn:Hk.
    + apply bool_decide_eq_true in Hk. rewrite bool_decide_eq_true_2 by set_solver. done.
    + apply bool_decide_eq_false in Hk. rewrite bool_decide_eq_false_2 by set_solver. done.
Qed.

Lemma nm_set_elem k v nm e : e ∈ nm_set k v nm → e ∈ nm ∨ e = (k, v).
Proof.
  induction nm as [|[k' v'] r IH]; simpl; [set_solver|].
  destruct (decide (k' = k)); set_solver.
Qed.

Lemma nm_set_ok k v nm : k ≠ [] → nm_ok nm → nm_ok (nm_set k v nm).
Proof.
  intros Hk [Hnd Hne]. split.
  - rewrite nm_set_keys. case_bool_decide; [done|].
    apply NoDup_app. split_and!; [done|set_solver|apply NoDup_singleton].
  - intros e [He| ->]%nm_set_elem; [by apply Hne|done].
Qed.

Lemma pass_steps_ok st st' :
  pass_steps st st' → nm_ok (nameMapping st) → nm_ok (nameMapping st').
Proof. induction 1; [done|]. intros. apply IHpass_steps. by apply nm_set_ok. Qed.

Lemma getUniqueId_steps d ml st id st' :
  getUniqueId d ml st = Ok (id, st') → pass_steps st st'.
Proof.
  intros (-> & _ & base & Hb & Hl)%getUniqueId_inv.
  eapply pass_steps_record; [|apply pass_steps_refl].
  eapply id_loop_nonempty; [..|exact Hl].
  all: unfold padded_base, js_repeat in Hb;
    pose proof (sanitizeName_nonempty d);
    repeat case_match; simpl in Hb; simplify_eq; by destruct (sanitizeName d).
Qed.

Lemma preprocessERAttribute_steps line st out st' :
  preprocessERAttribute line st = Ok (out, st') → pass_steps st st'.
Proof.
  destruct (splitCSV (trim line)) as [|name [|type more]] eqn:Hp.
  - by apply splitCSV_loop_nonempty in Hp.
  - unfold preprocessERAttribute. rewrite Hp. simpl. intros [= _ <-]. constructor.
  - destruct (preprocessERAttribute_fields line st name type more Hp) as (id & Hid & ->).
    intros [= _ <-]. by eapply getUniqueId_steps.
Qed.

Lemma preprocessERRelationship_steps line st out st' :
  preprocessERRelationship line st = Ok (out, st') → pass_steps st st'.
Proof.
  unfold preprocessERRelationship.
  destruct (relOp_match (trim line)) as [opStart|]; [|intros [= _ <-]; constructor].
  destruct (match indexOf1 58 _ with Some _ => _ | None => _ end) as [rightEntity label].
  destruct (getUniqueId _ None st) as [[leftId st1]| |] eqn:H1; simpl; try done.
  destruct (getUniqueId _ None st1) as [[rightId st2]| |] eqn:H2; simpl; try done.
  intros [= _ <-]. eapply pass_steps_trans; by eapply getUniqueId_steps.
Qed.

Lemma preprocessER_line_steps line s s' :
  preprocessER_line line s = Ok s' → pass_steps (er_pass s) (er_pass s').
Proof.
  unfold preprocessER_line.
  repeat (case_match; try (intros [= <-]; constructor)).
  - destruct (preprocessERAttribute line (er_pass s)) as [[out st']| |] eqn:Ha;
      simpl; try done.
    intros [= <-]. by eapply preprocessERAttribute_steps.
  - destruct (getUniqueId _ None (er_pass s)) as [[id st']| |] eqn:Hg; simpl; try done.
    intros [= <-]. by eapply getUniqueId_steps.
  - destruct (preprocessERRelationship line (er_pass s)) as [[out st']| |] eqn:Hr;
      simpl; try done.
    intros [= <-]. by eapply preprocessERRelationship_steps.
Qed.

Lemma preprocessER_loop_steps lines s s' :
  preprocessER_loop lines s = Ok s' → pass_steps (er_pass s) (er_pass s').
Proof.
  revert s. induction lines as [|l lines IH]; intros s; simpl.
  - intros [= <-]. constructor.
  - destruct (preprocessER_line l s) as [s1| |] eqn:H1; simpl; try done.
    intros H2. eapply pass_steps_trans; [by eapply preprocessER_line_steps|by apply IH].
Qed.

Lemma getFlowNodeId_steps label fs id fs' :
  getFlowNodeId label fs = Ok (id, fs') → pass_steps (fl_pass fs) (fl_pass fs').
Proof.
  intros Hg. pose proof (getFlowNodeId_nonempty _ _ _ _ Hg) as Hne.
  apply getFlowNodeId_cases in Hg as [(_ & _ & ->)|[(_ & _ & _ & ->)|(_ & _ & ->)]];
    [constructor..|].
  simpl. by eapply pass_steps_record; [|apply pass_steps_refl].
Qed.

Lemma render_tokens_steps toks fs parts fs' :
  render_tokens getFlowNodeId toks fs = Ok (parts, fs') →
  pass_steps (fl_pass fs) (fl_pass fs').
Proof.
  revert fs parts. induction toks as [|tok rest IH]; intros fs parts; simpl.
  - intros [= _ <-]. constructor.
  - destruct (render_token getFlowNodeId tok fs) as [[p fs1]| |] eqn:Ht; simpl; try done.
    destruct (render_tokens getFlowNodeId rest fs1) as [[ps fs2]| |] eqn:Hr;
      simpl; try done.
    intros [= _ <-]. eapply pass_steps_trans; [|by eapply IH].
    destruct tok as [raw|raw|label sh]; simpl in Ht;
      try (injection Ht as _ <-; constructor).
    destruct (getFlowNodeId label fs) as [[id fs0]| |] eqn:Hg; simpl in Ht; try done.
    injection Ht as _ <-. by eapply getFlowNodeId_steps.
Qed.

Lemma preprocessFlowchart_loop_steps lines res fs res' fs' :
  preprocessFlowchart_loop lines res fs = Ok (res', fs') →
  pass_steps (fl_pass fs) (fl_pass fs').
Proof.
  revert res fs. induction lines as [|line rest IH]; intros res fs; simpl.
  - intros [= _ <-]. constructor.
  - destruct (flow_passthrough (trim line)); [apply IH|].
    destruct (preprocessFlowLine line getFlowNodeId fs) as [[out fs1]| |] eqn:Hline;
      simpl; try done.
    intros Hl. eapply pass_steps_trans; [|by eapply IH].
    unfold preprocessFlowLine in Hline.
    destruct (scan_loop _ _ _ _) as [toks| |]; simpl in Hline; try done.
    destruct (render_tokens getFlowNodeId toks fs) as [[parts fs0]| |] eqn:Hr;
      simpl in Hline; try done.
    injection Hline as _ <-. by eapply render_tokens_steps.
Qed.

Lemma pass_start_ok : nm_ok (nameMapping pass_start).
Proof. split; [constructor|]. simpl. set_solver. Qed.

(** The restorer recovers a display name from its identifier when the
    name has no dollar sign and contains no other identifier. *)
Lemma restore_plain_name nm id display :
  nm_ok nm → (id, display) ∈ nm → 36 ∉ display →
  (∀ e, e ∈ nm → e.1 ≠ id → includes display e.1 = false) →
  postProcess_text nm id = display.
Proof.
  intros [Hnd Hne] Hin Hplain Hfree.
  destruct (restore_own_entry nm id display Hnd Hin (Hne _ Hin))
    as (pre & post & _ & _ & -> & _ & Hpost).
  rewrite getSubstitution_plain by done.
  apply restore_text_skip, Forall_forall. intros e He.
  destruct (Hpost e He) as (_ & ? & ?). by apply Hfree.
Qed.

(** What does hold of compiling and restoring, for both preprocessors:
    display names without a dollar sign are recovered in the text leaves. *)
Lemma roundtrip_without_dollar :
  (∀ code out, preprocessER code = Ok out →
     names_free_of_other_ids (nameMapping (out_pass out)) →
     ∀ id display, (id, display) ∈ nameMapping (out_pass out) → 36 ∉ display →
       postProcess_text (nameMapping (out_pass out)) id = display)
  ∧ (∀ code out st, preprocessFlowchart code = Ok (out, st) →
       names_free_of_other_ids (nameMapping st) →
       ∀ id display, (id, display) ∈ nameMapping st → 36 ∉ display →
         postProcess_text (nameMapping st) id = display).
Proof.
  split.
  - intros code out Hrun Hfree id display Hin Hplain.
    unfold preprocessER in Hrun.
    destruct (preprocessER_loop _ _) as [s| |] eqn:Hl; simpl in Hrun; try done.
    injection Hrun as <-. simpl in *.
    apply preprocessER_loop_steps, pass_steps_ok in Hl; [|apply pass_start_ok].
    apply restore_plain_name; try done.
    intros e He Hne. by apply (Hfree (id, display) e).
  - intros code out st Hrun Hfree id display Hin Hplain.
    unfold preprocessFlowchart in Hrun.
    destruct (preprocessFlowchart_loop _ _ _) as [[res fs]| |] eqn:Hl;
      simpl in Hrun; try done.
    injection Hrun as _ <-.
    apply preprocessFlowchart_loop_steps, pass_steps_ok in Hl; [|apply pass_start_ok].
    apply restore_plain_name; try done.
    intros e He Hne. by apply (Hfree (id, display) e).
Qed.

End RoundTrip.

(** C1, at the input that decides it.  The source declares the attribute
    [Saldo US$$]; the pass maps the identifier [Saldo_US____] to it, and no
    display name of the pass contains another identifier.  The restorer
    turns a text holding that identifier into [Saldo US$], one dollar sign
    short of the display name, because [replaceAll] reads the two dollar
    signs of its replacement string as the pattern for one.  The label
    [Preis in $$] of a flowchart node fares the same. *)
Theorem C1_dollar_sign_not_restored :
  (∃ out, preprocessER sample_dollar_source = Ok out
     ∧ nameMapping (out_pass out)
       = [(js "Konto", js "Konto"); (js "Saldo_US____", js "Saldo US$$")]
     ∧ names_free_of_other_ids (nameMapping (out_pass out))
     ∧ postProcess_text (nameMapping (out_pass out)) (js "Saldo_US____") = js "Saldo US$"
     ∧ js "Saldo US$" ≠ js "Saldo US$$")
  ∧ (∃ out st, preprocessFlowchart (js "flowchart TD
  `Preis in $$` --> `Ende`") = Ok (out, st)
       ∧ nameMapping st = [(js "Preis_in", js "Preis in $$"); (js "Ende", js "Ende")]
       ∧ names_free_of_other_ids (nameMapping st)
       ∧ postProcess_text (nameMapping st) (js "Preis_in") = js "Preis in $"
       ∧ js "Preis in $" ≠ js "Preis in $$").
Proof.
  assert (∀ a b : jsstr * jsstr,
            includes a.2 b.1 = false → includes b.2 a.1 = false →
            names_free_of_other_ids [a; b]) as Hfree.
  { intros a b Hab Hba e e' He He' Hne.
    apply elem_of_cons in He as [->|He]; [|apply elem_of_cons in He as [->|He]];
      [..|by apply elem_of_nil in He];
      (apply elem_of_cons in He' as [->|He']; [|apply elem_of_cons in He' as [->|He']];
       [..|by apply elem_of_nil in He']); done. }
  split.
  - eexists. split; [vm_compute; reflexivity|]. simpl.
    split_and!; [done|by apply Hfree; vm_compute|by vm_compute|done].
  - eexists _, _. split; [vm_compute; reflexivity|]. simpl.
    split_and!; [done|by apply Hfree; vm_compute|by vm_compute|done].
Qed.

(** * Further properties of the source *)

Section SanitizerFixedPoints.

Lemma flat_map_singleton (f : N → jsstr) (s : jsstr) :
  Forall (λ c, f c = [c]) s → flat_map f s = s.
Proof. induction 1 as [|c r Hc _ IH]; [done|]. simpl. by rewrite Hc, IH. Qed.

Lemma word_not_special c :
  is_word c = true →
  c ≠ 228 ∧ c ≠ 196 ∧ c ≠ 246 ∧ c ≠ 214 ∧ c ≠ 252 ∧ c ≠ 220 ∧ c ≠ 223.
Proof.
  unfold is_word, is_alnum, is_lower, is_upper, is_digit. intros H.
  split_and!; intros ->; done.
Qed.

Lemma transliterate_word s :
  Forall (λ c, is_word c = true) s →
  replace_eszett (replace_u_umlaut (replace_o_umlaut (replace_a_umlaut s))) = s.
Proof.
  intros Hs.
  assert (replace_a_umlaut s = s) as ->.
  { apply flat_map_singleton. eapply Forall_impl; [exact Hs|]. intros c Hc. simpl in Hc.
    apply word_not_special in Hc as (? & ? & _).
    by rewrite (proj2 (N.eqb_neq c 228)), (proj2 (N.eqb_neq c 196)). }
  assert (replace_o_umlaut s = s) as ->.
  { apply flat_map_singleton. eapply Forall_impl; [exact Hs|]. intros c Hc. simpl in Hc.
    apply word_not_special in Hc as (_ & _ & ? & ? & _).
    by rewrite (proj2 (N.eqb_neq c 246)), (proj2 (N.eqb_neq c 214)). }
  assert (replace_u_umlaut s = s) as ->.
  { apply flat_map_singleton. eapply Forall_impl; [exact Hs|]. intros c Hc. simpl in Hc.
    apply word_not_special in Hc as (_ & _ & _ & _ & ? & ? & _).
    by rewrite (proj2 (N.eqb_neq c 252)), (proj2 (N.eqb_neq c 220)). }
  apply flat_map_singleton. eapply Forall_impl; [exact Hs|]. intros c Hc. simpl in Hc.
  apply word_not_special in Hc as (_ & _ & _ & _ & _ & _ & ?).
  by rewrite (proj2 (N.eqb_neq c 223)).
Qed.

Lemma replace_non_alnum_id s :
  Forall (λ c, is_word c = true) s → replace_non_alnum s = s.
Proof.
  induction 1 as [|c r Hc _ IH]; [done|]. unfold replace_non_alnum in *. simpl.
  rewrite IH. f_equal. unfold is_word in Hc.
  destruct (is_alnum c); [done|]. simpl in Hc. by apply N.eqb_eq in Hc.
Qed.

Lemma collapse_runs_id c s : no_double c s → collapse_runs c s = s.
Proof.
  induction s as [|x r IH]; [done|]. intros Hnd. simpl.
  rewrite IH by (by eapply no_double_cons_inv).
  destruct (x =? c) eqn:Hx; [|done].
  destruct r as [|y r']; [done|].
  destruct (y =? c) eqn:Hy; [|done].
  apply N.eqb_eq in Hx, Hy. subst. by destruct (Hnd 0%nat).
Qed.

Lemma strip_last_id c s : last s ≠ Some c → strip_last c s = s.
Proof.
  intros Hl. destruct (strip_last_cases c s) as [[H _]|H]; [done|].
  rewrite H, last_snoc in Hl. done.
Qed.

Lemma strip_ends_id c s :
  head s ≠ Some c → last s ≠ Some c → strip_ends c s = s.
Proof.
  intros Hh Hl. destruct s as [|x r]; [done|]. simpl.
  destruct (x =? c) eqn:Hx.
  - apply N.eqb_eq in Hx. by subst.
  - by apply strip_last_id.
Qed.

Lemma sanitize_chain_clean s :
  Forall (λ c, is_word c = true) s → head s ≠ Some underscore →
  last s ≠ Some underscore → no_double underscore s →
  sanitize_chain s = s.
Proof.
  intros Hw Hh Hl Hnd. unfold sanitize_chain.
  rewrite transliterate_word, replace_non_alnum_id, collapse_runs_id by done.
  by apply strip_ends_id.
Qed.

Lemma sanitize_chain_shape name :
  Forall (λ c, is_word c = true) (sanitize_chain name)
  ∧ head (sanitize_chain name) ≠ Some underscore
  ∧ last (sanitize_chain name) ≠ Some underscore
  ∧ no_double underscore (sanitize_chain name).
Proof.
  unfold sanitize_chain. set (s5 := replace_non_alnum _).
  destruct (strip_ends_shape underscore (collapse_runs underscore s5)
              (collapse_runs_no_double _ _)) as (Hh & Hl & Hn & HP).
  split_and!; try done.
  apply HP, collapse_runs_Forall, replace_non_alnum_word.
Qed.

Lemma sanitizeName_word name : Forall (λ c, is_word c = true) (sanitizeName name).
Proof.
  unfold sanitizeName. pose proof (sanitize_chain_shape name) as [H _].
  destruct (sanitize_chain name); [|done].
  by apply Forall_forall; intros c Hc;
    repeat (apply elem_of_cons in Hc as [->|Hc]; [done|]); apply elem_of_nil in Hc.
Qed.

End SanitizerFixedPoints.

(** X2.  A name that already is a clean identifier is its own sanitized
    name. *)
Theorem sanitizeName_clean_identifier (s : jsstr) :
  clean_identifier s → sanitizeName s = s.
Proof.
  intros (Hne & Hw & Hh & Hl & Hnd). unfold sanitizeName.
  rewrite sanitize_chain_clean by done. by destruct s.
Qed.

Lemma sanitizeName_clean_identifier_witness :
  clean_identifier (js "Order_Item2") ∧ sanitizeName (js "Order_Item2") = js "Order_Item2".
Proof.
  assert (clean_identifier (js "Order_Item2")) as H.
  { split_and!; try done.
    - by apply Forall_forall; intros c Hc;
        repeat (apply elem_of_cons in Hc as [->|Hc]; [done|]); apply elem_of_nil in Hc.
    - intros i [H1 H2]. do 12 (destruct i as [|i]; [done|]). done. }
  split; [exact H|]. exact (sanitizeName_clean_identifier _ H).
Defined.

(** X3.  Sanitizing twice is sanitizing once. *)
Theorem sanitizeName_idempotent (name : jsstr) :
  sanitizeName (sanitizeName name) = sanitizeName name.
Proof.
  unfold sanitizeName at 2 3.
  destruct (sanitize_chain_shape name) as (Hw & Hh & Hl & Hnd).
  destruct (sanitize_chain name) as [|x r] eqn:Hs; [by vm_compute|].
  unfold sanitizeName. by rewrite sanitize_chain_clean.
Qed.

Section AllocatorShape.

Lemma uint_units_digits d : Forall (λ c, is_digit c = true) (uint_units d).
Proof. induction d; simpl; by constructor. Qed.

Lemma number_toString_word n : Forall (λ c, is_word c = true) (number_toString n).
Proof.
  eapply Forall_impl; [apply uint_units_digits|]. intros c Hc. simpl in Hc.
  unfold is_word, is_alnum. by rewrite Hc, orb_true_r.
Qed.

Lemma replicate_underscore_word k : Forall (λ c, is_word c = true) (replicate k underscore).
Proof. apply Forall_replicate. done. Qed.

Lemma derived_id_word d id k : derived_id d id k → Forall (λ c, is_word c = true) id.
Proof.
  intros [->|(n & _ & ->)]; repeat apply Forall_app_2;
    auto using sanitizeName_word, replicate_underscore_word, number_toString_word.
Qed.

Lemma derived_id_nonempty d id k : derived_id d id k → id ≠ [].
Proof.
  pose proof (sanitizeName_nonempty d) as Hne.
  intros [->|(n & _ & ->)]; by destruct (sanitizeName d).
Qed.

Lemma id_loop_free (taken : jsstr → bool) (fuel : nat) (base id : jsstr) (n : N) :
  taken id = false → id_loop taken fuel base id n = Ok id.
Proof. intros H. destruct fuel; simpl; by rewrite H. Qed.

Lemma getUniqueId_shape d ml st :
  ∃ id k, getUniqueId d ml st = Ok (id, record_id id d st)
    ∧ derived_id d id k
    ∧ N.of_nat (length (sanitizeName d) + k)
      = N.max (N.of_nat (length (sanitizeName d))) (default 0 ml)
    ∧ (sanitizeName d ++ replicate k underscore ∉ usedIds st
       → id = sanitizeName d ++ replicate k underscore).
Proof.
  destruct (getUniqueId_total d ml st) as [id Hid]. 
  destruct (padded_base_shape d ml) as (k & Hb & Hk).
  exists id, k. split; [done|].
  apply getUniqueId_inv in Hid as (_ & _ & base & Hb' & Hl).
  rewrite Hb in Hb'. injection Hb' as <-.
  split_and!; [|done|].
  - apply id_loop_shape in Hl as [->|(n & Hn & ->)]; [by left|right].
    exists n. split; [done|]. by rewrite <- (assoc_L (++)).
  - intros Hfree. rewrite id_loop_free in Hl; [congruence|].
    unfold id_taken. by rewrite bool_decide_eq_false_2.
Qed.

End AllocatorShape.

(** X4.  Every identifier that [getUniqueId] returns is the sanitized name,
    padded with underscores to [minLength], and a counter from two on when
    the padded name is taken. *)
Theorem getUniqueId_identifier_shape (d : jsstr) (ml : option N) (st : PassState) :
  ∃ id k, getUniqueId d ml st = Ok (id, record_id id d st)
    ∧ derived_id d id k
    ∧ N.of_nat (length (sanitizeName d) + k)
      = N.max (N.of_nat (length (sanitizeName d))) (default 0 ml)
    ∧ (sanitizeName d ++ replicate k underscore ∉ usedIds st
       → id = sanitizeName d ++ replicate k underscore)
    ∧ default 0 ml ≤ N.of_nat (length id)
    ∧ Forall (λ c, is_word c = true) id.
Proof.
  destruct (getUniqueId_shape d ml st) as (id & k & Hid & Hd & Hk & Hfree).
  exists id, k. split_and!; try done; [|by eapply derived_id_word].
  destruct Hd as [->|(n & _ & ->)]; rewrite ?length_app, ?length_replicate; lia.
Qed.

(** X5.  Two different names with one sanitized form: the first gets the
    form, the second the form followed by 2. *)
Theorem getUniqueId_collision_suffix (d1 d2 : jsstr) (st : PassState) :
  d1 ≠ d2 → sanitizeName d1 = sanitizeName d2 →
  sanitizeName d1 ∉ usedIds st → sanitizeName d1 ++ js "2" ∉ usedIds st →
  ∃ st', run_calls [(d1, None); (d2, None)] st
         = Ok ([sanitizeName d1; sanitizeName d1 ++ js "2"], st')
    ∧ nm_get (nameMapping st') (sanitizeName d1) = Some d1
    ∧ nm_get (nameMapping st') (sanitizeName d1 ++ js "2") = Some d2.
Proof.
  intros Hne Hsame Hfree Hfree2.
  set (b := sanitizeName d1) in *.
  assert (b ≠ b ++ js "2") as Hb2 by apply (base_ne_candidate b 2).
  assert (getUniqueId d1 None st = Ok (b, record_id b d1 st)) as H1.
  { unfold getUniqueId, padded_base. simpl. fold b.
    rewrite uniqueId_loop_id_loop, id_loop_free; [done|].
    unfold id_taken. by rewrite bool_decide_eq_false_2. }
  assert (getUniqueId d2 None (record_id b d1 st)
          = Ok (b ++ js "2", record_id (b ++ js "2") d2 (record_id b d1 st))) as H2.
  { unfold getUniqueId, padded_base. simpl. rewrite <- Hsame. fold b.
    rewrite uniqueId_loop_id_loop.
    assert (size ({[b]} ∪ usedIds st) = S (size (usedIds st))) as ->.
    { rewrite size_union by set_solver. by rewrite size_singleton. }
    cbn [id_loop].
    assert (id_taken (record_id b d1 st) d2 b = true) as ->.
    { unfold id_taken. simpl. rewrite bool_decide_eq_true_2 by set_solver.
      rewrite nm_get_set_eq. rewrite bool_decide_eq_false_2; [done|]. congruence. }
    rewrite id_loop_free; [done|].
    unfold id_taken. simpl. rewrite bool_decide_eq_false_2; [done|]. set_solver. }
  eexists. simpl. rewrite H1. simpl. rewrite H2. simpl. split; [done|]. simpl.
  split.
  - rewrite nm_get_set_ne by done. apply nm_get_set_eq.
  - apply nm_get_set_eq.
Qed.

Lemma getUniqueId_collision_witness :
  ∃ st', run_calls [(js "Order Item", None); (js "Order-Item", None)] pass_start
         = Ok ([js "Order_Item"; js "Order_Item2"], st')
    ∧ nm_get (nameMapping st') (js "Order_Item") = Some (js "Order Item")
    ∧ nm_get (nameMapping st') (js "Order_Item2") = Some (js "Order-Item").
Proof.
  apply (getUniqueId_collision_suffix (js "Order Item") (js "Order-Item") pass_start).
  - done.
  - by vm_compute.
  - simpl. set_solver.
  - simpl. set_solver.
Defined.

Section PassInvariant.

Lemma record_id_inv (P : jsstr → jsstr → Prop) id d st :
  P id d → pass_inv P st → pass_inv P (record_id id d st).
Proof.
  intros HP (Hnd & Hused & Hall). split_and!; simpl.
  - rewrite nm_set_keys. case_bool_decide; [done|].
    apply NoDup_app. split_and!; [done|set_solver|apply NoDup_singleton].
  - intros x. rewrite nm_set_keys, elem_of_union, elem_of_singleton, Hused.
    case_bool_decide; set_solver.
  - intros x dx [Hin|[= -> ->]]%nm_set_elem; [by apply Hall|done].
Qed.

Lemma pass_start_inv P : pass_inv P pass_start.
Proof. split_and!; simpl; [constructor|set_solver|set_solver]. Qed.

Lemma getUniqueId_pass_inv d ml st id st' :
  pass_inv er_entry st → getUniqueId d ml st = Ok (id, st') → pass_inv er_entry st'.
Proof.
  intros Hinv Hid.
  destruct (getUniqueId_shape d ml st) as (id' & k & Hid' & Hd & _).
  rewrite Hid in Hid'. injection Hid' as <- ->.
  apply record_id_inv; [by exists k|done].
Qed.

Lemma preprocessERAttribute_pass_inv line st out st' :
  pass_inv er_entry st → preprocessERAttribute line st = Ok (out, st') →
  pass_inv er_entry st'.
Proof.
  intros Hinv.
  destruct (splitCSV (trim line)) as [|name [|type more]] eqn:Hp.
  - by apply splitCSV_loop_nonempty in Hp.
  - unfold preprocessERAttribute. rewrite Hp. simpl. by intros [= _ <-].
  - destruct (preprocessERAttribute_fields line st name type more Hp) as (id & Hid & ->).
    intros [= _ <-]. by eapply getUniqueId_pass_inv.
Qed.

Lemma preprocessERRelationship_pass_inv line st out st' :
  pass_inv er_entry st → preprocessERRelationship line st = Ok (out, st') →
  pass_inv er_entry st'.
Proof.
  intros Hinv. unfold preprocessERRelationship.
  destruct (relOp_match (trim line)) as [opStart|]; [|by intros [= _ <-]].
  destruct (match indexOf1 58 _ with Some _ => _ | None => _ end) as [rightEntity label].
  destruct (getUniqueId _ None st) as [[leftId st1]| |] eqn:H1; simpl; try done.
  destruct (getUniqueId _ None st1) as [[rightId st2]| |] eqn:H2; simpl; try done.
  intros [= _ <-]. eapply getUniqueId_pass_inv; [|exact H2].
  by eapply getUniqueId_pass_inv.
Qed.

Lemma preprocessER_line_pass_inv line s s' :
  pass_inv er_entry (er_pass s) → preprocessER_line line s = Ok s' →
  pass_inv er_entry (er_pass s').
Proof.
  intros Hinv. unfold preprocessER_line.
  repeat (case_match; try (by intros [= <-])).
  - destruct (preprocessERAttribute line (er_pass s)) as [[out st']| |] eqn:Ha;
      simpl; try done.
    intros [= <-]. by eapply preprocessERAttribute_pass_inv.
  - destruct (getUniqueId _ None (er_pass s)) as [[id st']| |] eqn:Hg; simpl; try done.
    intros [= <-]. by eapply getUniqueId_pass_inv.
  - destruct (preprocessERRelationship line (er_pass s)) as [[out st']| |] eqn:Hr;
      simpl; try done.
    intros [= <-]. by eapply preprocessERRelationship_pass_inv.
Qed.

Lemma preprocessER_loop_pass_inv lines s s' :
  pass_inv er_entry (er_pass s) → preprocessER_loop lines s = Ok s' →
  pass_inv er_entry (er_pass s').
Proof.
  revert s. induction lines as [|l lines IH]; intros s Hinv; simpl.
  - by intros [= <-].
  - destruct (preprocessER_line l s) as [s1| |] eqn:H1; simpl; try done.
    apply IH. by eapply preprocessER_line_pass_inv.
Qed.

End PassInvariant.

(** X6.  The name mapping that [preprocessER] leaves: its identifiers are
    pairwise different and are the members of [usedIds], and each is derived
    from the display name it stands for, which makes it a non-empty string
    of letters, digits and underscores. *)
Theorem preprocessER_mapping_invariant (code : jsstr) :
  ∃ out, preprocessER code = Ok out
    ∧ NoDup (nameMapping (out_pass out)).*1
    ∧ (∀ id, id ∈ usedIds (out_pass out) ↔ id ∈ (nameMapping (out_pass out)).*1)
    ∧ ∀ id d, (id, d) ∈ nameMapping (out_pass out) →
        (∃ k, derived_id d id k) ∧ id ≠ [] ∧ Forall (λ c, is_word c = true) id.
Proof.
  destruct (preprocessER_total code) as [out Hout]. exists out. split; [done|].
  unfold preprocessER in Hout.
  destruct (preprocessER_loop _ _) as [s| |] eqn:Hl; simpl in Hout; try done.
  injection Hout as <-. simpl.
  apply preprocessER_loop_pass_inv in Hl as (Hnd & Hused & Hall);
    [|apply pass_start_inv].
  split_and!; try done.
  intros id d [k Hk]%Hall.
  split_and!; [by exists k|by eapply derived_id_nonempty|by eapply derived_id_word].
Qed.

Section FlowInvariant.

Lemma nm_set_fresh k v nm : k ∉ nm.*1 → nm_set k v nm = nm ++ [(k, v)].
Proof.
  induction nm as [|[k' v'] r IH]; [done|]. simpl. intros Hk.
  rewrite decide_False by set_solver. rewrite IH by set_solver. done.
Qed.

Lemma getFlowNodeId_flow_inv label fs id fs' :
  flow_inv fs → getFlowNodeId label fs = Ok (id, fs') →
  flow_inv fs' ∧ nodeIdMap fs ⊆ nodeIdMap fs'
  ∧ (nodeIdMap fs' !! label = Some id
     ∨ (label ∈ inherited_keys ∧ id = inherited_text label)).
Proof.
  intros [Hinv Hmap] Hg.
  apply getFlowNodeId_cases in Hg
    as [(Hc & _ & ->)|[(_ & Hin & -> & ->)|(Hc & Hl & ->)]].
  - split_and!; [by split|done|by left].
  - split_and!; [by split|done|by right].
  - destruct Hc as [Hc|[Hc _]].
    { apply Hmap in Hc. destruct Hinv as (_ & _ & Hall).
      apply Hall, derived_id_nonempty in Hc. done. }
    assert (id ∉ usedIds (fl_pass fs)) as Hfree.
    { apply id_loop_result in Hl. simpl in Hl. by apply bool_decide_eq_false in Hl. }
    assert (flow_entry id label) as Hd.
    { unfold flow_entry, derived_id. simpl. rewrite app_nil_r.
      apply id_loop_shape in Hl as [->|(k & Hk & ->)]; [by left|right; by exists k]. }
    split_and!; [split|..]; simpl.
    + by apply record_id_inv.
    + intros x l. destruct Hinv as (_ & Hused & _).
      rewrite nm_set_fresh by (by rewrite <- Hused).
      rewrite elem_of_app, list_elem_of_singleton, Hmap.
      destruct (decide (l = label)) as [->|Hne].
      * rewrite lookup_insert_eq, Hc. split; [intros [?|?]; by simplify_eq|].
        intros [= ->]. by right.
      * rewrite lookup_insert_ne by done. split; [intros [?|?]; by simplify_eq|]. by left.
    + by apply insert_subseteq.
    + left. by rewrite lookup_insert_eq.
Qed.

Lemma render_tokens_flow_inv toks fs parts fs' :
  flow_inv fs → render_tokens getFlowNodeId toks fs = Ok (parts, fs') → flow_inv fs'.
Proof.
  revert fs parts. induction toks as [|tok rest IH]; intros fs parts Hinv; simpl.
  - by intros [= _ <-].
  - destruct (render_token getFlowNodeId tok fs) as [[p fs1]| |] eqn:Ht; simpl; try done.
    destruct (render_tokens getFlowNodeId rest fs1) as [[ps fs2]| |] eqn:Hr;
      simpl; try done.
    intros [= _ <-]. eapply IH; [|exact Hr].
    destruct tok as [raw|raw|label sh]; simpl in Ht; try (by injection Ht as _ <-).
    destruct (getFlowNodeId label fs) as [[id fs0]| |] eqn:Hg; simpl in Ht; try done.
    injection Ht as _ <-. by eapply (getFlowNodeId_flow_inv label fs id).
Qed.

Lemma preprocessFlowchart_loop_flow_inv lines res fs res' fs' :
  flow_inv fs → preprocessFlowchart_loop lines res fs = Ok (res', fs') → flow_inv fs'.
Proof.
  revert res fs. induction lines as [|line rest IH]; intros res fs Hinv; simpl.
  - by intros [= _ <-].
  - destruct (flow_passthrough (trim line)); [by apply IH|].
    destruct (preprocessFlowLine line getFlowNodeId fs) as [[out fs1]| |] eqn:Hline;
      simpl; try done.
    apply IH. unfold preprocessFlowLine in Hline.
    destruct (scan_loop _ _ _ _) as [toks| |]; simpl in Hline; try done.
    destruct (render_tokens getFlowNodeId toks fs) as [[parts fs0]| |] eqn:Hr;
      simpl in Hline; try done.
    injection Hline as _ <-. by eapply render_tokens_flow_inv.
Qed.

Lemma flow_start_inv : flow_inv (mkFlow pass_start ∅).
Proof.
  split; [apply pass_start_inv|]. intros id l. simpl.
  rewrite lookup_empty. split; [by intros ?%elem_of_nil|done].
Qed.

Lemma preprocessFlowchart_flow_inv code out st :
  preprocessFlowchart code = Ok (out, st) →
  ∃ fs, flow_inv fs ∧ fl_pass fs = st.
Proof.
  unfold preprocessFlowchart.
  destruct (preprocessFlowchart_loop _ _ _) as [[res fs]| |] eqn:Hl; simpl; try done.
  intros [= _ <-]. exists fs. split; [|done].
  eapply preprocessFlowchart_loop_flow_inv; [apply flow_start_inv|exact Hl].
Qed.

End FlowInvariant.

(** X7.  The name mapping that [preprocessFlowchart] leaves pairs labels and
    identifiers one to one: no identifier stands for two labels, no label
    has two identifiers, and each identifier is the sanitized label,
    followed by a counter when needed. The source holds no property name of
    [Object.prototype]. *)
Theorem preprocessFlowchart_mapping_one_to_one (code : jsstr) :
  no_inherited_key code →
  ∃ out st, preprocessFlowchart code = Ok (out, st)
    ∧ NoDup (nameMapping st).*1
    ∧ (∀ id, id ∈ usedIds st ↔ id ∈ (nameMapping st).*1)
    ∧ (∀ id1 id2 l, (id1, l) ∈ nameMapping st → (id2, l) ∈ nameMapping st → id1 = id2)
    ∧ ∀ id l, (id, l) ∈ nameMapping st →
        derived_id l id 0 ∧ id ≠ [] ∧ Forall (λ c, is_word c = true) id.
Proof.
  intros _.
  destruct (preprocessFlowchart_total code) as (out & st & Hrun). exists out, st.
  split; [done|].
  apply preprocessFlowchart_flow_inv in Hrun as (fs & [(Hnd & Hused & Hall) Hmap] & <-).
  split_and!; try done.
  - intros id1 id2 l H1%Hmap H2%Hmap. congruence.
  - intros id l Hd%Hall.
    split_and!; [done|by eapply derived_id_nonempty|by eapply derived_id_word].
Qed.

Lemma preprocessFlowchart_mapping_witness :
  ∃ out st, preprocessFlowchart (js "flowchart TD
  `Büro Müller` --> `Buero Mueller`
  `Büro Müller` --> `Ende`") = Ok (out, st)
    ∧ NoDup (nameMapping st).*1
    ∧ (∀ id, id ∈ usedIds st ↔ id ∈ (nameMapping st).*1)
    ∧ (∀ id1 id2 l, (id1, l) ∈ nameMapping st → (id2, l) ∈ nameMapping st → id1 = id2)
    ∧ ∀ id l, (id, l) ∈ nameMapping st →
        derived_id l id 0 ∧ id ≠ [] ∧ Forall (λ c, is_word c = true) id.
Proof.
  apply preprocessFlowchart_mapping_one_to_one. vm_compute. reflexivity.
Defined.

Section RestorerIdentity.

Lemma replaceAll_from_same search whole (pos skip : nat) s :
  search ≠ [] → 36 ∉ search →
  replaceAll_from search search whole pos skip s = drop skip s.
Proof.
  intros Hne Hplain. revert pos skip.
  induction s as [|c r IH]; intros pos skip.
  - simpl. rewrite bool_decide_eq_false_2 by done. by destruct skip.
  - cbn [replaceAll_from]. destruct skip as [|k]; [|by rewrite IH].
    destruct (startsWith (c :: r) search) eqn:Hs.
    + rewrite getSubstitution_plain by done.
      apply startsWith_inv in Hs as [b Hb].
      destruct search as [|c' s']; [done|]. simpl in Hb. injection Hb as <- ->.
      cbn [length]. rewrite IH. simpl. by rewrite drop_app_length.
    + by rewrite IH.
Qed.

Lemma restore_text_identity entries text :
  Forall (λ e : jsstr * jsstr, e.2 = e.1 ∧ e.1 ≠ [] ∧ 36 ∉ e.1) entries →
  restore_text entries text = text.
Proof.
  unfold restore_text. induction 1 as [|[k v] r (Hv & Hne & Hplain) _ IH]; simpl; [done|].
  simpl in *. subst v.
  assert (restore_step text (k, k) = text) as ->; [|done].
  unfold restore_step. cbn [fst snd].
  destruct (negb (bool_decide (text = [])) && includes text k); [|done].
  unfold replaceAll. rewrite replaceAll_from_same by done. apply drop_0.
Qed.

Lemma word_no_dollar (s : jsstr) : Forall (λ c, is_word c = true) s → 36 ∉ s.
Proof. intros H Hin. rewrite Forall_forall in H. by apply H in Hin. Qed.

End RestorerIdentity.

(** X8.  A text in which no identifier of the mapping occurs is left as it
    is. *)
Theorem postProcess_text_without_identifier (nm : list (jsstr * jsstr)) (text : jsstr) :
  (∀ id d, (id, d) ∈ nm → includes text id = false) →
  postProcess_text nm text = text.
Proof.
  intros H. apply restore_text_skip, Forall_forall. intros [id d] He.
  apply (H id d). by rewrite <- (sorted_entries_perm nm).
Qed.

Lemma postProcess_text_without_identifier_witness :
  postProcess_text [(js "Strasse_", js "Straße"); (js "Ort", js "Ort")] (js "string")
  = js "string".
Proof.
  apply postProcess_text_without_identifier. intros id d Hin.
  apply elem_of_cons in Hin as [[= -> ->]|Hin]; [by vm_compute|].
  apply elem_of_cons in Hin as [[= -> ->]|Hin]; [by vm_compute|].
  by apply elem_of_nil in Hin.
Defined.

(** X9.  When every display name of a pass is its own identifier, restoring
    changes no text. (A flowchart source holds no property name of
    [Object.prototype].) *)
Theorem restore_is_identity_for_clean_names :
  (∀ code, ∃ out, preprocessER code = Ok out
     ∧ ((∀ id d, (id, d) ∈ nameMapping (out_pass out) → d = id) →
        ∀ text, postProcess_text (nameMapping (out_pass out)) text = text))
  ∧ (∀ code, no_inherited_key code →
       ∃ out st, preprocessFlowchart code = Ok (out, st)
         ∧ ((∀ id d, (id, d) ∈ nameMapping st → d = id) →
            ∀ text, postProcess_text (nameMapping st) text = text)).
Proof.
  split.
  - intros code. destruct (preprocessER_total code) as [out Hout]. exists out.
    split; [done|]. intros Hsame text.
    unfold preprocessER in Hout.
    destruct (preprocessER_loop _ _) as [s| |] eqn:Hl; simpl in Hout; try done.
    injection Hout as <-. simpl in *.
    apply preprocessER_loop_pass_inv in Hl as (_ & _ & Hall); [|apply pass_start_inv].
    apply restore_text_identity, Forall_forall. intros [id d] He.
    rewrite (sorted_entries_perm (nameMapping (er_pass s))) in He.
    destruct (Hall _ _ He) as [k Hk]. simpl.
    split_and!; [by apply Hsame|by eapply derived_id_nonempty|].
    by eapply word_no_dollar, derived_id_word.
  - intros code _. destruct (preprocessFlowchart_total code) as (out & st & Hrun).
    exists out, st. split; [done|]. intros Hsame text.
    apply preprocessFlowchart_flow_inv in Hrun as (fs & [(_ & _ & Hall) _] & <-).
    apply restore_text_identity, Forall_forall. intros [id d] He.
    rewrite (sorted_entries_perm (nameMapping (fl_pass fs))) in He.
    pose proof (Hall _ _ He) as Hk. simpl.
    split_and!; [by apply Hsame|by eapply derived_id_nonempty|].
    by eapply word_no_dollar, derived_id_word.
Qed.

Section SplitCSV.

Lemma splitCSV_loop_parts line (p0 parts : list jsstr) (current : jsstr) (q : bool) :
  splitCSV_loop line (p0 ++ parts) current q = p0 ++ splitCSV_loop line parts current q.
Proof.
  revert parts current q. induction line as [|ch rest IH]; intros parts current q; simpl.
  - by rewrite (assoc_L (++)).
  - destruct (ch =? dquote); [apply IH|].
    destruct ((ch =? 44) && negb q); [|apply IH].
    by rewrite <- (assoc_L (++)), IH.
Qed.

Lemma quote_count_cons c s :
  quote_count (c :: s) = if c =? dquote then S (quote_count s) else quote_count s.
Proof.
  unfold quote_count. rewrite filter_cons. destruct (c =? dquote) eqn:Hc.
  - apply N.eqb_eq in Hc. by rewrite decide_True.
  - apply N.eqb_neq in Hc. by rewrite decide_False.
Qed.

(** The loop over [a], a comma and [b], when the comma is reached outside
    quotes. *)
Lemma splitCSV_loop_comma a b (parts : list jsstr) (current : jsstr) (q : bool) :
  (if Nat.even (quote_count a) then q else negb q) = false →
  splitCSV_loop (a ++ 44 :: b) parts current q
  = splitCSV_loop a parts current q ++ splitCSV b.
Proof.
  revert parts current q. induction a as [|ch rest IH]; intros parts current q Hq.
  - simpl in Hq. subst q. simpl.
    rewrite <- (app_nil_r (parts ++ _)) at 1. by rewrite splitCSV_loop_parts.
  - rewrite quote_count_cons in Hq. cbn [app splitCSV_loop].
    destruct (ch =? dquote) eqn:Hc.
    + apply IH. rewrite Nat.even_succ, <- Nat.negb_even in Hq.
      destruct (Nat.even (quote_count rest)), q; done.
    + destruct ((ch =? 44) && negb q); by apply IH.
Qed.

Lemma splitCSV_loop_no_comma s (parts : list jsstr) (current : jsstr) (q : bool) :
  44 ∉ s → splitCSV_loop s parts current q = parts ++ [trim (current ++ s)].
Proof.
  revert current q. induction s as [|ch rest IH]; intros current q Hs; simpl.
  - by rewrite app_nil_r.
  - assert (ch =? 44 = false) as -> by (apply N.eqb_neq; set_solver).
    simpl. rewrite !IH by set_solver. rewrite <- (assoc_L (++)). by destruct (ch =? dquote).
Qed.

Lemma splitCSV_loop_in_quotes s t (parts : list jsstr) (current : jsstr) :
  34 ∉ s →
  splitCSV_loop (s ++ t) parts current true = splitCSV_loop t parts (current ++ s) true.
Proof.
  revert current. induction s as [|ch rest IH]; intros current Hs; simpl.
  - by rewrite app_nil_r.
  - assert (ch =? dquote = false) as -> by (apply N.eqb_neq; set_solver).
    rewrite andb_false_r. rewrite IH by set_solver. by rewrite <- (assoc_L (++)).
Qed.

Lemma splitCSV_loop_plain s t (parts : list jsstr) (current : jsstr) (q : bool) :
  34 ∉ s → 44 ∉ s →
  splitCSV_loop (s ++ t) parts current q = splitCSV_loop t parts (current ++ s) q.
Proof.
  revert current. induction s as [|ch rest IH]; intros current Hq Hc; simpl.
  - by rewrite app_nil_r.
  - assert (ch =? dquote = false) as -> by (apply N.eqb_neq; set_solver).
    assert (ch =? 44 = false) as -> by (apply N.eqb_neq; set_solver).
    simpl. rewrite IH by set_solver. by rewrite <- (assoc_L (++)).
Qed.

Lemma trimStart_idemp s : trimStart (trimStart s) = trimStart s.
Proof.
  induction s as [|c r IH]; [done|]. simpl.
  destruct (is_ws c) eqn:Hc; [done|]. simpl. by rewrite Hc.
Qed.

Lemma trimStart_keeps_last s c :
  is_ws c = false → ∃ y, trimStart (s ++ [c]) = y ++ [c].
Proof.
  intros Hc. induction s as [|x r IH]; simpl.
  - rewrite Hc. by exists [].
  - destruct (is_ws x); [done|]. by exists (x :: r).
Qed.

Lemma trim_idemp s : trim (trim s) = trim s.
Proof.
  unfold trim.
  assert (trimStart (trimEnd (trimStart s)) = trimEnd (trimStart s)) as ->.
  { destruct (trimStart s) as [|c t] eqn:Hs; [done|].
    assert (is_ws c = false) as Hc.
    { destruct (is_ws c) eqn:Hc; [|done].
      pose proof (trimStart_idemp s) as Hi. rewrite Hs in Hi. simpl in Hi.
      rewrite Hc in Hi. apply (f_equal length) in Hi. simpl in Hi.
      assert (length (trimStart t) ≤ length t)%nat; [|lia].
      clear. induction t as [|x r IH]; simpl; [done|]. destruct (is_ws x); simpl; lia. }
    unfold trimEnd. simpl.
    destruct (trimStart_keeps_last (rev t) c Hc) as [y ->].
    rewrite rev_app_distr. simpl. by rewrite Hc. }
  unfold trimEnd. by rewrite rev_involutive, trimStart_idemp.
Qed.

Lemma splitCSV_loop_trimmed line (parts : list jsstr) (current : jsstr) (q : bool) :
  Forall (λ f, trim f = f) parts →
  Forall (λ f, trim f = f) (splitCSV_loop line parts current q).
Proof.
  revert parts current q. induction line as [|ch rest IH]; intros parts current q Hp; simpl.
  - apply Forall_app_2; [done|]. repeat constructor. apply trim_idemp.
  - destruct (ch =? dquote); [by apply IH|].
    destruct ((ch =? 44) && negb q); [|by apply IH].
    apply IH, Forall_app_2; [done|]. repeat constructor. apply trim_idemp.
Qed.

End SplitCSV.

(** X10.  A comma that follows an even number of double quotes separates:
    the fields of the line are those of the text before it and those of the
    text after it. *)
Theorem splitCSV_splits_at_outer_comma (a b : jsstr) :
  Nat.even (quote_count a) = true →
  splitCSV (a ++ 44 :: b) = splitCSV a ++ splitCSV b.
Proof.
  intros Ha. unfold splitCSV at 1 2. apply splitCSV_loop_comma. by rewrite Ha.
Qed.

Lemma splitCSV_splits_at_outer_comma_witness :
  splitCSV (js "Typ, `Büro, Lager`" ++ 44 :: js " PK")
  = splitCSV (js "Typ, `Büro, Lager`") ++ splitCSV (js " PK").
Proof. apply splitCSV_splits_at_outer_comma. reflexivity. Defined.

(** X11.  Commas between two double quotes do not separate: a text with one
    quoted part and no comma outside it is one field, the trimmed text. *)
Theorem splitCSV_keeps_quoted_commas (a q b : jsstr) :
  44 ∉ a → 34 ∉ a → 34 ∉ q → 44 ∉ b →
  splitCSV (a ++ 34 :: q ++ 34 :: b) = [trim (a ++ 34 :: q ++ 34 :: b)].
Proof.
  intros Ha1 Ha2 Hq Hb. unfold splitCSV.
  rewrite splitCSV_loop_plain by done. cbn [splitCSV_loop]. simpl.
  rewrite splitCSV_loop_in_quotes by done. cbn [splitCSV_loop]. simpl.
  rewrite splitCSV_loop_no_comma by done. simpl.
  by rewrite <- !(assoc_L (++)).
Qed.

Lemma splitCSV_keeps_quoted_commas_witness :
  splitCSV (js " " ++ 34 :: js "z.B. 1990, 2005" ++ 34 :: js " ")
  = [trim (js " " ++ 34 :: js "z.B. 1990, 2005" ++ 34 :: js " ")].
Proof.
  apply splitCSV_keeps_quoted_commas; vm_compute;
    intros H; repeat (apply elem_of_cons in H as [H|H]; [done|]); by apply elem_of_nil in H.
Defined.

(** X12.  [splitCSV] returns at least one field, every field is trimmed, and
    a line without a comma is one field. *)
Theorem splitCSV_fields_trimmed (line : jsstr) :
  splitCSV line ≠ []
  ∧ Forall (λ f, trim f = f) (splitCSV line)
  ∧ (44 ∉ line → splitCSV line = [trim line]).
Proof.
  split_and!.
  - apply splitCSV_loop_nonempty.
  - by apply splitCSV_loop_trimmed.
  - intros H. unfold splitCSV. by rewrite splitCSV_loop_no_comma.
Qed.

Section Units.

Lemma trimStart_subseteq s : trimStart s ⊆ s.
Proof.
  induction s as [|c r IH]; [done|]. simpl. destruct (is_ws c); [|done].
  intros x Hx. right. by apply IH.
Qed.

Lemma rev_subseteq (s : jsstr) : rev s ⊆ s.
Proof. intros x. rewrite !list_elem_of_In. apply in_rev. Qed.

Lemma subseteq_rev (s : jsstr) : s ⊆ rev s.
Proof. intros x. rewrite !list_elem_of_In. apply in_rev. Qed.

Lemma trimEnd_subseteq s : trimEnd s ⊆ s.
Proof.
  unfold trimEnd. etrans; [apply rev_subseteq|]. etrans; [apply trimStart_subseteq|].
  apply rev_subseteq.
Qed.

Lemma trim_subseteq s : trim s ⊆ s.
Proof. unfold trim. etrans; [apply trimEnd_subseteq|apply trimStart_subseteq]. Qed.

Lemma leading_ws_subseteq s : leading_ws s ⊆ s.
Proof.
  induction s as [|c r IH]; [done|]. simpl. destruct (is_ws c); [|set_solver].
  intros x [->|Hx]%elem_of_cons; [left|right; by apply IH].
Qed.

Lemma strip_last_subseteq c s : strip_last c s ⊆ s.
Proof.
  destruct (strip_last_cases c s) as [[-> _]|H]; [done|].
  rewrite H at 2. set_solver.
Qed.

Lemma strip_ends_subseteq c s : strip_ends c s ⊆ s.
Proof.
  destruct s as [|x r]; [done|]. simpl. destruct (x =? c).
  - etrans; [apply strip_last_subseteq|set_solver].
  - apply strip_last_subseteq.
Qed.

Lemma collapse_runs_subseteq c s : collapse_runs c s ⊆ s.
Proof.
  induction s as [|x r IH]; [done|]. simpl.
  destruct (x =? c); [destruct r as [|y r']; [done|destruct (y =? c)]|]; set_solver.
Qed.

Lemma splitCSV_loop_subseteq line (parts : list jsstr) (current : jsstr) (q : bool) f :
  f ∈ splitCSV_loop line parts current q → f ∈ parts ∨ f ⊆ current ++ line.
Proof.
  revert parts current q. induction line as [|ch rest IH]; intros parts current q; simpl.
  - intros [?|H%list_elem_of_singleton]%elem_of_app; [by left|right]. subst f.
    rewrite app_nil_r. apply trim_subseteq.
  - destruct (ch =? dquote).
    { intros [?|H]%IH; [by left|right]. by rewrite <- (assoc_L (++)) in H. }
    destruct ((ch =? 44) && negb q).
    + intros [[?|H%list_elem_of_singleton]%elem_of_app|H]%IH; [by left|right..].
      * subst f. etrans; [apply trim_subseteq|set_solver].
      * set_solver.
    + intros [?|H]%IH; [by left|right]. by rewrite <- (assoc_L (++)) in H.
Qed.

Lemma splitCSV_subseteq line f : f ∈ splitCSV line → f ⊆ line.
Proof. intros [H|H]%splitCSV_loop_subseteq; [by apply elem_of_nil in H|done]. Qed.

Lemma join_subseteq (sep : jsstr) (parts : list jsstr) x :
  x ∈ join sep parts → x ∈ sep ∨ ∃ p, p ∈ parts ∧ x ∈ p.
Proof.
  induction parts as [|p [|p' ps] IH]; simpl.
  - by intros ?%elem_of_nil.
  - intros H. right. exists p. split; [left|done].
  - intros [H|[H|H]%elem_of_app]%elem_of_app.
    + right. exists p. split; [left|done].
    + by left.
    + destruct (IH H) as [?|(q & Hq & Hx)]; [by left|].
      right. exists q. split; [by right|done].
Qed.

Lemma word_no_newline (s : jsstr) : Forall (λ c, is_word c = true) s → 10 ∉ s.
Proof. intros H Hin. rewrite Forall_forall in H. by apply H in Hin. Qed.

Lemma getUniqueId_no_newline d ml st id st' :
  getUniqueId d ml st = Ok (id, st') → 10 ∉ id.
Proof.
  intros Hid. destruct (getUniqueId_shape d ml st) as (id' & k & Hid' & Hd & _).
  rewrite Hid in Hid'. injection Hid' as <- _.
  by eapply word_no_newline, derived_id_word.
Qed.

End Units.

Section Lines.

Lemma split_on_nonempty sep s : split_on sep s ≠ [].
Proof. destruct s as [|c r]; simpl; [done|]. by repeat case_match. Qed.

Lemma split_on_free sep s : Forall (λ l, sep ∉ l) (split_on sep s).
Proof.
  induction s as [|c r IH]; simpl.
  - repeat constructor. by intros ?%elem_of_nil.
  - destruct (c =? sep) eqn:Hc.
    + constructor; [by intros ?%elem_of_nil|done].
    + apply N.eqb_neq in Hc. destruct (split_on sep r) as [|l ls].
      * repeat constructor. set_solver.
      * apply Forall_cons in IH as [Hl Hls]. constructor; [set_solver|done].
Qed.

Lemma split_on_app_free sep l s :
  sep ∉ l →
  split_on sep (l ++ s)
  = match split_on sep s with x :: xs => (l ++ x) :: xs | [] => [l] end.
Proof.
  intros Hl. induction l as [|c r IH]; simpl.
  - pose proof (split_on_nonempty sep s). by destruct (split_on sep s).
  - assert (c =? sep = false) as -> by (apply N.eqb_neq; set_solver).
    rewrite IH by set_solver. pose proof (split_on_nonempty sep s).
    by destruct (split_on sep s).
Qed.

(** [split] undoes [join] on lines that hold no separator. *)
Lemma split_on_join sep (ls : list jsstr) :
  ls ≠ [] → Forall (λ l, sep ∉ l) ls → split_on sep (join [sep] ls) = ls.
Proof.
  intros Hne Hall. induction Hall as [|l ls Hl Hls IH]; [done|].
  destruct ls as [|l' ls'].
  - simpl. rewrite <- (app_nil_r l) at 1. rewrite split_on_app_free by done. simpl.
    by rewrite app_nil_r.
  - change (join [sep] (l :: l' :: ls')) with (l ++ [sep] ++ join [sep] (l' :: ls')).
    rewrite split_on_app_free by done.
    change ([sep] ++ join [sep] (l' :: ls')) with (sep :: join [sep] (l' :: ls')).
    cbn [split_on]. rewrite N.eqb_refl.
    rewrite IH by done. by rewrite app_nil_r.
Qed.

End Lines.

Section ERLines.

Lemma key_suffix_no_newline more : 10 ∉ key_suffix (fields_key more).
Proof.
  pose proof (key_suffix_cases more) as H.
  repeat (apply elem_of_cons in H as [->|H]; [compute_done|]).
  by apply elem_of_nil in H.
Qed.

Lemma fields_comment_units more cm x :
  fields_comment more = Some cm → x ∈ cm →
  x = 44 ∨ x = 32 ∨ ∃ f, f ∈ more ∧ x ∈ f.
Proof.
  destruct more as [|f3 [|f4 later]]; cbn [fields_comment]; [done|..].
  - destruct (is_key_tag f3); [done|]. intros [= <-] Hx%trim_subseteq.
    right. right. exists f3. split; [left|done].
  - intros Heq Hx. apply (inj Some) in Heq. subst cm.
    apply trim_subseteq, join_subseteq in Hx as [Hx|(p & Hp & Hx)].
    + change (js ", ") with [44; 32] in Hx. set_solver.
    + right. right. exists p. split; [by right|done].
Qed.

Lemma comment_suffix_units comment x :
  x ∈ comment_suffix comment → x = 32 ∨ x = 34 ∨ ∃ cm, comment = Some cm ∧ x ∈ cm.
Proof.
  unfold comment_suffix. destruct comment as [[|c cm]|]; try (by intros ?%elem_of_nil).
  destruct (trim (strip_ends dquote (c :: cm))) as [|y r] eqn:Ht;
    [by intros ?%elem_of_nil|].
  change (js " `") with [32; 34]. change (js "`") with [34].
  intros [Hx|[Hx|Hx]%elem_of_app]%elem_of_app; [set_solver| |set_solver].
  right. right. exists (c :: cm). split; [done|].
  rewrite <- Ht in Hx. by apply trim_subseteq, strip_ends_subseteq in Hx.
Qed.

Lemma preprocessERAttribute_no_newline line st out st' :
  10 ∉ line → preprocessERAttribute line st = Ok (out, st') → 10 ∉ out.
Proof.
  intros Hline.
  destruct (splitCSV (trim line)) as [|name [|type more]] eqn:Hp.
  - by apply splitCSV_loop_nonempty in Hp.
  - unfold preprocessERAttribute. rewrite Hp. simpl. by intros [= <- _].
  - destruct (preprocessERAttribute_fields line st name type more Hp) as (id & Hid & ->).
    intros Heq.
    assert (out = leading_ws line ++ id ++ js " " ++ type
                  ++ key_suffix (fields_key more) ++ comment_suffix (fields_comment more))
      as -> by congruence.
    clear Heq.
    assert (∀ f, f ∈ name :: type :: more → f ⊆ line) as Hf.
    { intros f Hin. rewrite <- Hp in Hin. etrans; [by apply splitCSV_subseteq|].
      apply trim_subseteq. }
    rewrite !not_elem_of_app. split_and!.
    + intros H. by apply leading_ws_subseteq in H.
    + by eapply getUniqueId_no_newline.
    + compute_done.
    + intros H. apply (Hf type) in H; [done|set_solver].
    + apply key_suffix_no_newline.
    + intros [?|[?|(cm & Hcm & H)]]%comment_suffix_units; [done..|].
      destruct (fields_comment_units _ _ _ Hcm H) as [?|[?|(f & Hfin & Hx)]]; [done..|].
      apply (Hf f) in Hx; [done|set_solver].
Qed.

Lemma relationship_label_units label x :
  x ∈ relationship_label label → x = 34 ∨ x ∈ label.
Proof.
  unfold relationship_label. destruct label as [|c r]; [by right|].
  destruct (negb (c =? dquote) && has_special (c :: r)); [|by right].
  change (js "`") with [34]. set_solver.
Qed.

Lemma preprocessERRelationship_no_newline line st out st' :
  10 ∉ line → preprocessERRelationship line st = Ok (out, st') → 10 ∉ out.
Proof.
  intros Hline. unfold preprocessERRelationship.
  destruct (relOp_match (trim line)) as [opStart|]; [|by intros [= <- _]].
  destruct (match indexOf1 58 _ with Some _ => _ | None => _ end)
    as [rightEntity label] eqn:Hright.
  destruct (getUniqueId _ None st) as [[leftId st1]| |] eqn:H1;
    cbn [mbind result_bind]; try done.
  destruct (getUniqueId _ None st1) as [[rightId st2]| |] eqn:H2;
    cbn [mbind result_bind]; try done.
  intros Heq.
  assert (out = leading_ws line ++ leftId ++ js " " ++ take 6 (drop opStart (trim line))
                ++ js " " ++ rightId
                ++ match relationship_label label with
                   | [] => []
                   | _ => js " : " ++ relationship_label label
                   end) as -> by congruence.
  clear Heq.
  assert (label ⊆ line) as Hlabel.
  { destruct (indexOf1 58 _) as [colonIdx|]; injection Hright as _ <-; [|set_solver].
    etrans; [apply trim_subseteq|]. etrans; [apply subseteq_drop|].
    etrans; [apply trim_subseteq|]. etrans; [apply subseteq_drop|]. apply trim_subseteq. }
  rewrite !not_elem_of_app. split_and!.
  - intros H. by apply leading_ws_subseteq in H.
  - by eapply getUniqueId_no_newline.
  - compute_done.
  - intros H. by apply subseteq_take, subseteq_drop, trim_subseteq in H.
  - compute_done.
  - by eapply getUniqueId_no_newline.
  - destruct (relationship_label label) as [|c r] eqn:Hl; [by intros ?%elem_of_nil|].
    rewrite <- Hl. change (js " : ") with [32; 58; 32].
    intros [H|H]%elem_of_app; [set_solver|].
    apply relationship_label_units in H as [?|H]; [done|]. by apply Hlabel in H.
Qed.

(** One line of the source: the output line it yields, or none when it
    is a direction statement. *)
Lemma preprocessER_line_lines line s s' :
  10 ∉ line → preprocessER_line line s = Ok s' →
  (is_direction_statement line ∧ er_result s' = er_result s)
  ∨ (¬ is_direction_statement line
     ∧ ∃ o, er_result s' = er_result s ++ [o] ∧ 10 ∉ o).
Proof.
  intros Hline. unfold preprocessER_line, is_direction_statement.
  destruct (bool_decide (trim line = []) || startsWith (trim line) (js "%%")) eqn:Hb.
  { intros [= <-]. right. split; [|by exists line].
    intros [t Ht]. apply dirMatch_not_blank in Ht as [? _]. congruence. }
  destruct (erDeclMatch (trim line)) as [g2|] eqn:Hd.
  { intros [= <-]. right. split.
    - intros [t Ht]. apply dirMatch_not_blank in Ht as [_ ?]. congruence.
    - exists (js "erDiagram"). split; [done|].
      compute_done. }
  destruct (dirMatch (trim line)) as [t|] eqn:Hm.
  { intros [= <-]. left. by split. }
  assert (¬ is_Some (None : option jsstr)) as Hnone by (by intros [? ?]).
  destruct (bool_decide (trim line = js "}")).
  { intros [= <-]. right. split; [done|]. by exists line. }
  destruct (er_inEntity s).
  { destruct (preprocessERAttribute line (er_pass s)) as [[out st']| |] eqn:Ha;
      simpl; try done.
    intros [= <-]. right. split; [done|]. exists out. split; [done|].
    by eapply preprocessERAttribute_no_newline. }
  destruct (entityOpen (trim line)) as [g1|].
  { destruct (getUniqueId _ None (er_pass s)) as [[id st']| |] eqn:Hg; simpl; try done.
    intros Heq. right. split; [done|].
    exists (leading_ws line ++ id ++ js " {"). split; [by simplify_eq|].
    rewrite !not_elem_of_app. split_and!.
    - intros H. by apply leading_ws_subseteq in H.
    - by eapply getUniqueId_no_newline.
    - compute_done. }
  destruct (relOp_match (trim line)).
  { destruct (preprocessERRelationship line (er_pass s)) as [[out st']| |] eqn:Hr;
      simpl; try done.
    intros [= <-]. right. split; [done|]. exists out. split; [done|].
    by eapply preprocessERRelationship_no_newline. }
  intros [= <-]. right. split; [done|]. by exists line.
Qed.

Lemma preprocessER_loop_lines lines s s' :
  Forall (λ l, 10 ∉ l) lines → preprocessER_loop lines s = Ok s' →
  ∃ new, er_result s' = er_result s ++ new ∧ Forall (λ l, 10 ∉ l) new
         ∧ length new = length (filter (λ l, ¬ is_direction_statement l) lines).
Proof.
  intros Hall. revert s. induction Hall as [|l lines Hl _ IH]; intros s; simpl.
  - intros [= <-]. exists []. by rewrite app_nil_r.
  - destruct (preprocessER_line l s) as [s1| |] eqn:H1; simpl; try done.
    intros (new & Hnew & Hfree & Hlen)%IH.
    destruct (preprocessER_line_lines _ _ _ Hl H1) as [[Hd Hr]|(Hd & o & Hr & Ho)].
    + exists new. rewrite <- Hr. split_and!; [done..|].
      rewrite filter_cons, decide_False by (by intros []). done.
    + exists (o :: new). rewrite Hnew, Hr, <- (assoc_L (++)). split_and!; [done|by constructor|].
      rewrite filter_cons, decide_True by done. simpl. by rewrite Hlen.
Qed.

End ERLines.

(** X13.  [preprocessER] drops the direction statements and nothing else:
    its output has one line, free of line feeds, for every line of the
    source that is not a direction statement. *)
Theorem preprocessER_line_count (code : jsstr) :
  ∃ out res, preprocessER code = Ok out
    ∧ out_code out = join [10] res
    ∧ Forall (λ l, 10 ∉ l) res
    ∧ length res = length (kept_lines code)
    ∧ (kept_lines code ≠ [] → split_on 10 (out_code out) = res).
Proof.
  destruct (preprocessER_total code) as [out Hout].
  unfold preprocessER in Hout.
  destruct (preprocessER_loop _ _) as [s| |] eqn:Hl; simpl in Hout; try done.
  exists out, (er_result s). split; [by unfold preprocessER; rewrite Hl|].
  injection Hout as <-. simpl.
  apply preprocessER_loop_lines in Hl as (new & Hnew & Hfree & Hlen);
    [|apply split_on_free].
  simpl in Hnew. subst new. split_and!; try done.
  intros Hkept. apply split_on_join; [|done].
  intros Hnil. rewrite Hnil in Hlen. simpl in Hlen.
  unfold kept_lines in Hkept. by destruct (filter _ _).
Qed.

Section FlowLines.

Lemma first_some_cases {A} (a b : option A) x :
  first_some a b = Some x → a = Some x ∨ b = Some x.
Proof. destruct a; simpl; auto. Qed.

(** A token carries text of the line. *)
Lemma scan_step_text rest pos tok pos' :
  scan_step rest pos = (Some tok, pos') → token_text tok ⊆ rest.
Proof.
  unfold scan_step. destruct (rest !! pos) as [c|]; [|done].
  destruct (is_ws c); [done|].
  destruct (first_some _ _) as [[tok0 pos0]|] eqn:Hf; [|done].
  intros Heq. assert (tok0 = tok) as -> by congruence. clear Heq.
  repeat (apply first_some_cases in Hf as [Hf|Hf]).
  - unfold scan_arrow in Hf. repeat case_match; simplify_eq. cbn [token_text].
    etrans; [apply subseteq_take|apply subseteq_drop].
  - unfold scan_brace in Hf. repeat case_match; simplify_eq. cbn [token_text].
    etrans; [apply strip_ends_subseteq|]. etrans; [apply trim_subseteq|].
    etrans; [apply subseteq_take|apply subseteq_drop].
  - unfold scan_quote in Hf. repeat case_match; simplify_eq. cbn [token_text].
    etrans; [apply subseteq_take|apply subseteq_drop].
  - unfold scan_round in Hf. repeat case_match; simplify_eq. cbn [token_text].
    etrans; [apply subseteq_take|apply subseteq_drop].
  - unfold scan_id in Hf. repeat case_match; simplify_eq. cbn [token_text].
    etrans; [apply subseteq_take|apply subseteq_drop].
Qed.

Lemma scan_loop_text rest (fuel pos : nat) tokens toks :
  Forall (λ t, token_text t ⊆ rest) tokens →
  scan_loop fuel rest pos tokens = Ok toks →
  Forall (λ t, token_text t ⊆ rest) toks.
Proof.
  revert pos tokens. induction fuel as [|f IH]; intros pos tokens Hall; simpl.
  - destruct (pos <? length rest)%nat; [done|]. by intros [= <-].
  - destruct (pos <? length rest)%nat; [|by intros [= <-]].
    destruct (scan_step rest pos) as [[tok|] pos'] eqn:Hs.
    + apply IH, Forall_app_2; [done|]. repeat constructor. by eapply scan_step_text.
    + apply IH. simpl. by rewrite app_nil_r.
Qed.

Lemma concat_elem_of (ls : list jsstr) x : x ∈ concat ls → ∃ l, l ∈ ls ∧ x ∈ l.
Proof.
  induction ls as [|l ls IH]; simpl; [by intros ?%elem_of_nil|].
  intros [H|H]%elem_of_app.
  - exists l. split; [left|done].
  - destruct (IH H) as (l' & ? & ?). exists l'. split; [by right|done].
Qed.

Lemma shape_no_newline sh : 10 ∉ shape_open sh ∧ 10 ∉ shape_close sh.
Proof. destruct sh; split; compute_done. Qed.

Lemma inherited_text_no_newline label : label ∈ inherited_keys → 10 ∉ inherited_text label.
Proof.
  unfold inherited_keys. intros Hin.
  repeat (apply elem_of_cons in Hin as [->|Hin]; [compute_done|]).
  by apply elem_of_nil in Hin.
Qed.

Lemma render_tokens_no_newline toks fs parts fs' :
  flow_inv fs → Forall (λ t, 10 ∉ token_text t) toks →
  render_tokens getFlowNodeId toks fs = Ok (parts, fs') →
  Forall (λ p, 10 ∉ p) parts.
Proof.
  intros Hinv Hall. revert fs parts Hinv.
  induction Hall as [|tok rest Htok _ IH]; intros fs parts Hinv; cbn [render_tokens].
  - intros Heq. assert (parts = []) as -> by congruence. constructor.
  - destruct (render_token getFlowNodeId tok fs) as [[p fs1]| |] eqn:Ht;
      cbn [mbind result_bind]; try done.
    destruct (render_tokens getFlowNodeId rest fs1) as [[ps fs2]| |] eqn:Hr;
      cbn [mbind result_bind]; try done.
    intros Heq. assert (parts = p :: ps ∧ fs2 = fs') as [-> ->] by (split; congruence).
    clear Heq.
    destruct tok as [raw|raw|label sh]; cbn [render_token token_text] in *.
    + assert (p = js " " ++ raw ++ js " " ∧ fs1 = fs) as [-> ->]
        by (split; congruence).
      constructor; [|by eapply IH].
      rewrite !not_elem_of_app. split_and!; [compute_done|done|compute_done].
    + assert (p = raw ∧ fs1 = fs) as [-> ->] by (split; congruence).
      constructor; [done|by eapply IH].
    + destruct (getFlowNodeId label fs) as [[id fs0]| |] eqn:Hg;
        cbn [mbind result_bind] in Ht; try done.
      assert (p = id ++ shape_open sh ++ label ++ shape_close sh ∧ fs1 = fs0) as [-> ->]
        by (split; congruence).
      destruct (getFlowNodeId_flow_inv _ _ _ _ Hinv Hg) as (Hinv0 & _ & Hid).
      constructor; [|by eapply IH].
      destruct (shape_no_newline sh). rewrite !not_elem_of_app. split_and!; try done.
      destruct Hid as [Hid|[Hin ->]]; [|by apply inherited_text_no_newline].
      destruct Hinv0 as [(_ & _ & Hall0) Hmap]. apply Hmap, Hall0 in Hid.
      by eapply word_no_newline, derived_id_word.
Qed.

Lemma preprocessFlowLine_no_newline line fs out fs' :
  flow_inv fs → 10 ∉ line →
  preprocessFlowLine line getFlowNodeId fs = Ok (out, fs') → 10 ∉ out.
Proof.
  intros Hinv Hline. unfold preprocessFlowLine.
  destruct (scan_loop _ _ _ _) as [toks| |] eqn:Hs; cbn [mbind result_bind]; try done.
  destruct (render_tokens getFlowNodeId toks fs) as [[parts fs0]| |] eqn:Hr;
    cbn [mbind result_bind]; try done.
  intros Heq.
  assert (out = leading_ws line ++ collapse_runs 32 (concat parts)) as -> by congruence.
  apply scan_loop_text in Hs; [|constructor].
  apply render_tokens_no_newline in Hr; [|done|].
  - rewrite not_elem_of_app. split.
    + intros H. by apply leading_ws_subseteq in H.
    + intros H. apply collapse_runs_subseteq, concat_elem_of in H as (p & Hp & Hin).
      rewrite Forall_forall in Hr. by apply (Hr p).
  - eapply Forall_impl; [exact Hs|]. intros t Ht H. simpl in Ht.
    by apply Ht, trim_subseteq in H.
Qed.

Lemma preprocessFlowchart_loop_lines lines res fs res' fs' :
  flow_inv fs → Forall (λ l, 10 ∉ l) lines →
  preprocessFlowchart_loop lines res fs = Ok (res', fs') →
  ∃ outs, res' = res ++ outs ∧ length outs = length lines ∧ Forall (λ l, 10 ∉ l) outs.
Proof.
  intros Hinv Hall. revert res fs Hinv.
  induction Hall as [|line rest Hline _ IH]; intros res fs Hinv; simpl.
  - intros [= <- _]. exists []. by rewrite app_nil_r.
  - destruct (flow_passthrough (trim line)).
    + intros (outs & -> & Hlen & Hfree)%IH; [|done].
      exists (line :: outs). rewrite <- (assoc_L (++)). simpl.
      split_and!; [done|by rewrite Hlen|by constructor].
    + destruct (preprocessFlowLine line getFlowNodeId fs) as [[out fs1]| |] eqn:Hl;
        simpl; try done.
      assert (flow_inv fs1) as Hinv1.
      { unfold preprocessFlowLine in Hl.
        destruct (scan_loop _ _ _ _) as [toks| |]; simpl in Hl; try done.
        destruct (render_tokens getFlowNodeId toks fs) as [[parts fs0]| |] eqn:Hr;
          simpl in Hl; try done.
        assert (fs1 = fs0) as -> by congruence. by eapply render_tokens_flow_inv. }
      intros (outs & -> & Hlen & Hfree)%IH; [|done].
      exists (out :: outs). rewrite <- (assoc_L (++)). simpl.
      split_and!; [done|by rewrite Hlen|].
      constructor; [|done]. by apply (preprocessFlowLine_no_newline line fs out fs1).
Qed.

End FlowLines.

(** X14.  The output of [preprocessFlowchart] has as many lines as the
    source: every line of the source gives one line without a line feed. The
    source holds no property name of [Object.prototype]. *)
Theorem preprocessFlowchart_line_count (code : jsstr) :
  no_inherited_key code →
  ∃ out st res, preprocessFlowchart code = Ok (out, st)
    ∧ out = join [10] res
    ∧ split_on 10 out = res
    ∧ length res = length (split_on 10 code).
Proof.
  intros _.
  destruct (preprocessFlowchart_total code) as (out & st & Hrun).
  unfold preprocessFlowchart in Hrun.
  destruct (preprocessFlowchart_loop _ _ _) as [[res fs]| |] eqn:Hl;
    cbn [mbind result_bind] in Hrun; try done.
  exists out, st, res. split; [by unfold preprocessFlowchart; rewrite Hl|].
  assert (out = join [10] res) as -> by congruence.
  apply preprocessFlowchart_loop_lines in Hl as (outs & Hres & Hlen & Hfree);
    [|apply flow_start_inv|apply split_on_free].
  simpl in Hres. subst outs. split_and!; [done| |done].
  apply split_on_join; [|done].
  pose proof (split_on_nonempty 10 code) as Hne.
  destruct res; [|done]. simpl in Hlen. by destruct (split_on 10 code).
Qed.

Lemma preprocessFlowchart_line_count_witness :
  ∃ out st res, preprocessFlowchart (js "flowchart TD

  `Start` --> `Ende`") = Ok (out, st)
    ∧ out = join [10] res
    ∧ split_on 10 out = res
    ∧ length res = length (split_on 10 (js "flowchart TD

  `Start` --> `Ende`")).
Proof.
  apply preprocessFlowchart_line_count. vm_compute. reflexivity.
Defined.

Section LayoutDirection.

Lemma direction_token_upper t :
  is_direction_token t = true → toUpperCase t ∈ direction_tokens.
Proof.
  unfold is_direction_token, eq_ci. rewrite !orb_true_iff, !bool_decide_eq_true.
  assert (∀ a l : N, lower_unit a = l → 97 ≤ l → l ≤ 122 → upper_unit a = l - 32) as Hup.
  { intros a l <- H1 H2. unfold lower_unit, upper_unit, is_upper, is_lower in *.
    repeat (case_match; try lia); repeat match goal with
      | H : (_ && _) = true |- _ => apply andb_true_iff in H as [?%N.leb_le ?%N.leb_le]
      | H : (_ && _) = false |- _ => apply andb_false_iff in H as [?%N.leb_gt|?%N.leb_gt]
      end; lia. }
  intros H. destruct t as [|a [|b [|? ?]]];
    try (by destruct H as [[[[H|H]|H]|H]|H]; vm_compute in H).
  unfold toUpperCase, direction_tokens. simpl.
  destruct H as [[[[H|H]|H]|H]|H]; vm_compute (map lower_unit (js _)) in H; simpl in H;
    injection H as Ha Hb;
    rewrite (Hup _ _ Ha), (Hup _ _ Hb) by lia; set_solver.
Qed.

Lemma line_direction_token l t : line_direction l = Some t → t ∈ direction_tokens.
Proof.
  unfold line_direction.
  destruct (erDeclMatch (trim l)) as [[[|c tok]|]|] eqn:Hd; try done.
  - intros Heq. apply (inj Some) in Heq. subst t.
    apply (direction_token_upper (c :: tok)).
    unfold erDeclMatch in Hd. destruct (eq_ci _ _); [|done].
    destruct (drop 9 (trim l)) as [|x r]; [done|].
    destruct (ws_then_direction (x :: r)) as [tok'|] eqn:Hw; [|done].
    injection Hd as ->. by eapply ws_then_direction_token.
  - destruct (dirMatch (trim l)) as [tok|] eqn:Hm; [|done]. simpl.
    intros Heq. apply (inj Some) in Heq. subst t. apply direction_token_upper.
    unfold dirMatch in Hm. destruct (eq_ci _ _); [|done].
    by eapply ws_then_direction_token.
Qed.

Lemma preprocessER_loop_direction_token lines s s' :
  (∀ t, er_direction s = Some t → t ∈ direction_tokens) →
  preprocessER_loop lines s = Ok s' →
  ∀ t, er_direction s' = Some t → t ∈ direction_tokens.
Proof.
  revert s. induction lines as [|l lines IH]; intros s Hs; simpl.
  - by intros [= <-].
  - destruct (preprocessER_line l s) as [s1| |] eqn:H1; simpl; try done.
    apply IH. intros t. rewrite (preprocessER_line_direction _ _ _ H1).
    destruct (line_direction l) as [t'|] eqn:Hl; simpl; [|by apply Hs].
    intros [= <-]. by eapply line_direction_token.
Qed.

Lemma layoutDirection_token d :
  (∀ t, d = Some t → t ∈ direction_tokens) → layoutDirection d ∈ direction_tokens.
Proof.
  intros H. destruct d as [[|c r]|]; simpl; [| |]; try (by apply H);
    unfold direction_tokens; set_solver.
Qed.

Lemma preprocessER_direction_token code out :
  preprocessER code = Ok out → layoutDirection (out_direction out) ∈ direction_tokens.
Proof.
  unfold preprocessER.
  destruct (preprocessER_loop _ _) as [s| |] eqn:Hl; simpl; try done.
  intros [= <-]. simpl. apply layoutDirection_token.
  eapply preprocessER_loop_direction_token; [|exact Hl]. done.
Qed.

End LayoutDirection.

(** X21.  [render] reaches Mermaid or the placeholder without an exception,
    the placeholder exactly for a blank editor, and the layout direction it
    hands to Mermaid is one of TD, TB, BT, LR and RL. This holds of every ER
    text, and of every other text that holds no property name of
    [Object.prototype]. *)
Theorem render_layout_direction (editor_value : jsstr) :
  (isER (trim editor_value) = false → no_inherited_key editor_value) →
  ∃ plan, render editor_value = Ok plan
    ∧ match plan with
      | ShowPlaceholder => trim editor_value = []
      | RenderDiagram processed direction pass =>
          trim editor_value ≠ [] ∧ direction ∈ direction_tokens
      end.
Proof.
  intros _. unfold render. destruct (trim editor_value) as [|c r] eqn:Hraw.
  - by exists ShowPlaceholder.
  - destruct (isER (c :: r)).
    + destruct (preprocessER_total (c :: r)) as [out Hout]. rewrite Hout. simpl.
      eexists. split; [done|]. simpl. split; [done|].
      by eapply preprocessER_direction_token.
    + destruct (preprocessFlowchart_total (c :: r)) as (out & st & Hout).
      rewrite Hout. simpl. eexists. split; [done|]. simpl. split; [done|].
      unfold direction_tokens. set_solver.
Qed.

Lemma render_layout_direction_witness :
  ∃ plan, render (js "erDiagram
    direction rl
    Kunde {
    }
") = Ok plan
    ∧ match plan with
      | ShowPlaceholder => trim (js "erDiagram
    direction rl
    Kunde {
    }
") = []
      | RenderDiagram processed direction pass =>
          trim (js "erDiagram
    direction rl
    Kunde {
    }
") ≠ [] ∧ direction ∈ direction_tokens
      end.
Proof.
  apply render_layout_direction. intros _. vm_compute. reflexivity.
Defined.

Section Escape.

Lemma flat_map_replace_free (c : N) (rep s : jsstr) :
  c ∉ rep → c ∉ flat_map (fun x => if x =? c then rep else [x]) s.
Proof.
  intros Hrep. induction s as [|x r IH]; simpl; [by intros ?%elem_of_nil|].
  rewrite not_elem_of_app. split; [|done].
  destruct (x =? c) eqn:Hx; [done|]. apply N.eqb_neq in Hx. set_solver.
Qed.

Lemma flat_map_replace_keeps (c d : N) (rep s : jsstr) :
  d ∉ rep → d ∉ s → d ∉ flat_map (fun x => if x =? c then rep else [x]) s.
Proof.
  intros Hrep. induction s as [|x r IH]; simpl; [done|].
  intros Hs. rewrite not_elem_of_app. split; [|set_solver].
  destruct (x =? c); [done|]. set_solver.
Qed.

Lemma flat_map_replace_id (c : N) (rep s : jsstr) :
  c ∉ s → flat_map (fun x => if x =? c then rep else [x]) s = s.
Proof.
  induction s as [|x r IH]; simpl; [done|]. intros Hs.
  rewrite IH by set_solver.
  assert (x =? c = false) as -> by (apply N.eqb_neq; set_solver). done.
Qed.

End Escape.

(** X23.  The error message that [render] writes into the preview holds no
    angle bracket, and a message without angle brackets is written as it is. *)
Theorem escape_message_no_markup (msg : jsstr) :
  60 ∉ escape_message msg ∧ 62 ∉ escape_message msg
  ∧ (60 ∉ msg → 62 ∉ msg → escape_message msg = msg).
Proof.
  unfold escape_message. split_and!.
  - apply flat_map_replace_keeps; [compute_done|].
    apply flat_map_replace_free. compute_done.
  - apply flat_map_replace_free. compute_done.
  - intros H1 H2. rewrite (flat_map_replace_id 60) by done.
    by apply flat_map_replace_id.
Qed.

Section Routing.

Lemma ws_not_word c : is_ws c = true → is_word c = false.
Proof.
  unfold is_ws, is_word, is_alnum, is_lower, is_upper, is_digit. intros H.
  repeat match goal with
  | H : (_ || _) = true |- _ => apply orb_true_iff in H as [H|H]
  | H : (_ && _) = true |- _ => apply andb_true_iff in H as [?%N.leb_le ?%N.leb_le]
  | H : (_ =? _) = true |- _ => apply N.eqb_eq in H
  end;
  repeat (apply orb_false_iff; split); try (apply andb_false_iff);
    rewrite ?N.leb_gt, ?N.eqb_neq; lia.
Qed.

(** Where a line of [split] lies in the text: the first line at the start,
    any other after a separator, and each before a separator or at the
    end. *)
Lemma split_on_elem sep s l0 ls :
  split_on sep s = l0 :: ls →
  (∃ post, s = l0 ++ post ∧ (post = [] ∨ head post = Some sep))
  ∧ ∀ l, l ∈ ls →
      ∃ pre post, s = pre ++ l ++ post ∧ last pre = Some sep
                  ∧ (post = [] ∨ head post = Some sep).
Proof.
  revert l0 ls. induction s as [|c r IH]; intros l0 ls; simpl.
  - intros [= <- <-]. split; [exists []; by split; [|left]|].
    by intros l ?%elem_of_nil.
  - destruct (c =? sep) eqn:Hc.
    + apply N.eqb_eq in Hc. subst c. intros [= <- <-].
      split; [exists (sep :: r); split; [done|by right]|].
      pose proof (split_on_nonempty sep r) as Hne.
      destruct (split_on sep r) as [|l1 ls1] eqn:Hs; [done|].
      destruct (IH _ _ eq_refl) as [(post & Hr & Hpost) Hrest].
      intros l [->|Hl]%elem_of_cons.
      * exists [sep], post. by rewrite Hr at 1.
      * destruct (Hrest l Hl) as (pre & post' & Hr' & Hlast & Hpost').
        exists (sep :: pre), post'. split_and!; [by rewrite Hr' at 1| |done].
        by destruct pre.
    + pose proof (split_on_nonempty sep r) as Hne.
      destruct (split_on sep r) as [|l1 ls1] eqn:Hs; [done|].
      intros [= <- <-].
      destruct (IH _ _ eq_refl) as [(post & Hr & Hpost) Hrest].
      split; [exists post; split; [by rewrite Hr at 1|done]|].
      intros l Hl. destruct (Hrest l Hl) as (pre & post' & Hr' & Hlast & Hpost').
      exists (c :: pre), post'. split_and!; [by rewrite Hr' at 1| |done].
      by destruct pre.
Qed.

Lemma leading_ws_trimStart s :
  s = leading_ws s ++ trimStart s ∧ Forall (λ c, is_ws c = true) (leading_ws s).
Proof.
  induction s as [|c r [IH1 IH2]]; [by split|]. simpl.
  destruct (is_ws c) eqn:Hc; [|by split].
  split; [simpl; by f_equal|by constructor].
Qed.

(** A text is its trimmed text between two runs of white space. *)
Lemma trim_between s :
  ∃ w1 w2, s = w1 ++ trim s ++ w2
           ∧ Forall (λ c, is_ws c = true) w1 ∧ Forall (λ c, is_ws c = true) w2.
Proof.
  destruct (leading_ws_trimStart s) as [Hs Hw1].
  destruct (leading_ws_trimStart (rev (trimStart s))) as [Ht Hw2].
  exists (leading_ws s), (rev (leading_ws (rev (trimStart s)))).
  split_and!; [|done|by apply Forall_rev].
  rewrite Hs at 1. f_equal. unfold trim, trimEnd.
  rewrite <- rev_app_distr, <- Ht. by rewrite rev_involutive.
Qed.

Lemma erDeclMatch_shape t g :
  erDeclMatch t = Some g →
  ∃ k rest, t = k ++ rest ∧ length k = 9%nat ∧ eq_ci k (js "erDiagram") = true
            ∧ (rest = [] ∨ ∃ c r, rest = c :: r ∧ is_ws c = true).
Proof.
  unfold erDeclMatch. destruct (eq_ci (take 9 t) (js "erDiagram")) eqn:He; [|done].
  intros Hg. exists (take 9 t), (drop 9 t). split_and!.
  - by rewrite take_drop.
  - unfold eq_ci in He. apply bool_decide_eq_true in He.
    apply (f_equal length) in He. by rewrite !length_map in He.
  - done.
  - destruct (drop 9 t) as [|x r]; [by left|right].
    exists x, r. split; [done|].
    unfold ws_then_direction in Hg. simpl in Hg.
    destruct (is_ws x); [done|]. simpl in Hg. done.
Qed.

Lemma keyword_boundary_here (k C : jsstr) :
  length k = 9%nat → eq_ci k (js "erDiagram") = true →
  (∀ c, head C = Some c → is_word c = false) →
  keyword_boundary true (js "erDiagram") (k ++ C) = true.
Proof.
  intros Hlen Hk HC. unfold keyword_boundary.
  change (length (js "erDiagram")) with 9%nat.
  rewrite take_app_length' by done. rewrite Hk. simpl.
  rewrite lookup_app_r by lia. rewrite Hlen. simpl.
  destruct C as [|c C']; simpl; [done|]. by rewrite (HC c).
Qed.

Lemma isER_from_found (A k C : jsstr) (after_word : bool) :
  (A = [] → after_word = false) →
  (∀ c, last A = Some c → is_word c = false) →
  length k = 9%nat → eq_ci k (js "erDiagram") = true →
  (∀ c, head C = Some c → is_word c = false) →
  isER_from after_word (A ++ k ++ C) = true.
Proof.
  intros HA Hlast Hlen Hk HC. revert after_word HA.
  induction A as [|a A' IH]; intros after_word HA.
  - rewrite (HA eq_refl). simpl app.
    destruct k as [|k0 k']; [done|]. cbn [app isER_from].
    change (k0 :: k' ++ C) with ((k0 :: k') ++ C).
    by rewrite keyword_boundary_here.
  - cbn [app isER_from]. rewrite IH; [by rewrite orb_true_r| |].
    + intros c Hc. apply Hlast. by destruct A'.
    + intros ->. by apply Hlast.
Qed.

Lemma declaration_line_isER raw l :
  l ∈ split_on 10 raw → is_declaration_line l → isER raw = true.
Proof.
  intros Hl [g Hg].
  apply erDeclMatch_shape in Hg as (k & rest & Ht & Hlen & Hk & Hrest).
  destruct (trim_between l) as (w1 & w2 & Hlw & Hw1 & Hw2). rewrite Ht in Hlw.
  assert (∃ pre post, raw = pre ++ l ++ post
            ∧ (pre = [] ∨ last pre = Some 10) ∧ (post = [] ∨ head post = Some 10))
    as (pre & post & Hraw & Hpre & Hpost).
  { destruct (split_on 10 raw) as [|l0 ls] eqn:Hs; [by apply elem_of_nil in Hl|].
    destruct (split_on_elem _ _ _ _ Hs) as [(post & Hr & Hpost) Hothers].
    apply elem_of_cons in Hl as [->|Hl].
    - exists [], post. split_and!; [done|by left|done].
    - destruct (Hothers l Hl) as (pre & post' & ? & ? & ?). exists pre, post'.
      split_and!; [done|by right|done]. }
  unfold isER.
  assert (raw = (pre ++ w1) ++ k ++ (rest ++ w2 ++ post)) as ->.
  { rewrite Hraw, Hlw. by rewrite <- !(assoc_L (++)). }
  apply isER_from_found; try done.
  - intros c. rewrite last_app.
    destruct (last w1) as [x|] eqn:Hx.
    + intros [= <-]. apply ws_not_word.
      rewrite Forall_forall in Hw1. apply Hw1.
      apply last_Some in Hx as [w' ->]. set_solver.
    + destruct Hpre as [->|Hp]; [done|]. rewrite Hp. by intros [= <-].
  - intros c. destruct Hrest as [->|(x & r & -> & Hx)].
    + simpl. destruct w2 as [|x w2']; simpl.
      * destruct Hpost as [->|Hp]; [done|]. rewrite Hp. by intros [= <-].
      * intros [= <-]. apply ws_not_word. by apply Forall_cons in Hw2 as [? _].
    + simpl. intros [= <-]. by apply ws_not_word.
Qed.

End Routing.

(** X22.  A source with a line that [preprocessER] reads as the declaration
    of an ER diagram is compiled by [preprocessER]. *)
Theorem render_routes_declared_ER (editor_value : jsstr) :
  (∃ l, l ∈ split_on 10 (trim editor_value) ∧ is_declaration_line l) →
  ∃ out, preprocessER (trim editor_value) = Ok out
    ∧ render editor_value
      = Ok (RenderDiagram (out_code out) (layoutDirection (out_direction out))
              (out_pass out)).
Proof.
  intros (l & Hl & Hd).
  destruct (preprocessER_total (trim editor_value)) as [out Hout].
  exists out. split; [done|]. unfold render.
  rewrite (declaration_line_isER _ _ Hl Hd), Hout.
  destruct (trim editor_value) as [|c r] eqn:Hraw; [|done].
  simpl in Hl. apply list_elem_of_singleton in Hl. subst l.
  by destruct Hd as [g Hg].
Qed.

Lemma render_routes_declared_ER_witness :
  ∃ out, preprocessER (trim (js "  erDiagram lr
  Kunde ||--o{ Auftrag : erteilt
")) = Ok out
    ∧ render (js "  erDiagram lr
  Kunde ||--o{ Auftrag : erteilt
")
      = Ok (RenderDiagram (out_code out) (layoutDirection (out_direction out))
              (out_pass out)).
Proof.
  apply render_routes_declared_ER.
  exists (js "erDiagram lr"). split.
  - vm_compute. left.
  - eexists. vm_compute. reflexivity.
Defined.

(** X16.  The identifier of an attribute is at least two units longer than
    the name it stands for, so it never is that name, and the pass records
    the name under it. *)
Theorem preprocessERAttribute_identifier_width (line : jsstr) (st : PassState)
    (name type : jsstr) (more : list jsstr) :
  splitCSV (trim line) = name :: type :: more →
  ∃ id st' tail,
    preprocessERAttribute line st
    = Ok (leading_ws line ++ id ++ js " " ++ type ++ tail, st')
    ∧ (length name + 2 ≤ length id)%nat
    ∧ id ≠ name
    ∧ id ∈ usedIds st' ∧ nm_get (nameMapping st') id = Some name.
Proof.
  intros Hp.
  destruct (preprocessERAttribute_fields line st name type more Hp) as (id & Hid & Hout).
  exists id, (record_id id name st),
    (key_suffix (fields_key more) ++ comment_suffix (fields_comment more)).
  split; [done|].
  assert (length name + 2 ≤ length id)%nat as Hlen.
  { destruct (getUniqueId_shape name (Some (N.of_nat (length name) + 2)) st)
      as (id' & k & Hid' & Hd & Hk & _).
    rewrite Hid in Hid'. injection Hid' as <-. simpl in Hk.
    destruct Hd as [->|(n & _ & ->)]; rewrite ?length_app, ?length_replicate; lia. }
  split_and!; [done| |apply record_id_assigned..].
  intros ->. lia.
Qed.

Lemma preprocessERAttribute_identifier_width_witness :
  ∃ id st' tail,
    preprocessERAttribute (js "    Fläche in m², float") pass_start
    = Ok (leading_ws (js "    Fläche in m², float") ++ id ++ js " " ++ js "float" ++ tail, st')
    ∧ (length (js "Fläche in m²") + 2 ≤ length id)%nat
    ∧ id ≠ js "Fläche in m²"
    ∧ id ∈ usedIds st' ∧ nm_get (nameMapping st') id = Some (js "Fläche in m²").
Proof.
  apply (preprocessERAttribute_identifier_width _ _ _ _ []). reflexivity.
Defined.

Section Zoom.

Lemma clamp_cases (x : spec_float) :
  let z := Math_min (num_of_Z 500) (Math_max (num_of_Z 10) x) in
  (x = S754_nan ∧ z = S754_nan)
  ∨ (x ≠ S754_nan
     ∧ ((z = x ∧ SFltb (num_of_Z 10) x = true ∧ SFltb x (num_of_Z 500) = true)
        ∨ (z = num_of_Z 500 ∧ SFltb (num_of_Z 10) x = true
           ∧ SFltb x (num_of_Z 500) = false)
        ∨ (z = num_of_Z 10 ∧ SFltb (num_of_Z 10) x = false))).
Proof.
  destruct x as [s|s| |s m e]; [right|right|left|right]; try done.
  - split; [done|]. right. right. by destruct s; vm_compute.
  - split; [done|]. destruct s; [right; right|right; left]; by vm_compute.
  - split; [done|].
    change (num_of_Z 10) with (S754_finite false 5629499534213120 (-49)).
    change (num_of_Z 500) with (S754_finite false 8796093022208000 (-44)).
    unfold Math_min, Math_max. cbn [is_nan orb].
    change (max_step (S754_infinity true) (S754_finite false 5629499534213120 (-49)))
      with (S754_finite false 5629499534213120 (-49)).
    change (min_step (S754_infinity false) (S754_finite false 8796093022208000 (-44)))
      with (S754_finite false 8796093022208000 (-44)).
    unfold max_step.
    destruct (SFltb (S754_finite false 5629499534213120 (-49)) (S754_finite s m e)) eqn:H10.
    + unfold min_step.
      destruct (SFltb (S754_finite s m e) (S754_finite false 8796093022208000 (-44)))
        eqn:H500; [by left|right; left; done].
    + right. right. done.
Qed.

Lemma SFltb_SFleb a b : SFltb a b = true → SFleb a b = true.
Proof. unfold SFltb, SFleb. by destruct (SFcompare a b) as [[]|]. Qed.

End Zoom.

(** X24.  After [zoomBy] the zoom is a number from 10 to 500, unless the sum
    of the old zoom and the step is not a number. *)
Theorem zoomBy_clamps_zoom (delta cx cy : spec_float) (v : View) :
  let z := currentZoom (zoomBy delta cx cy v) in
  (num_add (currentZoom v) delta = S754_nan ∧ z = S754_nan)
  ∨ (num_add (currentZoom v) delta ≠ S754_nan
     ∧ SFleb (num_of_Z 10) z = true ∧ SFleb z (num_of_Z 500) = true
     ∧ (z = num_add (currentZoom v) delta ∨ z = num_of_Z 10 ∨ z = num_of_Z 500)).
Proof.
  simpl. destruct (clamp_cases (num_add (currentZoom v) delta))
    as [[Hx Hz]|[Hx [(Hz & H1 & H2)|[(Hz & H1 & H2)|(Hz & H1)]]]]; simpl in Hz; rewrite Hz.
  - by left.
  - right. split; [done|]. split_and!; [by apply SFltb_SFleb..|by left].
  - right. split; [done|]. split_and!; [done..|by right; right].
  - right. split; [done|]. split_and!; [done..|by right; left].
Qed.

Section QuotedEdge.

Lemma lookup_drop_head (rest : jsstr) (pos : nat) c t :
  drop pos rest = c :: t → rest !! pos = Some c.
Proof.
  intros H. rewrite <- (Nat.add_0_r pos), <- lookup_drop, H. done.
Qed.

Lemma drop_drop_cons (rest : jsstr) (pos : nat) c t :
  drop pos rest = c :: t → drop (pos + 1) rest = t.
Proof.
  intros H. by rewrite <- drop_drop, H.
Qed.

Lemma indexOf1_app_free c (s t : jsstr) :
  c ∉ s → indexOf1 c (s ++ c :: t) = Some (length s).
Proof.
  induction s as [|x r IH]; simpl; intros Hs.
  - by rewrite N.eqb_refl.
  - assert (x =? c = false) as -> by (apply N.eqb_neq; set_solver).
    rewrite IH by set_solver. done.
Qed.

Lemma scan_step_ws rest (pos : nat) c t :
  drop pos rest = c :: t → is_ws c = true → scan_step rest pos = (None, S pos).
Proof.
  intros Hd Hc. unfold scan_step. by rewrite (lookup_drop_head _ _ _ _ Hd), Hc.
Qed.

(** A quoted label at [pos]. *)
Lemma scan_step_quoted rest (pos : nat) label t :
  drop pos rest = 34 :: label ++ 34 :: t → 34 ∉ label →
  scan_step rest pos = (Some (TNode label rect), (pos + length label + 2)%nat).
Proof.
  intros Hd Hl. unfold scan_step. rewrite (lookup_drop_head _ _ _ _ Hd).
  change (is_ws 34) with false. cbn iota.
  assert (scan_arrow rest pos = None) as ->.
  { unfold scan_arrow. by rewrite Hd. }
  assert (scan_brace rest pos = None) as ->.
  { unfold scan_brace, has_unit. by rewrite (lookup_drop_head _ _ _ _ Hd). }
  assert (scan_quote rest pos = Some (TNode label rect, (pos + length label + 2)%nat)) as ->.
  { unfold scan_quote, has_unit, indexOf_from.
    rewrite (lookup_drop_head _ _ _ _ Hd). 
    rewrite bool_decide_eq_true_2 by done.
    rewrite (drop_drop_cons _ _ _ _ Hd), indexOf1_app_free by done. simpl.
    replace (pos + 1 + length label - (pos + 1))%nat with (length label) by lia.
    rewrite take_app_length. do 2 f_equal. lia. }
  done.
Qed.

Lemma arrow_label_other c t : c ≠ 124 → arrow_label (c :: t) = 0%nat.
Proof.
  intros Hc. destruct c as [|p]; [done|]. unfold arrow_label.
  repeat (destruct p as [p|p|]; try done).
Qed.

(** The arrow [-->] at [pos], before a unit that opens no label. *)
Lemma scan_step_arrow rest (pos : nat) c t :
  drop pos rest = 45 :: 45 :: 62 :: c :: t → c ≠ 124 →
  scan_step rest pos = (Some (TArrow (js "-->")), (pos + 3)%nat).
Proof.
  intros Hd Hc. unfold scan_step. rewrite (lookup_drop_head _ _ _ _ Hd).
  change (is_ws 45) with false. cbn iota.
  assert (scan_arrow rest pos = Some (TArrow (js "-->"), (pos + 3)%nat)) as ->; [|done].
  unfold scan_arrow. rewrite Hd.
  assert (arrowMatch (45 :: 45 :: 62 :: c :: t) = Some 3%nat) as ->; [|done].
  unfold arrowMatch.
  assert (arrow_body (45 :: 45 :: 62 :: c :: t) = Some 3%nat) as -> by done.
  change (drop 3 (45 :: 45 :: 62 :: c :: t)) with (c :: t).
  rewrite arrow_label_other by done. done.
Qed.

End QuotedEdge.

Section QuotedChain.

Lemma drop_lt_length (rest : jsstr) (pos : nat) c t :
  drop pos rest = c :: t → (pos < length rest)%nat.
Proof.
  intros H. apply (f_equal length) in H. rewrite length_drop in H. simpl in H. lia.
Qed.

Lemma drop_length_eq (rest : jsstr) (pos : nat) s :
  drop pos rest = s → (pos ≤ length rest)%nat → length rest = (pos + length s)%nat.
Proof. intros <- H. rewrite length_drop. lia. Qed.

Lemma scan_loop_end (fuel : nat) rest toks :
  scan_loop fuel rest (length rest) toks = Ok toks.
Proof. destruct fuel; simpl; by rewrite Nat.ltb_irrefl. Qed.

Lemma scan_loop_unroll (fuel : nat) rest (pos : nat) toks tok pos' c t :
  drop pos rest = c :: t → scan_step rest pos = (tok, pos') →
  scan_loop (S fuel) rest pos toks = scan_loop fuel rest pos' (toks ++ option_list tok).
Proof.
  intros Hd Hs. cbn [scan_loop].
  apply drop_lt_length, Nat.ltb_lt in Hd. by rewrite Hd, Hs.
Qed.

Lemma chain_text_cons l l2 ls :
  join (js " --> ") (map quoted (l :: l2 :: ls))
  = 34 :: l ++ 34 :: 32 :: 45 :: 45 :: 62 :: 32 :: join (js " --> ") (map quoted (l2 :: ls)).
Proof.
  change (map quoted (l :: l2 :: ls)) with (quoted l :: map quoted (l2 :: ls)).
  change (map quoted (l2 :: ls)) with (quoted l2 :: map quoted ls).
  cbn [join]. unfold quoted at 1. simpl. by rewrite <- (assoc_L (++)).
Qed.

Lemma chain_text_head l ls :
  ∃ t, join (js " --> ") (map quoted (l :: ls)) = 34 :: t.
Proof. destruct ls; [by eexists|]. rewrite chain_text_cons. by eexists. Qed.

(** The scanner on a chain of quoted nodes that ends the line. *)
Lemma scan_loop_chain ls : ∀ l rest (pos fuel : nat) toks,
  drop pos rest = join (js " --> ") (map quoted (l :: ls)) →
  Forall (λ x, 34 ∉ x) (l :: ls) →
  (length (join (js " --> ") (map quoted (l :: ls))) ≤ fuel)%nat →
  scan_loop fuel rest pos toks = Ok (toks ++ chain_tokens (l :: ls)).
Proof.
  induction ls as [|l2 ls IH]; intros l rest pos fuel toks Hd Hall Hfuel.
  - simpl in Hd. unfold quoted in *. simpl in Hfuel.
    apply Forall_cons in Hall as [Hl _].
    destruct fuel as [|f]; [lia|].
    rewrite (scan_loop_unroll _ _ _ _ _ _ _ _ Hd (scan_step_quoted _ _ _ [] Hd Hl)).
    assert (pos + length l + 2 = length rest)%nat as ->.
    { pose proof (drop_lt_length _ _ _ _ Hd).
      rewrite (drop_length_eq _ _ _ Hd) by lia. simpl. rewrite length_app. simpl. lia. }
    apply scan_loop_end.
  - rewrite chain_text_cons in Hd, Hfuel.
    apply Forall_cons in Hall as [Hl Hall].
    set (tail := join (js " --> ") (map quoted (l2 :: ls))) in *.
    simpl in Hfuel. rewrite length_app in Hfuel. simpl in Hfuel.
    assert (∀ k : nat, drop (pos + length l + 2 + k) rest
                       = drop k (32 :: 45 :: 45 :: 62 :: 32 :: tail)) as Hk.
    { intros k.
      replace (pos + length l + 2 + k)%nat with (pos + (S (length l + S k)))%nat by lia.
      rewrite <- drop_drop, Hd. cbn [drop].
      rewrite <- drop_drop. by rewrite drop_app_length. }
    do 4 (destruct fuel as [|fuel]; [lia|]).
    rewrite (scan_loop_unroll _ _ _ _ _ _ _ _ Hd (scan_step_quoted _ _ _ _ Hd Hl)).
    pose proof (Hk 0%nat) as H0. rewrite Nat.add_0_r in H0. cbn [drop] in H0.
    rewrite (scan_loop_unroll _ _ _ _ _ _ _ _ H0 (scan_step_ws _ _ _ _ H0 eq_refl)).
    pose proof (Hk 1%nat) as H1. cbn [drop] in H1.
    replace (S (pos + length l + 2)) with (pos + length l + 2 + 1)%nat by lia.
    assert (32 ≠ 124) as Hne by done.
    rewrite (scan_loop_unroll _ _ _ _ _ _ _ _ H1 (scan_step_arrow _ _ _ _ H1 Hne)).
    pose proof (Hk 4%nat) as H4. cbn [drop] in H4.
    replace (pos + length l + 2 + 1 + 3)%nat with (pos + length l + 2 + 4)%nat by lia.
    rewrite (scan_loop_unroll _ _ _ _ _ _ _ _ H4 (scan_step_ws _ _ _ _ H4 eq_refl)).
    pose proof (Hk 5%nat) as H5. cbn [drop] in H5.
    replace (S (pos + length l + 2 + 4)) with (pos + length l + 2 + 5)%nat by lia.
    rewrite (IH l2 rest _ fuel _ H5 Hall) by (unfold tail in Hfuel; lia).
    f_equal. simpl. by rewrite <- !(assoc_L (++)).
Qed.

Lemma render_tokens_chain labels : ∀ fs ids fs',
  flow_ids labels fs = Ok (ids, fs') →
  ∃ parts, render_tokens getFlowNodeId (chain_tokens labels) fs = Ok (parts, fs')
           ∧ concat parts = join (js " --> ") (zip_with node_text ids labels).
Proof.
  induction labels as [|l ls IH]; intros fs ids fs'; cbn [flow_ids].
  - intros Heq. assert (ids = [] ∧ fs' = fs) as [-> ->] by (split; congruence).
    by exists [].
  - destruct (getFlowNodeId l fs) as [[id fs1]| |] eqn:Hg; cbn [mbind result_bind];
      try done.
    destruct (flow_ids ls fs1) as [[ids' fs2]| |] eqn:Hr; cbn [mbind result_bind];
      try done.
    intros Heq. assert (ids = id :: ids' ∧ fs' = fs2) as [-> ->] by (split; congruence).
    destruct (IH _ _ _ Hr) as (parts & Hparts & Hcat).
    destruct ls as [|l2 ls'].
    + cbn [flow_ids] in Hr. assert (ids' = [] ∧ fs2 = fs1) as [-> ->] by (split; congruence).
      exists [node_text id l]. cbn [chain_tokens render_tokens render_token].
      rewrite Hg. cbn [mbind result_bind]. split; [done|]. simpl. by rewrite app_nil_r.
    + exists (node_text id l :: js " --> " :: parts).
      change (chain_tokens (l :: l2 :: ls'))
        with (TNode l rect :: TArrow (js "-->") :: chain_tokens (l2 :: ls')).
      cbn [render_tokens render_token]. rewrite Hg. cbn [mbind result_bind].
      rewrite Hparts. cbn [mbind result_bind]. split; [done|].
      cbn [concat]. rewrite Hcat.
      destruct ids' as [|id2 ids'']; [|done].
      cbn [flow_ids] in Hr.
      destruct (getFlowNodeId l2 fs1) as [[? ?]| |]; cbn [mbind result_bind] in Hr;
        try done.
      destruct (flow_ids ls' f) as [[? ?]| |]; cbn [mbind result_bind] in Hr; done.
Qed.

Lemma flow_ids_total labels : ∀ fs,
  ∃ ids fs', flow_ids labels fs = Ok (ids, fs') ∧ length ids = length labels.
Proof.
  induction labels as [|l ls IH]; intros fs; cbn [flow_ids]; [by exists [], fs|].
  destruct (getFlowNodeId_total l fs) as (id & fs1 & ->). cbn [mbind result_bind].
  destruct (IH fs1) as (ids & fs2 & -> & Hlen). cbn [mbind result_bind].
  exists (id :: ids), fs2. split; [done|]. simpl. by rewrite Hlen.
Qed.

Lemma leading_ws_app_ws w c t :
  Forall (λ x, is_ws x = true) w → is_ws c = false → leading_ws (w ++ c :: t) = w.
Proof.
  intros Hw Hc. induction Hw as [|x r Hx _ IH]; simpl; [by rewrite Hc|].
  by rewrite Hx, IH.
Qed.

Lemma trimStart_app_ws w c t :
  Forall (λ x, is_ws x = true) w → is_ws c = false → trimStart (w ++ c :: t) = c :: t.
Proof.
  intros Hw Hc. induction Hw as [|x r Hx _ IH]; simpl; [by rewrite Hc|].
  by rewrite Hx.
Qed.

Lemma trimEnd_last_non_ws s c : is_ws c = false → trimEnd (s ++ [c]) = s ++ [c].
Proof.
  intros Hc. unfold trimEnd. rewrite rev_app_distr. simpl. rewrite Hc.
  change (c :: rev s) with ([c] ++ rev s). rewrite rev_app_distr, rev_involutive. done.
Qed.

Lemma chain_text_last l ls :
  ∃ t, join (js " --> ") (map quoted (l :: ls)) = t ++ [34].
Proof.
  revert l. induction ls as [|l2 ls IH]; intros l.
  - exists (34 :: l). done.
  - rewrite chain_text_cons. destruct (IH l2) as [t ->].
    exists (34 :: l ++ 34 :: 32 :: 45 :: 45 :: 62 :: 32 :: t).
    simpl. f_equal. rewrite <- (assoc_L (++)). done.
Qed.

End QuotedChain.

(** X18.  A line that is a chain of quoted labels joined by [-->] is
    rewritten node by node: every label gets its identifier in front and
    square brackets around, the arrows stay, and runs of spaces are
    collapsed. No label is a property name of [Object.prototype]. *)
Theorem preprocessFlowLine_quoted_chain (indent : jsstr) (labels : list jsstr)
    (fs : FlowState) :
  Forall (λ c, is_ws c = true) indent → labels ≠ [] → Forall (λ l, 34 ∉ l) labels →
  Forall (λ l, l ∉ inherited_keys) labels →
  ∃ ids fs', flow_ids labels fs = Ok (ids, fs') ∧ length ids = length labels
    ∧ preprocessFlowLine (indent ++ join (js " --> ") (map quoted labels)) getFlowNodeId fs
      = Ok (indent ++ collapse_runs 32 (join (js " --> ") (zip_with node_text ids labels)),
            fs').
Proof.
  intros Hindent Hne Hall _. destruct labels as [|l ls]; [done|].
  destruct (flow_ids_total (l :: ls) fs) as (ids & fs' & Hids & Hlen).
  exists ids, fs'. split_and!; [done..|].
  destruct (chain_text_head l ls) as [t Ht]. destruct (chain_text_last l ls) as [t' Ht'].
  unfold preprocessFlowLine.
  assert (leading_ws (indent ++ join (js " --> ") (map quoted (l :: ls))) = indent) as ->.
  { rewrite Ht. by apply leading_ws_app_ws. }
  assert (trim (indent ++ join (js " --> ") (map quoted (l :: ls)))
          = join (js " --> ") (map quoted (l :: ls))) as ->.
  { unfold trim. rewrite Ht at 1. rewrite trimStart_app_ws by done. rewrite <- Ht, Ht'.
    by apply trimEnd_last_non_ws. }
  rewrite (scan_loop_chain ls l _ 0%nat _ []); [|done|done|done].
  cbn [mbind result_bind app].
  destruct (render_tokens_chain _ _ _ _ Hids) as (parts & Hparts & Hcat).
  rewrite Hparts. cbn [mbind result_bind]. by rewrite Hcat.
Qed.

Lemma preprocessFlowLine_quoted_chain_witness :
  ∃ ids fs', flow_ids [js "Antrag prüfen"; js "Bescheid  erstellen"] (mkFlow pass_start ∅)
             = Ok (ids, fs') ∧ length ids = 2%nat
    ∧ preprocessFlowLine
        (js "    " ++ join (js " --> ") (map quoted [js "Antrag prüfen"; js "Bescheid  erstellen"]))
        getFlowNodeId (mkFlow pass_start ∅)
      = Ok (js "    " ++ collapse_runs 32 (join (js " --> ")
              (zip_with node_text ids [js "Antrag prüfen"; js "Bescheid  erstellen"])),
            fs').
Proof.
  apply (preprocessFlowLine_quoted_chain (js "    ")
           [js "Antrag prüfen"; js "Bescheid  erstellen"] (mkFlow pass_start ∅)).
  - by repeat constructor.
  - done.
  - repeat constructor; compute_done.
  - repeat constructor; compute_done.
Defined.

Section DirectionMenu.

Lemma search_none {A} (here : jsstr → option A) (s : jsstr) :
  (∀ i : nat, here (drop i s) = None) →
  ∀ (b : bool) (pos : nat), search_line_start here b s pos = None.
Proof.
  induction s as [|c r IH]; intros Hs b pos; cbn [search_line_start].
  - pose proof (Hs 0%nat) as H0. simpl in H0. rewrite H0. by destruct b.
  - pose proof (Hs 0%nat) as H0. simpl in H0. rewrite H0.
    assert ((if b then None else None) = (None : option A)) as -> by (by destruct b).
    apply IH. intros i. apply (Hs (S i)).
Qed.

Lemma search_at_start {A} (here : jsstr → option A) (s : jsstr) (pos : nat) m :
  here s = Some m → search_line_start here true s pos = Some (pos, m).
Proof. intros H. destruct s; cbn [search_line_start]; by rewrite H. Qed.

(** A text without the word [direction] has no stale statement. *)
Lemma no_direction_no_stale (s : jsstr) :
  (∀ i : nat, eq_ci (take 9 (drop i s)) (js "direction") = false) →
  search_line_start stale_direction_here true s 0 = None.
Proof.
  intros Hs. apply search_none. intros i. unfold stale_direction_here.
  by rewrite drop_drop, Hs.
Qed.

Lemma eq_ci_letters (k kw : jsstr) :
  eq_ci k kw = true → Forall (λ c, is_lower (lower_unit c) = true) kw →
  length k = length kw ∧ Forall (λ c, is_lower c || is_upper c = true) k.
Proof.
  unfold eq_ci. rewrite bool_decide_eq_true. revert kw.
  induction k as [|c k IH]; intros [|x kw]; simpl; try done.
  intros [= Hc Hk] [Hx Hkw]%Forall_cons. destruct (IH _ Hk Hkw) as [Hlen Hall].
  split; [by rewrite Hlen|]. constructor; [|done].
  rewrite <- Hc in Hx. unfold lower_unit in Hx.
  destruct (is_upper c) eqn:Hu; [by rewrite orb_true_r|]. by rewrite Hx.
Qed.

Lemma letter_facts c :
  is_lower c || is_upper c = true →
  is_ws c = false ∧ is_word c = true ∧ c ≠ 10 ∧ c ≠ 36.
Proof.
  unfold is_ws, is_word, is_alnum, is_lower, is_upper, is_digit. intros H.
  apply orb_true_iff in H as [H|H];
    apply andb_true_iff in H as [H1%N.leb_le H2%N.leb_le];
    split_and!; try lia;
    repeat (apply orb_false_iff; split); try (apply andb_false_iff);
    rewrite ?N.leb_gt, ?N.eqb_neq, ?orb_true_iff, ?andb_true_iff, ?N.leb_le; lia.
Qed.

Lemma direction_token_letters tok :
  is_direction_token tok = true →
  length tok = 2%nat ∧ Forall (λ c, is_lower c || is_upper c = true) tok.
Proof.
  unfold is_direction_token. rewrite !orb_true_iff.
  intros [[[[H|H]|H]|H]|H]; apply eq_ci_letters in H; try done;
    by repeat constructor.
Qed.

Lemma keyword_letters k :
  eq_ci k (js "erDiagram") = true →
  length k = 9%nat ∧ Forall (λ c, is_lower c || is_upper c = true) k.
Proof. intros H. apply eq_ci_letters in H; [done|by repeat constructor]. Qed.

Lemma leading_ws_letter (s t : jsstr) c :
  is_lower c || is_upper c = true → leading_ws (c :: s) = [].
Proof. intros (Hc & _)%letter_facts. simpl. by rewrite Hc. Qed.

Lemma ws_token_here_shorthand ws tok rest :
  ws ≠ [] → Forall (λ c, is_ws c = true) ws → is_direction_token tok = true →
  ws_token_here (ws ++ tok ++ rest) = Some ((length ws + 2)%nat, tok).
Proof.
  intros Hne Hws Htok. unfold ws_token_here.
  destruct (direction_token_letters _ Htok) as [Hlen Hall].
  destruct tok as [|c tok']; [done|]. apply Forall_cons in Hall as [Hc _].
  apply letter_facts in Hc as (Hc & _).
  change ((c :: tok') ++ rest) with (c :: tok' ++ rest).
  rewrite (leading_ws_app_ws ws c (tok' ++ rest)) by done.
  rewrite drop_app_length.
  change (c :: tok' ++ rest) with ((c :: tok') ++ rest).
  rewrite take_app_length' by done. rewrite Htok.
  destruct ws; [done|]. done.
Qed.

Lemma drop_leading_ws s : drop (length (leading_ws s)) s = trimStart s.
Proof.
  induction s as [|c r IH]; [done|]. simpl. destruct (is_ws c); [|done]. apply IH.
Qed.

Lemma ws_token_here_none C :
  is_direction_token (take 2 (trimStart C)) = false → ws_token_here C = None.
Proof.
  intros H. unfold ws_token_here. by rewrite drop_leading_ws, H, andb_false_r.
Qed.

Lemma capture_text_first g caps : capture_text (Some g :: caps) 1 = Some g.
Proof. done. Qed.

Lemma getSubstitution_captures_plain matched before after caps template :
  36 ∉ template →
  getSubstitution_captures matched before after caps template = template.
Proof.
  induction template as [|c r IH]; [done|]. intros Hc. cbn [getSubstitution_captures].
  assert (c =? 36 = false) as -> by (apply N.eqb_neq; set_solver).
  f_equal. apply IH. set_solver.
Qed.

(** The replacement text of the two templates of the source. *)
Lemma substitute_group_and_direction matched before after g caps dir :
  36 ∉ dir →
  getSubstitution_captures matched before after (Some g :: caps) (js "$1 " ++ dir)
  = g ++ js " " ++ dir.
Proof.
  intros Hdir. change (js "$1 " ++ dir) with (36 :: 49 :: 32 :: dir).
  cbn [getSubstitution_captures]. simpl N.eqb. cbn iota.
  change (is_digit 49) with true. change (is_digit 32) with false. cbn iota. simpl andb.
  cbn iota. change (digit_value 49) with 1%nat. rewrite capture_text_first.
  by rewrite (getSubstitution_captures_plain _ _ _ _ _ Hdir).
Qed.

Lemma substitute_group matched before after g caps :
  getSubstitution_captures matched before after (Some g :: caps) (js "$1") = g.
Proof.
  change (js "$1") with [36; 49]. cbn [getSubstitution_captures]. simpl N.eqb. cbn iota.
  change (is_digit 49) with true. cbn iota. change (digit_value 49) with 1%nat.
  rewrite capture_text_first. apply app_nil_r.
Qed.

Lemma direction_tokens_facts dir :
  dir ∈ direction_tokens →
  dir ≠ [] ∧ 36 ∉ dir ∧ 10 ∉ dir ∧ is_direction_token dir = true ∧ toUpperCase dir = dir.
Proof.
  unfold direction_tokens. intros H.
  repeat (apply elem_of_cons in H as [->|H];
          [split_and!; [done|compute_done|compute_done|done|done]|]).
  by apply elem_of_nil in H.
Qed.

(** The declaration at the start of the text, as the pattern of the
    declaration matches it. *)
Lemma er_decl_here_start k C :
  eq_ci k (js "erDiagram") = true → (∀ c, head C = Some c → is_word c = false) →
  er_decl_here (k ++ C)
  = match ws_token_here C with
    | Some (n, tok) => Some ((9 + n)%nat, [Some k; Some (take n C); Some tok])
    | None => Some (9%nat, [Some k; None; None])
    end.
Proof.
  intros Hk HC. destruct (keyword_letters k Hk) as [Hlen Hall].
  unfold er_decl_here.
  assert (leading_ws (k ++ C) = []) as ->.
  { destruct k as [|c k']; [done|]. apply Forall_cons in Hall as [Hc _].
    by apply (leading_ws_letter (k' ++ C) []). }
  cbn [length Nat.add]. rewrite drop_0, keyword_boundary_here by done.
  rewrite take_app_length', drop_app_length' by done. done.
Qed.

Lemma er_shorthand_here_start k C :
  eq_ci k (js "erDiagram") = true →
  er_shorthand_here (k ++ C)
  = match ws_token_here C with
    | Some (n, tok) => Some ((9 + n)%nat, [Some k; Some tok])
    | None => None
    end.
Proof.
  intros Hk. destruct (keyword_letters k Hk) as [Hlen Hall].
  unfold er_shorthand_here.
  assert (leading_ws (k ++ C) = []) as ->.
  { destruct k as [|c k']; [done|]. apply Forall_cons in Hall as [Hc _].
    by apply (leading_ws_letter (k' ++ C) []). }
  cbn [length Nat.add]. rewrite drop_0.
  rewrite take_app_length', drop_app_length' by done. by rewrite Hk.
Qed.

Lemma isER_declaration_start k C :
  eq_ci k (js "erDiagram") = true → (∀ c, head C = Some c → is_word c = false) →
  isER (k ++ C) = true.
Proof.
  intros Hk HC. destruct (keyword_letters k Hk) as [Hlen _].
  apply (isER_from_found [] k C false); done.
Qed.

Lemma replace_match_start (k C : jsstr) (n : nat) caps template :
  replace_match (k ++ C) 0 (length k + n) caps template
  = getSubstitution_captures (k ++ take n C) [] (drop n C) caps template ++ drop n C.
Proof.
  unfold replace_match. rewrite take_0, drop_0, Nat.add_0_l.
  rewrite take_app_add', drop_app_add' by done. done.
Qed.

(** What [applyDirectionToEditor] makes of a text that starts with the
    declaration and does not hold the word [direction]. *)
Lemma applyDirectionToEditor_start dir k C :
  dir ∈ direction_tokens →
  eq_ci k (js "erDiagram") = true →
  (∀ c, head C = Some c → is_word c = false) →
  (∀ i : nat, eq_ci (take 9 (drop i (k ++ C))) (js "direction") = false) →
  applyDirectionToEditor dir (k ++ C)
  = k ++ js " " ++ dir
      ++ drop (match ws_token_here C with Some (n, _) => n | None => 0%nat end) C.
Proof.
  intros Hdir Hk HC Hno. destruct (direction_tokens_facts dir Hdir) as (Hne & Hplain & _).
  destruct (keyword_letters k Hk) as [Hlen _].
  unfold applyDirectionToEditor.
  rewrite isER_declaration_start, no_direction_no_stale by done.
  destruct dir as [|d dir']; [done|]. unfold replace_first.
  pose proof (er_decl_here_start k C Hk HC) as Hhere.
  destruct (ws_token_here C) as [[n tok]|].
  - rewrite (search_at_start _ _ _ _ Hhere).
    rewrite <- Hlen, replace_match_start.
    rewrite substitute_group_and_direction by done. by rewrite <- !(assoc_L (++)).
  - rewrite (search_at_start _ _ _ _ Hhere).
    rewrite <- (Nat.add_0_r 9), <- Hlen, replace_match_start.
    rewrite substitute_group_and_direction by done.
    rewrite drop_0. by rewrite <- !(assoc_L (++)).
Qed.

Lemma occurs_ci_false kw s :
  occurs_ci kw s = false → ∀ i : nat, eq_ci (take (length kw) (drop i s)) kw = false.
Proof.
  induction s as [|c r IH]; cbn [occurs_ci]; intros [H1 H2]%orb_false_iff i.
  - by destruct i.
  - destruct i as [|i]; [done|]. by apply IH.
Qed.

Lemma no_erDiagram_not_ER s :
  occurs_ci (js "erDiagram") s = false → ∀ b, isER_from b s = false.
Proof.
  induction s as [|c r IH]; [done|]. cbn [occurs_ci isER_from].
  intros [H1 H2]%orb_false_iff b. rewrite (IH H2), orb_false_r.
  unfold keyword_boundary. change (length (js "erDiagram")) with 9%nat in *.
  by rewrite H1, andb_false_r.
Qed.

Lemma flow_header_here_start kw C :
  eq_ci kw (js "flowchart") = true ∨ eq_ci kw (js "graph") = true →
  flow_header_here (kw ++ C)
  = match ws_token_here C with
    | Some (n, tok) => Some ((length kw + n)%nat, [Some kw; Some tok])
    | None => None
    end.
Proof.
  intros Hkw.
  assert (length kw = (if eq_ci kw (js "flowchart") then 9 else 5)%nat
          ∧ Forall (λ c, is_lower c || is_upper c = true) kw) as [Hlen Hall].
  { destruct Hkw as [H|H].
    - rewrite H. apply eq_ci_letters in H; [done|by repeat constructor].
    - assert (eq_ci kw (js "flowchart") = false) as ->.
      { destruct (eq_ci kw (js "flowchart")) eqn:Hf; [|done].
        apply eq_ci_letters in H as [H _]; [|by repeat constructor].
        apply eq_ci_letters in Hf as [Hf _]; [|by repeat constructor].
        rewrite H in Hf. done. }
      apply eq_ci_letters in H; [done|by repeat constructor]. }
  unfold flow_header_here.
  assert (leading_ws (kw ++ C) = []) as ->.
  { destruct kw as [|c k']; [by destruct (eq_ci [] _)|].
    apply Forall_cons in Hall as [Hc _]. by apply (leading_ws_letter (k' ++ C) []). }
  cbn [length Nat.add]. rewrite drop_0.
  destruct Hkw as [H|H].
  - rewrite H in Hlen. rewrite <- Hlen, take_app_length, H.
    by rewrite take_app_length, drop_app_length.
  - assert (eq_ci kw (js "flowchart") = false) as Hf.
    { destruct (eq_ci kw (js "flowchart")) eqn:Hf; [|done].
      apply eq_ci_letters in H as [H _]; [|by repeat constructor].
      apply eq_ci_letters in Hf as [Hf _]; [|by repeat constructor].
      rewrite H in Hf. done. }
    rewrite Hf in Hlen.
    assert (eq_ci (take 9 (kw ++ C)) (js "flowchart") = false) as ->.
    { destruct kw as [|c k']; [done|].
      destruct (eq_ci (take 9 ((c :: k') ++ C)) (js "flowchart")) eqn:H9; [|done].
      apply eq_ci_take_head in H9.
      assert (lower_unit c = 103) as Hg.
      { unfold eq_ci in H. apply bool_decide_eq_true in H. by injection H. }
      rewrite Hg in H9. done. }
    rewrite <- Hlen, take_app_length, H.
    by rewrite take_app_length, drop_app_length.
Qed.

Lemma trim_id_ends (s : jsstr) c t c' t' :
  s = c :: t → s = t' ++ [c'] → is_ws c = false → is_ws c' = false → trim s = s.
Proof.
  intros Hs Hs' Hc Hc'. unfold trim. rewrite Hs at 1. simpl. rewrite Hc, <- Hs, Hs'.
  by apply trimEnd_last_non_ws.
Qed.

Lemma split_on_single sep (l : jsstr) : sep ∉ l → split_on sep l = [l].
Proof.
  intros H. rewrite <- (app_nil_r l) at 1. rewrite split_on_app_free by done.
  simpl. by rewrite app_nil_r.
Qed.

(** The declaration line that the menu writes carries the direction. *)
Lemma written_declaration_direction k dir :
  eq_ci k (js "erDiagram") = true → dir ∈ direction_tokens →
  10 ∉ k ++ js " " ++ dir ∧ line_direction (k ++ js " " ++ dir) = Some dir.
Proof.
  intros Hk Hdir. destruct (keyword_letters k Hk) as [Hlen Hall].
  destruct (direction_tokens_facts dir Hdir) as (Hne & _ & Hnl & Htok & Hup).
  destruct (direction_token_letters dir Htok) as [Hlen2 Hall2].
  split.
  - rewrite !not_elem_of_app. split_and!; [|compute_done|done].
    intros Hin. rewrite Forall_forall in Hall.
    by apply Hall, letter_facts in Hin as (_ & _ & ? & _).
  - assert (trim (k ++ js " " ++ dir) = k ++ js " " ++ dir) as Htrim.
    { destruct k as [|c k']; [done|]. apply Forall_cons in Hall as [Hc _].
      destruct dir as [|d1 [|d2 [|? ?]]]; try done.
      apply Forall_cons in Hall2 as [_ [Hd2 _]%Forall_cons].
      apply letter_facts in Hc as (Hc & _). apply letter_facts in Hd2 as (Hd2 & _).
      eapply (trim_id_ends _ c _ d2 ((c :: k') ++ js " " ++ [d1])); try done.
      by rewrite <- !(assoc_L (++)). }
    unfold line_direction. rewrite Htrim. unfold erDeclMatch.
    rewrite take_app_length', drop_app_length' by done. rewrite Hk.
    change (js " " ++ dir) with (32 :: dir). cbv iota.
    unfold ws_then_direction.
    assert (leading_ws (32 :: dir) = [32]) as ->.
    { destruct dir as [|d1 dir']; [done|]. apply Forall_cons in Hall2 as [Hd1 _].
      apply letter_facts in Hd1 as (Hd1 & _). simpl. by rewrite Hd1. }
    cbn [length drop]. rewrite drop_0, Htok. simpl.
    destruct dir as [|d1 dir']; [done|]. by rewrite Hup.
Qed.

(** The text after the menu: its declaration at the start, the direction
    behind it, and what followed the old declaration. *)
Lemma compile_after_menu k dir rest :
  eq_ci k (js "erDiagram") = true → dir ∈ direction_tokens →
  (rest = [] ∨ ∃ b, rest = 10 :: b ∧ Forall (λ l, line_direction l = None) (split_on 10 b)) →
  (∀ c, last rest = Some c → is_ws c = false) →
  ∃ out, preprocessER (k ++ js " " ++ dir ++ rest) = Ok out
    ∧ render (k ++ js " " ++ dir ++ rest)
      = Ok (RenderDiagram (out_code out) dir (out_pass out)).
Proof.
  intros Hk Hdir Hrest Hlast.
  destruct (written_declaration_direction k dir Hk Hdir) as [Hnl Hline].
  destruct (keyword_letters k Hk) as [Hlen Hall].
  destruct (direction_tokens_facts dir Hdir) as (Hne & _ & _ & Htok & _).
  destruct (direction_token_letters dir Htok) as [Hlen2 Hall2].
  assert (∃ out, preprocessER (k ++ js " " ++ dir ++ rest) = Ok out
                 ∧ out_direction out = Some dir) as (out & Hout & Hd).
  { destruct Hrest as [->|(b & -> & Hb)].
    - apply (preprocessER_last_direction _ [] (k ++ js " " ++ dir) []); [|done|done].
      rewrite app_nil_r. by apply split_on_single.
    - apply (preprocessER_last_direction _ [] (k ++ js " " ++ dir) (split_on 10 b));
        [|done|done].
      rewrite !(assoc_L (++)). rewrite split_on_app_free
        by (by rewrite <- !(assoc_L (++))).
      cbn [split_on]. rewrite N.eqb_refl. by rewrite app_nil_r, <- !(assoc_L (++)). }
  exists out. split; [done|]. unfold render.
  assert (trim (k ++ js " " ++ dir ++ rest) = k ++ js " " ++ dir ++ rest) as ->.
  { destruct k as [|c k']; [done|]. apply Forall_cons in Hall as [Hc _].
    apply letter_facts in Hc as (Hc & _).
    destruct (rev rest) as [|x r] eqn:Hr.
    - apply (f_equal (@rev N)) in Hr. rewrite rev_involutive in Hr. subst rest.
      destruct dir as [|d1 [|d2 [|? ?]]]; try done.
      apply Forall_cons in Hall2 as [_ [Hd2 _]%Forall_cons].
      apply letter_facts in Hd2 as (Hd2 & _).
      eapply (trim_id_ends _ c _ d2 ((c :: k') ++ js " " ++ [d1])); try done.
      by rewrite <- !(assoc_L (++)).
    - apply (f_equal (@rev N)) in Hr. rewrite rev_involutive in Hr. simpl in Hr.
      subst rest. eapply (trim_id_ends _ c _ x ((c :: k') ++ js " " ++ dir ++ rev r));
        try done.
      + by rewrite <- !(assoc_L (++)).
      + apply Hlast. by rewrite last_snoc. }
  rewrite (isER_declaration_start k (js " " ++ dir ++ rest))
    by (done || (intros c' Hc'; simpl in Hc'; by injection Hc' as <-)).
  rewrite Hout. cbn [mbind result_bind]. rewrite Hd.
  destruct k as [|c k']; [done|]. cbn [app]. destruct dir; done.
Qed.

End DirectionMenu.

(** X25.  Choosing a direction in the menu, for an ER text that starts with
    the declaration and holds the word [direction] nowhere: the declaration
    gets the chosen token as its shorthand. A direction token that follows
    the declaration after white space is replaced, and the white space may
    be the end of the line: a token at the start of the next line is taken
    for the shorthand. *)
Theorem applyDirectionToEditor_sets_shorthand (dir k C rest : jsstr) :
  dir ∈ direction_tokens →
  eq_ci k (js "erDiagram") = true →
  occurs_ci (js "direction") (k ++ C) = false →
  ((∃ ws tok, C = ws ++ tok ++ rest ∧ ws ≠ [] ∧ Forall (λ c, is_ws c = true) ws
              ∧ is_direction_token tok = true)
   ∨ (C = rest ∧ (∀ c, head C = Some c → is_word c = false)
      ∧ is_direction_token (take 2 (trimStart C)) = false)) →
  applyDirectionToEditor dir (k ++ C) = k ++ js " " ++ dir ++ rest.
Proof.
  intros Hdir Hk Hno HC.
  rewrite applyDirectionToEditor_start; [|done|done| |by apply (occurs_ci_false _ _ Hno)].
  - destruct HC as [(ws & tok & -> & Hne & Hws & Htok)|(-> & _ & Hnone)].
    + rewrite ws_token_here_shorthand by done.
      destruct (direction_token_letters _ Htok) as [Hlen _].
      rewrite <- Hlen, (assoc_L (++) ws tok rest), <- length_app.
      by rewrite drop_app_length.
    + by rewrite ws_token_here_none.
  - destruct HC as [(ws & tok & -> & Hne & Hws & Htok)|(-> & Hb & _)]; [|done].
    intros c. destruct ws as [|x ws']; [done|]. simpl. intros [= <-].
    apply ws_not_word. by apply Forall_cons in Hws as [? _].
Qed.

Lemma applyDirectionToEditor_sets_shorthand_witness :
  applyDirectionToEditor (js "LR") (js "erDiagram" ++ js "
    tblOrder {
    }")
  = js "erDiagram" ++ js " " ++ js "LR" ++ js "lOrder {
    }".
Proof.
  apply applyDirectionToEditor_sets_shorthand.
  - compute_done.
  - vm_compute; reflexivity.
  - vm_compute; reflexivity.
  - left. exists (js "
    "), (js "tb").
    split_and!; [vm_compute; reflexivity|done|by repeat constructor|vm_compute; reflexivity].
Defined.

(** X26.  The entry Auto of the menu removes the shorthand of the
    declaration. *)
Theorem applyDirectionToEditor_auto_removes_shorthand (k ws tok rest : jsstr) :
  eq_ci k (js "erDiagram") = true →
  occurs_ci (js "direction") (k ++ ws ++ tok ++ rest) = false →
  ws ≠ [] → Forall (λ c, is_ws c = true) ws → is_direction_token tok = true →
  applyDirectionToEditor [] (k ++ ws ++ tok ++ rest) = k ++ rest.
Proof.
  intros Hk Hno Hne Hws Htok. destruct (keyword_letters k Hk) as [Hlen _].
  unfold applyDirectionToEditor.
  rewrite isER_declaration_start; [|done|].
  - rewrite no_direction_no_stale by (by apply (occurs_ci_false _ _ Hno)).
    unfold replace_first.
    pose proof (er_shorthand_here_start k (ws ++ tok ++ rest) Hk) as Hhere.
    rewrite ws_token_here_shorthand in Hhere by done.
    rewrite (search_at_start _ _ _ _ Hhere).
    rewrite <- Hlen, replace_match_start, substitute_group.
    destruct (direction_token_letters _ Htok) as [Hlen2 _].
    rewrite <- Hlen2, (assoc_L (++) ws tok rest), <- length_app.
    by rewrite drop_app_length.
  - intros c. destruct ws as [|x ws']; [done|]. simpl. intros [= <-].
    apply ws_not_word. by apply Forall_cons in Hws as [? _].
Qed.

Lemma applyDirectionToEditor_auto_witness :
  applyDirectionToEditor [] (js "erDiagram" ++ js "  " ++ js "lr" ++ js "
  Kunde {
  }")
  = js "erDiagram" ++ js "
  Kunde {
  }".
Proof.
  apply applyDirectionToEditor_auto_removes_shorthand;
    [vm_compute; reflexivity|vm_compute; reflexivity|done|by repeat constructor
    |vm_compute; reflexivity].
Defined.

(** X27.  The menu on a flowchart: the token of the header is replaced by
    the chosen one, and the entry Auto changes nothing. *)
Theorem applyDirectionToEditor_flowchart_header (dir kw ws tok rest : jsstr) :
  dir ∈ direction_tokens →
  eq_ci kw (js "flowchart") = true ∨ eq_ci kw (js "graph") = true →
  occurs_ci (js "erDiagram") (kw ++ ws ++ tok ++ rest) = false →
  ws ≠ [] → Forall (λ c, is_ws c = true) ws → is_direction_token tok = true →
  applyDirectionToEditor dir (kw ++ ws ++ tok ++ rest) = kw ++ js " " ++ dir ++ rest
  ∧ applyDirectionToEditor [] (kw ++ ws ++ tok ++ rest) = kw ++ ws ++ tok ++ rest.
Proof.
  intros Hdir Hkw Hno Hne Hws Htok.
  destruct (direction_tokens_facts dir Hdir) as (Hdne & Hplain & _).
  unfold applyDirectionToEditor, isER. rewrite no_erDiagram_not_ER by done.
  split; [|done]. destruct dir as [|d dir']; [done|].
  unfold replace_first.
  pose proof (flow_header_here_start kw (ws ++ tok ++ rest) Hkw) as Hhere.
  rewrite ws_token_here_shorthand in Hhere by done.
  rewrite (search_at_start _ _ _ _ Hhere).
  rewrite replace_match_start, substitute_group_and_direction by done.
  destruct (direction_token_letters _ Htok) as [Hlen2 _].
  rewrite <- Hlen2, (assoc_L (++) ws tok rest), <- length_app.
  rewrite drop_app_length. by rewrite <- !(assoc_L (++)).
Qed.

Lemma applyDirectionToEditor_flowchart_witness :
  applyDirectionToEditor (js "BT") (js "graph" ++ js "   " ++ js "lr" ++ js "
  A --> B")
  = js "graph" ++ js " " ++ js "BT" ++ js "
  A --> B"
  ∧ applyDirectionToEditor [] (js "graph" ++ js "   " ++ js "lr" ++ js "
  A --> B")
    = js "graph" ++ js "   " ++ js "lr" ++ js "
  A --> B".
Proof.
  apply applyDirectionToEditor_flowchart_header;
    [compute_done|by right; vm_compute|vm_compute; reflexivity|done
    |by repeat constructor|vm_compute; reflexivity].
Defined.

(** X28.  Choosing a direction in the menu and rendering: for an ER text
    that starts with the declaration, holds the word [direction] nowhere,
    has no direction in a later line and does not end in white space,
    Mermaid is initialised with the chosen direction. *)
Theorem direction_menu_then_render (dir k C rest : jsstr) :
  dir ∈ direction_tokens →
  eq_ci k (js "erDiagram") = true →
  occurs_ci (js "direction") (k ++ C) = false →
  ((∃ ws tok, C = ws ++ tok ++ rest ∧ ws ≠ [] ∧ Forall (λ c, is_ws c = true) ws
              ∧ is_direction_token tok = true)
   ∨ (C = rest ∧ is_direction_token (take 2 (trimStart C)) = false)) →
  (rest = [] ∨ ∃ b, rest = 10 :: b
                    ∧ Forall (λ l, line_direction l = None) (split_on 10 b)) →
  (∀ c, last rest = Some c → is_ws c = false) →
  ∃ processed pass,
    render (applyDirectionToEditor dir (k ++ C)) = Ok (RenderDiagram processed dir pass).
Proof.
  intros Hdir Hk Hno HC Hrest Hlast.
  assert (applyDirectionToEditor dir (k ++ C) = k ++ js " " ++ dir ++ rest) as ->.
  { rewrite applyDirectionToEditor_start;
      [|done|done| |by apply (occurs_ci_false _ _ Hno)].
    - destruct HC as [(ws & tok & -> & Hne & Hws & Htok)|(-> & Hnone)].
      + rewrite ws_token_here_shorthand by done.
        destruct (direction_token_letters _ Htok) as [Hlen _].
        rewrite <- Hlen, (assoc_L (++) ws tok rest), <- length_app.
        by rewrite drop_app_length.
      + by rewrite ws_token_here_none.
    - destruct HC as [(ws & tok & -> & Hne & Hws & Htok)|(-> & _)].
      + intros c. destruct ws as [|x ws']; [done|]. simpl. intros [= <-].
        apply ws_not_word. by apply Forall_cons in Hws as [? _].
      + destruct Hrest as [->|(b & -> & _)]; [done|]. simpl. by intros c [= <-]. }
  destruct (compile_after_menu k dir rest Hk Hdir Hrest Hlast) as (out & _ & Hr).
  by exists (out_code out), (out_pass out).
Qed.

Lemma direction_menu_then_render_witness :
  ∃ processed pass,
    render (applyDirectionToEditor (js "RL") (js "erDiagram" ++ js " td
  Kunde ||--o{ Auftrag : erteilt"))
    = Ok (RenderDiagram processed (js "RL") pass).
Proof.
  apply (direction_menu_then_render (js "RL") (js "erDiagram") _ (js "
  Kunde ||--o{ Auftrag : erteilt")).
  - compute_done.
  - vm_compute; reflexivity.
  - vm_compute; reflexivity.
  - left. exists (js " "), (js "td").
    split_and!; [vm_compute; reflexivity|done|by repeat constructor|vm_compute; reflexivity].
  - right. eexists. split; [vm_compute; reflexivity|].
    repeat constructor; vm_compute; reflexivity.
  - intros c. vm_compute. by intros [= <-].
Defined.

Section RelationshipLines.

Lemma trim_between_ws s w1 w2 :
  typed_name s → Forall (λ c, is_ws c = true) w1 → Forall (λ c, is_ws c = true) w2 →
  trim (w1 ++ s ++ w2) = s.
Proof.
  intros [(c & Hh & Hc) (c' & Hl & Hc')] Hw1 Hw2.
  destruct s as [|x t]; [done|]. simpl in Hh. injection Hh as ->.
  apply last_Some in Hl as [t' Ht']. unfold trim.
  change ((c :: t) ++ w2) with (c :: t ++ w2).
  rewrite trimStart_app_ws by done.
  change (c :: t ++ w2) with ((c :: t) ++ w2). rewrite Ht'.
  unfold trimEnd. rewrite rev_app_distr, rev_app_distr. simpl.
  rewrite trimStart_app_ws by (done || by apply Forall_rev).
  simpl. by rewrite rev_involutive.
Qed.

Lemma typed_name_last t a :
  typed_name t → ∃ c, last (a ++ t) = Some c ∧ is_ws c = false.
Proof.
  intros [_ (c' & Hl & Hc')]. exists c'. split; [|done].
  apply last_Some in Hl as [t' ->]. rewrite (assoc_L (++)). by rewrite last_snoc.
Qed.

Lemma typed_name_head s r :
  typed_name s → (∃ c, last (s ++ r) = Some c ∧ is_ws c = false) → typed_name (s ++ r).
Proof.
  intros [(c & Hh & Hc) _] Hl. split; [|done]. exists c. split; [|done]. by destruct s.
Qed.

Lemma relOp_here_app op rest :
  relOp_here op = true → relOp_here (op ++ rest) = true.
Proof. destruct op as [|c0 [|c1 [|c2 [|c3 [|c4 [|c5 op']]]]]]; done. Qed.

(** The operator is found behind a text that holds neither of the two
    units an operator can start with. *)
Lemma relOp_match_behind (A op rest : jsstr) :
  124 ∉ A → 125 ∉ A → relOp_here op = true →
  relOp_match (A ++ op ++ rest) = Some (length A).
Proof.
  intros H1 H2 Hop. induction A as [|a A' IH]; cbn [app length].
  - destruct (op ++ rest) eqn:Heq; cbn [relOp_match];
      rewrite <- Heq, relOp_here_app; done.
  - cbn [relOp_match].
    assert (relOp_here (a :: A' ++ op ++ rest) = false) as ->.
    { unfold relOp_here.
      assert (a =? 124 = false) as Ha1 by (apply N.eqb_neq; set_solver).
      assert (a =? 125 = false) as Ha2 by (apply N.eqb_neq; set_solver).
      destruct (A' ++ op ++ rest) as [|c1 [|c2 [|c3 [|c4 [|c5 ?]]]]]; try done.
      by rewrite Ha1, Ha2. }
    rewrite IH by set_solver. done.
Qed.

Lemma typed_name_no_leading_ws s : typed_name s → leading_ws s = [].
Proof.
  intros [(c & Hh & Hc) _]. destruct s as [|x t]; [done|]. simpl in *.
  injection Hh as ->. by rewrite Hc.
Qed.

End RelationshipLines.

(** X17.  A relationship line with a label, built from two typed names, an
    operator and a label, with single spaces between them: the left name
    holds neither a bar nor a closing brace, the right name no colon. The
    two names are replaced by their identifiers, left first, and the rest of
    the line stays, the label between quotes where it needs them. *)
Theorem preprocessERRelationship_line (indent left op right label : jsstr)
    (st : PassState) :
  Forall (λ c, is_ws c = true) indent →
  typed_name left → 124 ∉ left → 125 ∉ left →
  relOp_here op = true → length op = 6%nat →
  typed_name right → 58 ∉ right →
  typed_name label →
  ∃ leftId st1 rightId st2,
    getUniqueId (entity_display left) None st = Ok (leftId, st1)
    ∧ getUniqueId (entity_display right) None st1 = Ok (rightId, st2)
    ∧ preprocessERRelationship
        (indent ++ left ++ js " " ++ op ++ js " " ++ right ++ js " : " ++ label) st
      = Ok (indent ++ leftId ++ js " " ++ op ++ js " " ++ rightId ++ js " : "
              ++ relationship_label label, st2).
Proof.
  intros Hindent Hleft Hbar Hbrace Hop Hoplen Hright Hcolon Hlabel.
  destruct (getUniqueId_total (entity_display left) None st) as [leftId H1].
  destruct (getUniqueId_total (entity_display right) None (record_id leftId (entity_display left) st))
    as [rightId H2].
  eexists leftId, _, rightId, _. split; [exact H1|]. split; [exact H2|].
  set (body := left ++ js " " ++ op ++ js " " ++ right ++ js " : " ++ label).
  assert (typed_name body) as Hbody.
  { apply typed_name_head; [done|]. rewrite !(assoc_L (++)). by apply typed_name_last. }
  assert (leading_ws (indent ++ body) = indent) as Hind.
  { destruct Hbody as [(c & Hh & Hc) _]. destruct body as [|x t] eqn:Hb; [done|].
    simpl in Hh. injection Hh as ->. by apply leading_ws_app_ws. }
  assert (trim (indent ++ body) = body) as Htrim.
  { rewrite <- (app_nil_r body) at 1. by apply trim_between_ws. }
  unfold preprocessERRelationship. rewrite Hind, Htrim.
  assert (relOp_match body = Some (length left + 1)%nat) as ->.
  { unfold body. rewrite (assoc_L (++) left (js " ")).
    rewrite relOp_match_behind; [by rewrite length_app| | |done].
    - rewrite not_elem_of_app. split; [done|compute_done].
    - rewrite not_elem_of_app. split; [done|compute_done]. }
  assert (take (length left + 1) body = left ++ js " ") as ->.
  { unfold body. rewrite (assoc_L (++) left (js " ")).
    by rewrite take_app_length' by (by rewrite length_app). }
  assert (drop (length left + 1) body = op ++ js " " ++ right ++ js " : " ++ label) as Hd1.
  { unfold body. rewrite (assoc_L (++) left (js " ")).
    by rewrite drop_app_length' by (by rewrite length_app). }
  assert (drop (length left + 1 + 6) body = js " " ++ right ++ js " : " ++ label) as ->.
  { rewrite <- drop_drop, Hd1. by rewrite drop_app_length'. }
  rewrite Hd1, take_app_length' by done.
  assert (trim (left ++ js " ") = left) as ->.
  { rewrite <- (app_nil_l (left ++ js " ")). apply trim_between_ws; [done|done|].
    by repeat constructor. }
  assert (trim (js " " ++ right ++ js " : " ++ label) = right ++ js " : " ++ label) as ->.
  { rewrite <- (app_nil_r (right ++ _ ++ _)) at 1.
    apply trim_between_ws; [|by repeat constructor|done].
    apply typed_name_head; [done|]. rewrite !(assoc_L (++)). by apply typed_name_last. }
  assert (indexOf1 58 (right ++ js " : " ++ label) = Some (length right + 1)%nat) as ->.
  { change (js " : " ++ label) with (32 :: 58 :: 32 :: label).
    change (right ++ 32 :: 58 :: 32 :: label) with (right ++ [32] ++ 58 :: 32 :: label).
    rewrite (assoc_L (++) right [32]).
    rewrite indexOf1_app_free; [by rewrite length_app|].
    rewrite not_elem_of_app. split; [done|compute_done]. }
  assert (take (length right + 1) (right ++ js " : " ++ label) = right ++ js " ") as ->.
  { change (js " : " ++ label) with (js " " ++ 58 :: 32 :: label).
    rewrite (assoc_L (++) right (js " ")).
    by rewrite take_app_length' by (by rewrite length_app). }
  assert (drop (S (length right + 1)) (right ++ js " : " ++ label) = js " " ++ label) as ->.
  { change (js " : " ++ label) with ([32; 58] ++ js " " ++ label).
    rewrite (assoc_L (++) right [32; 58]).
    by rewrite drop_app_length' by (rewrite length_app; simpl; lia). }
  assert (trim (right ++ js " ") = right) as ->.
  { rewrite <- (app_nil_l (right ++ js " ")). apply trim_between_ws; [done|done|].
    by repeat constructor. }
  assert (trim (js " " ++ label) = label) as ->.
  { rewrite <- (app_nil_r label) at 1. apply trim_between_ws; [done| |done].
    by repeat constructor. }
  fold (entity_display left). fold (entity_display right).
  rewrite H1. cbn [mbind result_bind]. rewrite H2. cbn [mbind result_bind].
  assert (relationship_label label ≠ []) as Hne.
  { destruct Hlabel as [(c & Hh & _) _]. destruct label as [|x t]; [done|].
    unfold relationship_label. by destruct (negb _ && _). }
  destruct (relationship_label label) eqn:Hl; [done|]. done.
Qed.

Lemma preprocessERRelationship_line_witness :
  ∃ leftId st1 rightId st2,
    getUniqueId (entity_display (js "`Gebäude`")) None pass_start = Ok (leftId, st1)
    ∧ getUniqueId (entity_display (js "Gebäude Adresse")) None st1 = Ok (rightId, st2)
    ∧ preprocessERRelationship
        (js "    " ++ js "`Gebäude`" ++ js " " ++ js "||--|{" ++ js " "
           ++ js "Gebäude Adresse" ++ js " : " ++ js "hat 1..n") pass_start
      = Ok (js "    " ++ leftId ++ js " " ++ js "||--|{" ++ js " " ++ rightId ++ js " : "
              ++ relationship_label (js "hat 1..n"), st2).
Proof.
  apply preprocessERRelationship_line.
  - by repeat constructor.
  - split; eexists; (split; [vm_compute; reflexivity|reflexivity]).
  - compute_done.
  - compute_done.
  - vm_compute; reflexivity.
  - reflexivity.
  - split; eexists; (split; [vm_compute; reflexivity|reflexivity]).
  - compute_done.
  - split; eexists; (split; [vm_compute; reflexivity|reflexivity]).
Defined.

Section PlainChain.

Lemma word_run_app t tl :
  Forall (λ x, is_word x = true) t → (∀ c, head tl = Some c → is_word c = false) →
  word_run (t ++ tl) = length t.
Proof.
  intros Ht Htl. induction Ht as [|x r Hx _ IH]; simpl.
  - destruct tl as [|c tl']; [done|]. simpl. by rewrite (Htl c).
  - by rewrite Hx, IH.
Qed.

Lemma quoted_suffix_none opening closing (s : jsstr) :
  startsWith s (opening ++ [dquote]) = false → quoted_suffix opening closing s = None.
Proof. intros H. unfold quoted_suffix. by rewrite H. Qed.

(** The identifier pattern on an identifier that no bracketed label
    follows. *)
Lemma idMatch_plain a tl :
  plain_id a → (∀ c, head tl = Some c → is_word c = false) →
  (∀ op, op ∈ [js "["; js "("; js "{"; js "(["; js "[["] →
         startsWith tl (op ++ [dquote]) = false) →
  idMatch (a ++ tl) = Some (length a).
Proof.
  intros (c & t & -> & Hc & Ht) Htl Hsuf. cbn [app idMatch]. rewrite Hc.
  rewrite word_run_app by done.
  change (c :: t ++ tl) with ((c :: t) ++ tl).
  rewrite drop_app_length' by done.
  rewrite !quoted_suffix_none by (apply Hsuf; set_solver). simpl. f_equal. lia.
Qed.

Lemma plain_id_head a tl c :
  plain_id a → head (a ++ tl) = Some c →
  is_upper c || is_lower c || (c =? 95) = true.
Proof. intros (x & t & -> & Hx & _). simpl. by intros [= <-]. Qed.

Lemma id_start_facts c :
  is_upper c || is_lower c || (c =? 95) = true →
  is_ws c = false ∧ c ≠ 45 ∧ c ≠ 61 ∧ c ≠ 123 ∧ c ≠ 34 ∧ c ≠ 40 ∧ c ≠ 32.
Proof.
  unfold is_ws, is_lower, is_upper. intros H.
  apply orb_true_iff in H as [H|H%N.eqb_eq];
    [apply orb_true_iff in H as [H|H];
     apply andb_true_iff in H as [H1%N.leb_le H2%N.leb_le]|];
    split_and!; try lia;
    repeat (apply orb_false_iff; split); try (apply andb_false_iff);
    rewrite ?N.leb_gt, ?N.eqb_neq; lia.
Qed.

Lemma arrowMatch_other c t : c ≠ 45 → c ≠ 61 → arrowMatch (c :: t) = None.
Proof.
  intros H1 H2. unfold arrowMatch, arrow_body, has_unit. simpl.
  assert (c =? 45 = false) as -> by (by apply N.eqb_neq).
  assert (c =? 61 = false) as -> by (by apply N.eqb_neq).
  simpl. rewrite bool_decide_eq_false_2 by congruence. done.
Qed.

(** An identifier at [pos], with no bracketed label behind it. *)
Lemma scan_step_plain rest (pos : nat) a tl :
  drop pos rest = a ++ tl → plain_id a →
  (∀ c, head tl = Some c → is_word c = false) →
  (∀ op, op ∈ [js "["; js "("; js "{"; js "(["; js "[["] →
         startsWith tl (op ++ [dquote]) = false) →
  scan_step rest pos = (Some (TRaw a), (pos + length a)%nat).
Proof.
  intros Hd Ha Htl Hsuf.
  pose proof Ha as (c & t & Hae & Hc & Ht).
  apply id_start_facts in Hc as (Hws & H45 & H61 & H123 & H34 & H40 & _).
  assert (drop pos rest = c :: t ++ tl) as Hd' by (by rewrite Hd, Hae).
  unfold scan_step. rewrite (lookup_drop_head _ _ _ _ Hd'), Hws.
  assert (scan_arrow rest pos = None) as ->.
  { unfold scan_arrow. rewrite Hd'. by rewrite arrowMatch_other. }
  assert (scan_brace rest pos = None) as ->.
  { unfold scan_brace, has_unit. rewrite (lookup_drop_head _ _ _ _ Hd').
    rewrite bool_decide_eq_false_2; [done|congruence]. }
  assert (scan_quote rest pos = None) as ->.
  { unfold scan_quote, has_unit. rewrite (lookup_drop_head _ _ _ _ Hd').
    rewrite bool_decide_eq_false_2; [done|]. unfold dquote. congruence. }
  assert (scan_round rest pos = None) as ->.
  { unfold scan_round, has_unit. rewrite (lookup_drop_head _ _ _ _ Hd').
    rewrite bool_decide_eq_false_2; [done|congruence]. }
  cbn [first_some]. unfold scan_id. rewrite Hd, idMatch_plain by done.
  assert ((0 <? length a)%nat = true) as -> by (by rewrite Hae).
  by rewrite take_app_length.
Qed.

(** A unit that starts no token is passed over. *)
Lemma scan_step_dropped rest (pos : nat) c t :
  drop pos rest = c :: t → is_ws c = false →
  c ≠ 45 → c ≠ 61 → c ≠ 123 → c ≠ 34 → c ≠ 40 →
  is_upper c || is_lower c || (c =? 95) = false →
  scan_step rest pos = (None, S pos).
Proof.
  intros Hd Hws H45 H61 H123 H34 H40 Hid.
  unfold scan_step. rewrite (lookup_drop_head _ _ _ _ Hd), Hws.
  assert (scan_arrow rest pos = None) as ->.
  { unfold scan_arrow. rewrite Hd. by rewrite arrowMatch_other. }
  assert (scan_brace rest pos = None) as ->.
  { unfold scan_brace, has_unit. rewrite (lookup_drop_head _ _ _ _ Hd).
    rewrite bool_decide_eq_false_2; [done|congruence]. }
  assert (scan_quote rest pos = None) as ->.
  { unfold scan_quote, has_unit. rewrite (lookup_drop_head _ _ _ _ Hd).
    rewrite bool_decide_eq_false_2; [done|]. unfold dquote. congruence. }
  assert (scan_round rest pos = None) as ->.
  { unfold scan_round, has_unit. rewrite (lookup_drop_head _ _ _ _ Hd).
    rewrite bool_decide_eq_false_2; [done|congruence]. }
  cbn [first_some]. unfold scan_id. rewrite Hd. cbn [idMatch]. by rewrite Hid.
Qed.

Lemma plain_id_units a :
  plain_id a → Forall (λ x, is_word x = true) a ∧ a ≠ [].
Proof.
  intros (c & t & -> & Hc & Ht). split; [|done]. constructor; [|done].
  unfold is_word, is_alnum. 
  apply orb_true_iff in Hc as [Hc|Hc]; [|by rewrite Hc, orb_true_r].
  apply orb_true_iff in Hc as [Hc|Hc]; rewrite Hc; by rewrite ?orb_true_r.
Qed.

Lemma word_no_space (s : jsstr) : Forall (λ c, is_word c = true) s → 32 ∉ s.
Proof. intros H Hin. rewrite Forall_forall in H. by apply H in Hin. Qed.

Lemma collapse_runs_app_free c (a s : jsstr) :
  c ∉ a → collapse_runs c (a ++ s) = a ++ collapse_runs c s.
Proof.
  induction a as [|x r IH]; [done|]. intros Ha. cbn [app collapse_runs].
  assert (x =? c = false) as -> by (apply N.eqb_neq; set_solver).
  rewrite IH by set_solver. done.
Qed.

Lemma no_label_behind_bracket c t :
  c ≠ 34 → c ≠ 91 →
  ∀ op, op ∈ [js "["; js "("; js "{"; js "(["; js "[["] →
        startsWith (91 :: c :: t) (op ++ [dquote]) = false.
Proof.
  intros H34 H91 op Hop.
  assert (34 =? c = false) as E1 by (apply N.eqb_neq; congruence).
  assert (91 =? c = false) as E2 by (apply N.eqb_neq; congruence).
  repeat (apply elem_of_cons in Hop as [->|Hop];
          [vm_compute (js _ ++ _); cbn [startsWith];
           by rewrite ?E1, ?E2, ?andb_false_r, ?andb_false_l|]).
  by apply elem_of_nil in Hop.
Qed.

Lemma no_label_behind_other (tl : jsstr) :
  (∀ c, head tl = Some c → c ≠ 91 ∧ c ≠ 40 ∧ c ≠ 123) →
  ∀ op, op ∈ [js "["; js "("; js "{"; js "(["; js "[["] →
        startsWith tl (op ++ [dquote]) = false.
Proof.
  intros Htl op Hop. destruct tl as [|c t].
  - repeat (apply elem_of_cons in Hop as [->|Hop]; [by vm_compute (js _ ++ _)|]).
    by apply elem_of_nil in Hop.
  - destruct (Htl c eq_refl) as (H91 & H40 & H123).
    assert (91 =? c = false) as E1 by (apply N.eqb_neq; congruence).
    assert (40 =? c = false) as E2 by (apply N.eqb_neq; congruence).
    assert (123 =? c = false) as E3 by (apply N.eqb_neq; congruence).
    repeat (apply elem_of_cons in Hop as [->|Hop];
            [vm_compute (js _ ++ _); cbn [startsWith];
             by rewrite ?E1, ?E2, ?E3, ?andb_false_r, ?andb_false_l|]).
    by apply elem_of_nil in Hop.
Qed.

Lemma plain_chain_cons a a2 r :
  join (js " --> ") (a :: a2 :: r)
  = a ++ 32 :: 45 :: 45 :: 62 :: 32 :: join (js " --> ") (a2 :: r).
Proof. done. Qed.

(** The scanner on a chain of identifiers that ends the line. *)
Lemma scan_loop_plain_chain r : ∀ a rest (pos fuel : nat) toks,
  drop pos rest = join (js " --> ") (a :: r) →
  Forall plain_id (a :: r) →
  (length (join (js " --> ") (a :: r)) ≤ fuel)%nat →
  scan_loop fuel rest pos toks = Ok (toks ++ plain_tokens (a :: r)).
Proof.
  induction r as [|a2 r IH]; intros a rest pos fuel toks Hd Hall Hfuel.
  - cbn [join] in Hd, Hfuel. apply Forall_cons in Hall as [Ha _].
    destruct (plain_id_units a Ha) as [_ Hne].
    destruct fuel as [|f]; [destruct a; [done|simpl in Hfuel; lia]|].
    assert (drop pos rest = a ++ []) as Hd' by (by rewrite app_nil_r).
    pose proof (scan_step_plain _ _ _ _ Hd' Ha ltac:(done)
                  (no_label_behind_other [] ltac:(done))) as Hs.
    pose proof Ha as (c & t & Hae & _).
    assert (drop pos rest = c :: t) as Hdc by (by rewrite Hd, Hae).
    rewrite (scan_loop_unroll _ _ _ _ _ _ _ _ Hdc Hs).
    assert (pos + length a = length rest)%nat as ->.
    { rewrite (drop_length_eq _ _ _ Hd); [done|].
      destruct (decide (pos ≤ length rest)%nat); [done|].
      rewrite drop_ge in Hd by lia. by destruct a. }
    apply scan_loop_end.
  - rewrite plain_chain_cons in Hd, Hfuel.
    apply Forall_cons in Hall as [Ha Hall].
    destruct (plain_id_units a Ha) as [_ Hne].
    set (tail := join (js " --> ") (a2 :: r)) in *.
    rewrite length_app in Hfuel. simpl in Hfuel.
    assert (∀ k : nat, drop (pos + length a + k) rest
                       = drop k (32 :: 45 :: 45 :: 62 :: 32 :: tail)) as Hk.
    { intros k. rewrite <- Nat.add_assoc, <- drop_drop, Hd, <- drop_drop.
      by rewrite drop_app_length. }
    do 4 (destruct fuel as [|fuel]; [lia|]).
    assert (scan_step rest pos = (Some (TRaw a), (pos + length a)%nat)) as Hs.
    { apply (scan_step_plain _ _ _ _ Hd Ha); [by intros c [= <-]|].
      apply no_label_behind_other. by intros c [= <-]. }
    pose proof Ha as (c & t & Hae & _).
    assert (drop pos rest = c :: t ++ 32 :: 45 :: 45 :: 62 :: 32 :: tail) as Hdc
      by (by rewrite Hd, Hae).
    rewrite (scan_loop_unroll _ _ _ _ _ _ _ _ Hdc Hs).
    pose proof (Hk 0%nat) as H0. rewrite Nat.add_0_r in H0. cbn [drop] in H0.
    rewrite (scan_loop_unroll _ _ _ _ _ _ _ _ H0 (scan_step_ws _ _ _ _ H0 eq_refl)).
    pose proof (Hk 1%nat) as H1. cbn [drop] in H1.
    replace (S (pos + length a)) with (pos + length a + 1)%nat by lia.
    assert (32 ≠ 124) as Hne32 by done.
    rewrite (scan_loop_unroll _ _ _ _ _ _ _ _ H1 (scan_step_arrow _ _ _ _ H1 Hne32)).
    pose proof (Hk 4%nat) as H4. cbn [drop] in H4.
    replace (pos + length a + 1 + 3)%nat with (pos + length a + 4)%nat by lia.
    rewrite (scan_loop_unroll _ _ _ _ _ _ _ _ H4 (scan_step_ws _ _ _ _ H4 eq_refl)).
    pose proof (Hk 5%nat) as H5. cbn [drop] in H5.
    replace (S (pos + length a + 4)) with (pos + length a + 5)%nat by lia.
    rewrite (IH a2 rest _ fuel _ H5 Hall) by (unfold tail in Hfuel; lia).
    f_equal. simpl. by rewrite <- !(assoc_L (++)).
Qed.

Lemma render_tokens_plain ids fs :
  ∃ parts, render_tokens getFlowNodeId (plain_tokens ids) fs = Ok (parts, fs)
           ∧ concat parts = join (js " --> ") ids.
Proof.
  induction ids as [|a [|a2 r] IH].
  - by exists [].
  - exists [a]. split; [done|]. simpl. by rewrite app_nil_r.
  - destruct IH as (parts & Hparts & Hcat).
    exists (a :: js " --> " :: parts).
    change (plain_tokens (a :: a2 :: r))
      with (TRaw a :: TArrow (js "-->") :: plain_tokens (a2 :: r)).
    cbn [render_tokens render_token mbind result_bind]. rewrite Hparts.
    cbn [mbind result_bind]. split; [done|]. cbn [concat]. by rewrite Hcat.
Qed.

Lemma plain_id_typed a : plain_id a → typed_name a.
Proof.
  intros Ha. destruct (plain_id_units a Ha) as [Hw Hne].
  destruct Ha as (c & t & -> & Hc & Ht). split.
  - exists c. split; [done|]. by apply id_start_facts in Hc as (? & _).
  - destruct (last (c :: t)) as [x|] eqn:Hl; [|by apply last_None in Hl].
    exists x. split; [done|]. apply last_Some in Hl as [t' Hl].
    rewrite Hl in Hw. apply Forall_app in Hw as [_ [Hx _]%Forall_cons].
    destruct (is_ws x) eqn:Hws; [|done]. apply ws_not_word in Hws. congruence.
Qed.

Lemma plain_chain_typed r : ∀ a,
  Forall plain_id (a :: r) → typed_name (join (js " --> ") (a :: r)).
Proof.
  induction r as [|a2 r IH]; intros a [Ha Hall]%Forall_cons.
  - by apply plain_id_typed.
  - rewrite plain_chain_cons. apply typed_name_head; [by apply plain_id_typed|].
    change (a ++ 32 :: 45 :: 45 :: 62 :: 32 :: join (js " --> ") (a2 :: r))
      with (a ++ [32; 45; 45; 62; 32] ++ join (js " --> ") (a2 :: r)).
    rewrite (assoc_L (++)). apply typed_name_last. by apply IH.
Qed.

Lemma collapse_runs_plain_chain r : ∀ a,
  Forall plain_id (a :: r) →
  collapse_runs 32 (join (js " --> ") (a :: r)) = join (js " --> ") (a :: r).
Proof.
  induction r as [|a2 r IH]; intros a [Ha Hall]%Forall_cons.
  - cbn [join]. rewrite <- (app_nil_r a) at 1.
    rewrite collapse_runs_app_free; [by rewrite app_nil_r|].
    by apply word_no_space, plain_id_units.
  - rewrite plain_chain_cons.
    rewrite collapse_runs_app_free by (by apply word_no_space, plain_id_units).
    f_equal. rewrite <- (IH a2 Hall) at 2.
    destruct (plain_chain_typed r a2 Hall) as [(c & Hh & Hc) _].
    destruct (join (js " --> ") (a2 :: r)) as [|x t]; [done|].
    simpl in Hh. injection Hh as ->.
    assert (c =? 32 = false) as Hc32.
    { apply N.eqb_neq. intros ->. done. }
    cbn [collapse_runs]. simpl N.eqb. cbv iota. by rewrite ?Hc32.
Qed.

End PlainChain.

(** X19.  A chain of identifiers joined by [-->] is left as it is, and no
    identifier is allocated for it. *)
Theorem preprocessFlowLine_plain_chain (indent : jsstr) (ids : list jsstr)
    (fs : FlowState) :
  Forall (λ c, is_ws c = true) indent → ids ≠ [] → Forall plain_id ids →
  preprocessFlowLine (indent ++ join (js " --> ") ids) getFlowNodeId fs
  = Ok (indent ++ join (js " --> ") ids, fs).
Proof.
  intros Hindent Hne Hall. destruct ids as [|a r]; [done|].
  pose proof (plain_chain_typed r a Hall) as Htyped.
  unfold preprocessFlowLine.
  assert (leading_ws (indent ++ join (js " --> ") (a :: r)) = indent) as ->.
  { destruct Htyped as [(c & Hh & Hc) _].
    destruct (join (js " --> ") (a :: r)) as [|x t]; [done|].
    simpl in Hh. injection Hh as ->. by apply leading_ws_app_ws. }
  assert (trim (indent ++ join (js " --> ") (a :: r)) = join (js " --> ") (a :: r)) as ->.
  { rewrite <- (app_nil_r (join _ _)) at 1. by apply trim_between_ws. }
  rewrite (scan_loop_plain_chain r a _ 0%nat _ []); [|done|done|done].
  cbn [mbind result_bind app].
  destruct (render_tokens_plain (a :: r) fs) as (parts & Hparts & Hcat).
  rewrite Hparts. cbn [mbind result_bind]. rewrite Hcat.
  by rewrite collapse_runs_plain_chain.
Qed.

Lemma preprocessFlowLine_plain_chain_witness :
  preprocessFlowLine (js "  " ++ join (js " --> ") [js "Start"; js "step_2"; js "Ende"])
    getFlowNodeId (mkFlow pass_start ∅)
  = Ok (js "  " ++ join (js " --> ") [js "Start"; js "step_2"; js "Ende"],
        mkFlow pass_start ∅).
Proof.
  apply preprocessFlowLine_plain_chain.
  - by repeat constructor.
  - done.
  - repeat constructor; eexists _, _;
      (split; [vm_compute; reflexivity|split; [reflexivity|by repeat constructor]]).
Defined.

(** X20.  A bracketed label without quotes loses its brackets: the scanner
    passes over the units that start no token. *)
Theorem preprocessFlowLine_unquoted_label (indent a l : jsstr) (fs : FlowState) :
  Forall (λ c, is_ws c = true) indent → plain_id a → plain_id l →
  preprocessFlowLine (indent ++ a ++ js "[" ++ l ++ js "]") getFlowNodeId fs
  = Ok (indent ++ a ++ l, fs).
Proof.
  intros Hindent Ha Hl.
  destruct (plain_id_units a Ha) as [Haw Hane].
  destruct (plain_id_units l Hl) as [Hlw Hlne].
  pose proof Ha as (ca & ta & Hae & Hca & Hta).
  pose proof Hl as (cl & tl & Hle & Hcl & Htl).
  change (js "[") with [91]. change (js "]") with [93].
  set (body := a ++ [91] ++ l ++ [93]).
  assert (typed_name body) as Htyped.
  { apply typed_name_head; [by apply plain_id_typed|].
    unfold body. exists 93. split; [|done]. rewrite !(assoc_L (++)). apply last_snoc. }
  unfold preprocessFlowLine.
  assert (leading_ws (indent ++ body) = indent) as ->.
  { destruct Htyped as [(c & Hh & Hc) _]. destruct body as [|x t]; [done|].
    simpl in Hh. injection Hh as ->. by apply leading_ws_app_ws. }
  assert (trim (indent ++ body) = body) as ->.
  { rewrite <- (app_nil_r body) at 1. by apply trim_between_ws. }
  assert (length body = S (S (S (S (length ta + length tl)))))%nat as Hlen.
  { unfold body. rewrite Hae, Hle, !length_app. simpl. lia. }
  assert (∀ k : nat, drop (length a + k) body = drop k (91 :: l ++ [93])) as Hk.
  { intros k. unfold body. by rewrite <- drop_drop, drop_app_length. }
  assert (scan_loop (length body) body 0 [] = Ok [TRaw a; TRaw l]) as ->.
  { rewrite Hlen.
    assert (drop 0 body = a ++ 91 :: l ++ [93]) as H0 by (by rewrite drop_0).
    assert (scan_step body 0 = (Some (TRaw a), (0 + length a)%nat)) as Hs0.
    { apply (scan_step_plain _ _ _ _ H0 Ha); [by intros c [= <-]|].
      rewrite Hle. destruct (id_start_facts _ Hcl) as (_ & _ & _ & _ & H34 & _).
      apply no_label_behind_bracket; [done|].
      intros ->. done. }
    assert (drop 0 body = ca :: ta ++ 91 :: l ++ [93]) as H0c by (by rewrite H0, Hae).
    rewrite (scan_loop_unroll _ _ _ _ _ _ _ _ H0c Hs0). cbn [Nat.add app option_list].
    pose proof (Hk 0%nat) as H1. rewrite Nat.add_0_r in H1. rewrite drop_0 in H1.
    rewrite (scan_loop_unroll _ _ _ _ _ _ _ _ H1
               (scan_step_dropped _ _ _ _ H1 ltac:(done) ltac:(done) ltac:(done)
                  ltac:(done) ltac:(done) ltac:(done) ltac:(done))).
    pose proof (Hk 1%nat) as H2. cbn [drop] in H2. rewrite drop_0 in H2.
    replace (S (length a)) with (length a + 1)%nat by lia.
    assert (scan_step body (length a + 1) = (Some (TRaw l), (length a + 1 + length l)%nat))
      as Hs2.
    { apply (scan_step_plain _ _ _ _ H2 Hl); [by intros c [= <-]|].
      apply no_label_behind_other. by intros c [= <-]. }
    assert (drop (length a + 1) body = cl :: tl ++ [93]) as H2c by (by rewrite H2, Hle).
    rewrite (scan_loop_unroll _ _ _ _ _ _ _ _ H2c Hs2). cbn [app option_list].
    assert (drop (length a + 1 + length l) body = [93]) as H3.
    { replace (length a + 1 + length l)%nat with (length a + (1 + length l))%nat by lia.
      rewrite Hk. cbn [Nat.add drop]. by rewrite drop_app_length. }
    rewrite (scan_loop_unroll _ _ _ _ _ _ _ _ H3
               (scan_step_dropped _ _ _ _ H3 ltac:(done) ltac:(done) ltac:(done)
                  ltac:(done) ltac:(done) ltac:(done) ltac:(done))).
    cbn [app option_list].
    replace (S (length a + 1 + length l)) with (length body)
      by (rewrite Hlen, Hae, Hle; simpl; lia).
    apply scan_loop_end. }
  cbn [mbind result_bind render_tokens render_token concat].
  rewrite app_nil_r.
  rewrite collapse_runs_app_free by (by apply word_no_space).
  rewrite <- (app_nil_r l) at 1.
  rewrite collapse_runs_app_free by (by apply word_no_space).
  by rewrite app_nil_r.
Qed.

Lemma preprocessFlowLine_unquoted_label_witness :
  preprocessFlowLine (js "  " ++ js "A" ++ js "[" ++ js "Start" ++ js "]") getFlowNodeId
    (mkFlow pass_start ∅)
  = Ok (js "  " ++ js "A" ++ js "Start", mkFlow pass_start ∅).
Proof.
  apply preprocessFlowLine_unquoted_label.
  - by repeat constructor.
  - eexists _, _. split; [vm_compute; reflexivity|split; [reflexivity|by repeat constructor]].
  - eexists _, _. split; [vm_compute; reflexivity|split; [reflexivity|by repeat constructor]].
Defined.

(** A text that ends in an opening brace matches neither direction
    pattern. *)
Lemma ws_then_direction_brace rest : ws_then_direction (rest ++ [123]) = None.
Proof.
  unfold ws_then_direction.
  destruct (is_direction_token (drop _ _)) eqn:Ht; [|by rewrite andb_false_r].
  exfalso. apply direction_token_letters in Ht as [Hlen Hall].
  set (n := length (leading_ws (rest ++ [123]))) in *.
  rewrite length_drop, length_app in Hlen. simpl in Hlen.
  rewrite drop_app_le in Hall by lia.
  by apply Forall_app in Hall as [_ [? _]%Forall_cons].
Qed.

Lemma erDeclMatch_brace s : erDeclMatch (s ++ [123]) = None.
Proof.
  unfold erDeclMatch.
  destruct (eq_ci (take 9 (s ++ [123])) (js "erDiagram")) eqn:He; [|done].
  apply keyword_letters in He as [Hlen Hall].
  destruct (decide (9 ≤ length s)%nat) as [Hs|Hs].
  - rewrite drop_app_le by done.
    destruct (drop 9 s ++ [123]) as [|x r] eqn:Hd; [by destruct (drop 9 s)|].
    by rewrite <- Hd, ws_then_direction_brace.
  - rewrite take_ge in Hall by (rewrite length_app; simpl; lia).
    by apply Forall_app in Hall as [_ [? _]%Forall_cons].
Qed.

Lemma dirMatch_brace s : dirMatch (s ++ [123]) = None.
Proof.
  unfold dirMatch. destruct (eq_ci _ _); [|done].
  destruct (decide (9 ≤ length s)%nat) as [Hs|Hs].
  - rewrite drop_app_le by done. apply ws_then_direction_brace.
  - by rewrite drop_ge by (rewrite length_app; simpl; lia).
Qed.

Lemma trimEnd_typed_ws name ws :
  typed_name name → Forall (λ c, is_ws c = true) ws → trimEnd (name ++ ws) = name.
Proof.
  intros Hname Hws.
  transitivity (trim ([] ++ name ++ ws)); [|by apply trim_between_ws].
  unfold trim. destruct Hname as [(c & Hh & Hc) _]. destruct name as [|x t]; [done|].
  simpl in Hh. injection Hh as ->. simpl. by rewrite Hc.
Qed.

Lemma no_terminator_forallb (s : jsstr) :
  Forall (λ c, is_line_terminator c = false) s →
  forallb (λ c, negb (is_line_terminator c)) s = true.
Proof. induction 1 as [|c r Hc _ IH]; [done|]. cbn [forallb]. by rewrite Hc, IH. Qed.

(** The entity-opening pattern on a name, white space and the brace: group
    1 is the name. *)
Lemma entityOpen_name name ws :
  typed_name name → Forall (λ c, is_ws c = true) ws →
  Forall (λ c, is_line_terminator c = false) name →
  entityOpen (name ++ ws ++ [123]) = Some name.
Proof.
  intros Hname Hws Hlt. unfold entityOpen.
  rewrite (assoc_L (++)), rev_app_distr. cbn [rev app].
  rewrite rev_involutive, trimEnd_typed_ws by done.
  assert (name ≠ []) as Hne by (destruct Hname as [(c & Hh & _) _]; by destruct name).
  assert (Nat.max 1 (length name) = length name) as ->
    by (destruct name; [done|simpl; lia]).
  rewrite take_app_length.
  assert ((length name <=? length (name ++ ws))%nat = true) as ->
    by (apply Nat.leb_le; rewrite length_app; lia).
  by rewrite no_terminator_forallb.
Qed.

Lemma startsWith_comment_app name rest :
  typed_name name → startsWith name (js "%%") = false →
  (∀ c, head rest = Some c → c ≠ 37) →
  startsWith (name ++ rest) (js "%%") = false.
Proof.
  intros [(c & Hh & _) _] Hs Hrest. destruct name as [|x t]; [done|].
  change (js "%%") with [37; 37] in *. cbn [startsWith app] in *.
  destruct (37 =? x); [|done]. cbn [andb] in *.
  destruct t as [|y t]; [|done]. cbn [app].
  destruct rest as [|z r]; [done|]. rewrite andb_true_r.
  apply N.eqb_neq. intros <-. by apply (Hrest 37).
Qed.

(** X15.  Outside an entity block, a line that names an entity before an
    opening brace becomes the indentation, the identifier of the display
    name, one space and the brace, whatever white space stood before the
    brace; the name is recorded and the block is open. *)
Theorem preprocessER_entity_line (indent name ws : jsstr) (s : ERLoop) :
  Forall (λ c, is_ws c = true) indent → Forall (λ c, is_ws c = true) ws →
  typed_name name → startsWith name (js "%%") = false →
  Forall (λ c, is_line_terminator c = false) name →
  er_inEntity s = false →
  ∃ id, getUniqueId (entity_display name) None (er_pass s)
          = Ok (id, record_id id (entity_display name) (er_pass s))
    ∧ preprocessER_line (indent ++ name ++ ws ++ js "{") s
      = Ok (mkER (er_result s ++ [indent ++ id ++ js " {"]) true (er_direction s)
              (record_id id (entity_display name) (er_pass s))).
Proof.
  intros Hindent Hws Hname Hcomment Hlt Hout.
  destruct (getUniqueId_total (entity_display name) None (er_pass s)) as [id Hid].
  exists id. split; [done|].
  change (js "{") with [123].
  set (body := name ++ ws ++ [123]).
  assert (typed_name body) as Hbody.
  { apply typed_name_head; [done|]. exists 123. split; [|done].
    unfold body. rewrite !(assoc_L (++)). apply last_snoc. }
  assert (leading_ws (indent ++ body) = indent) as Hind.
  { destruct Hbody as [(c & Hh & Hc) _]. destruct body as [|x t] eqn:Hb; [done|].
    simpl in Hh. injection Hh as ->. by apply leading_ws_app_ws. }
  assert (trim (indent ++ body) = body) as Htrim.
  { rewrite <- (app_nil_r body) at 1. by apply trim_between_ws. }
  unfold preprocessER_line. rewrite Htrim, Hind. cbv zeta.
  assert (bool_decide (body = []) = false) as ->.
  { apply bool_decide_eq_false_2. destruct Hbody as [(c & Hh & _) _]. by destruct body. }
  assert (startsWith body (js "%%") = false) as ->.
  { apply startsWith_comment_app; [done|done|].
    intros c Hc. destruct ws as [|w ws']; simpl in Hc; injection Hc as <-; [done|].
    apply Forall_cons in Hws as [Hw _]. by intros ->. }
  cbn [orb].
  assert (body = (name ++ ws) ++ [123]) as Hsnoc by (unfold body; by rewrite (assoc_L (++))).
  rewrite Hsnoc at 1. rewrite erDeclMatch_brace.
  rewrite Hsnoc at 1. rewrite dirMatch_brace.
  assert (bool_decide (body = js "}") = false) as ->.
  { apply bool_decide_eq_false_2. rewrite Hsnoc. change (js "}") with ([] ++ [125]).
    intros [_ ?]%app_inj_tail. done. }
  rewrite Hout. unfold body. rewrite entityOpen_name by done.
  fold (entity_display name). rewrite Hid. done.
Qed.

Lemma preprocessER_entity_line_witness :
  ∃ id, getUniqueId (entity_display (js "Gebäude Adresse")) None pass_start
          = Ok (id, record_id id (entity_display (js "Gebäude Adresse")) pass_start)
    ∧ preprocessER_line (js "    " ++ js "Gebäude Adresse" ++ js "   " ++ js "{")
        (mkER [] false None pass_start)
      = Ok (mkER ([] ++ [js "    " ++ id ++ js " {"]) true None
              (record_id id (entity_display (js "Gebäude Adresse")) pass_start)).
Proof.
  apply (preprocessER_entity_line (js "    ") (js "Gebäude Adresse") (js "   ")
           (mkER [] false None pass_start)).
  - by repeat constructor.
  - by repeat constructor.
  - split; eexists; (split; [vm_compute; reflexivity|reflexivity]).
  - vm_compute; reflexivity.
  - vm_compute. by repeat constructor.
  - reflexivity.
Defined.

Lemma names_free_pair (a b : jsstr * jsstr) :
  includes a.2 b.1 = false → includes b.2 a.1 = false →
  names_free_of_other_ids [a; b].
Proof.
  intros Hab Hba e e' He He' Hne.
  apply elem_of_cons in He as [->|He]; [|apply elem_of_cons in He as [->|He]];
    [..|by apply elem_of_nil in He];
    (apply elem_of_cons in He' as [->|He']; [|apply elem_of_cons in He' as [->|He']];
     [..|by apply elem_of_nil in He']); done.
Qed.

(** X1.  Compiling and restoring the text leaves, for both preprocessors:
    where no display name of the pass holds the identifier of another, the
    first loop of [postProcessSVG] turns a leaf whose [textContent] is the
    identifier of a display name without a dollar sign into a leaf whose
    [textContent] is that name.  (A flowchart source holds no property
    name of [Object.prototype].) *)
Theorem display_names_restored :
  (∀ code out, preprocessER code = Ok out →
     names_free_of_other_ids (nameMapping (out_pass out)) →
     ∀ id display, (id, display) ∈ nameMapping (out_pass out) → 36 ∉ display →
       postProcess_text (nameMapping (out_pass out)) id = display)
  ∧ (∀ code out st, no_inherited_key code → preprocessFlowchart code = Ok (out, st) →
       names_free_of_other_ids (nameMapping st) →
       ∀ id display, (id, display) ∈ nameMapping st → 36 ∉ display →
         postProcess_text (nameMapping st) id = display).
Proof.
  split.
  - apply roundtrip_without_dollar.
  - intros code out st _. by apply (proj2 roundtrip_without_dollar code out st).
Qed.

Lemma display_names_restored_witness :
  (∃ out, preprocessER (js "erDiagram
A {
  Straße, string
}") = Ok out
     ∧ postProcess_text (nameMapping (out_pass out)) (js "Strasse_") = js "Straße")
  ∧ (∃ out st, preprocessFlowchart (js "flowchart TD
  `Büro Müller` --> `Ende`") = Ok (out, st)
       ∧ postProcess_text (nameMapping st) (js "Buero_Mueller") = js "Büro Müller").
Proof.
  split.
  - eexists. split; [vm_compute; reflexivity|].
    apply (proj1 display_names_restored (js "erDiagram
A {
  Straße, string
}")); [vm_compute; reflexivity| | |].
    + cbn [out_pass nameMapping]. by apply names_free_pair; vm_compute.
    + cbn [out_pass nameMapping]. apply (list_elem_of_lookup_2 _ 1%nat).
      vm_compute. reflexivity.
    + vm_compute. intros H. repeat (apply elem_of_cons in H as [H|H]; [done|]).
      by apply elem_of_nil in H.
  - eexists _, _. split; [vm_compute; reflexivity|].
    apply (proj2 display_names_restored (js "flowchart TD
  `Büro Müller` --> `Ende`") (js "flowchart TD
  Buero_Mueller[`Büro Müller`] --> Ende[`Ende`]"));
      [vm_compute; reflexivity|vm_compute; reflexivity| | |].
    + cbn [nameMapping]. by apply names_free_pair; vm_compute.
    + cbn [nameMapping]. apply (list_elem_of_lookup_2 _ 0%nat).
      vm_compute. reflexivity.
    + vm_compute. intros H. repeat (apply elem_of_cons in H as [H|H]; [done|]).
      by apply elem_of_nil in H.
Defined.

Lemma restore_is_identity_for_clean_names_witness :
  ∃ out, preprocessER (js "erDiagram
    Kunde ||--o{ Auftrag : hat") = Ok out
    ∧ postProcess_text (nameMapping (out_pass out)) (js "Kunde hat Auftrag")
      = js "Kunde hat Auftrag".
Proof.
  destruct (proj1 restore_is_identity_for_clean_names (js "erDiagram
    Kunde ||--o{ Auftrag : hat")) as (out & Hrun & Hid).
  exists out. split; [exact Hrun|]. apply Hid. intros id d Hin.
  vm_compute in Hrun. injection Hrun as Hout. subst out.
  cbn [out_pass nameMapping] in Hin.
  repeat (apply elem_of_cons in Hin as [Hin|Hin]; [by injection Hin as -> ->|]).
  by apply elem_of_nil in Hin.
Defined.

Section LabelReuse.

Lemma forallb_Forall_true {A} (f : A → bool) (l : list A) :
  forallb f l = true → Forall (λ x, f x = true) l.
Proof.
  induction l as [|x r IH]; simpl; [done|].
  intros [Hx Hr]%andb_true_iff. constructor; auto.
Qed.

Lemma written_with_mono fs1 fs2 toks parts :
  flow_inv fs1 → flow_inv fs2 → nodeIdMap fs1 ⊆ nodeIdMap fs2 →
  written_with (nameMapping (fl_pass fs1)) toks parts →
  written_with (nameMapping (fl_pass fs2)) toks parts.
Proof.
  intros [_ H1] [_ H2] Hsub H. eapply Forall2_impl; [exact H|]. clear H.
  intros [raw|raw|label sh] part; try done.
  intros (id & Hid & ->). exists id. split; [|done].
  apply H2. eapply lookup_weaken; [|exact Hsub]. by apply H1.
Qed.

Lemma render_tokens_written toks fs parts fs' :
  flow_inv fs → Forall (λ tok, own_label_token tok = true) toks →
  render_tokens getFlowNodeId toks fs = Ok (parts, fs') →
  flow_inv fs' ∧ nodeIdMap fs ⊆ nodeIdMap fs'
  ∧ written_with (nameMapping (fl_pass fs')) toks parts.
Proof.
  intros Hinv Hown. revert fs parts Hinv.
  induction Hown as [|tok rest Htok _ IH]; intros fs parts Hinv; simpl.
  - intros [= <- <-]. split_and!; [done..|constructor].
  - destruct (render_token getFlowNodeId tok fs) as [[p fs1]| |] eqn:Ht; simpl; try done.
    destruct (render_tokens getFlowNodeId rest fs1) as [[ps fs2]| |] eqn:Hr;
      simpl; try done.
    intros [= <- <-].
    assert (flow_inv fs1 ∧ nodeIdMap fs ⊆ nodeIdMap fs1
            ∧ written_with (nameMapping (fl_pass fs1)) [tok] [p]) as (Hinv1 & Hsub1 & Hp).
    { destruct tok as [raw|raw|label sh]; simpl in Ht.
      - injection Ht as <- <-. split_and!; [done..|by repeat constructor].
      - injection Ht as <- <-. split_and!; [done..|by repeat constructor].
      - destruct (getFlowNodeId label fs) as [[id fs0]| |] eqn:Hg; simpl in Ht; try done.
        injection Ht as <- <-.
        destruct (getFlowNodeId_flow_inv _ _ _ _ Hinv Hg) as (Hinv0 & Hsub0 & Hid).
        split_and!; [done..|]. repeat constructor. exists id. split; [|done].
        destruct Hid as [Hid|[Hin _]].
        + by apply Hinv0.
        + simpl in Htok. apply negb_true_iff, bool_decide_eq_false in Htok. done. }
    destruct (IH _ _ Hinv1 Hr) as (Hinv2 & Hsub2 & Hps).
    split_and!; [done|by etrans|].
    apply (written_with_mono _ _ _ _ Hinv1 Hinv2 Hsub2) in Hp.
    apply Forall2_cons_1 in Hp as [Hp _]. by constructor.
Qed.

Lemma line_written_with_mono fs1 fs2 line out :
  flow_inv fs1 → flow_inv fs2 → nodeIdMap fs1 ⊆ nodeIdMap fs2 →
  line_written_with (nameMapping (fl_pass fs1)) line out →
  line_written_with (nameMapping (fl_pass fs2)) line out.
Proof.
  intros H1 H2 Hsub. unfold line_written_with.
  destruct (flow_passthrough (trim line)); [done|].
  intros (toks & parts & Hs & Hr & ->). exists toks, parts.
  split_and!; [done| |done]. by apply (written_with_mono fs1 fs2).
Qed.

Lemma preprocessFlowchart_loop_written lines res fs res' fs' :
  flow_inv fs → Forall (λ line, line_labels_own line = true) lines →
  preprocessFlowchart_loop lines res fs = Ok (res', fs') →
  flow_inv fs' ∧ nodeIdMap fs ⊆ nodeIdMap fs'
  ∧ ∃ outs, res' = res ++ outs
      ∧ Forall2 (line_written_with (nameMapping (fl_pass fs'))) lines outs.
Proof.
  intros Hinv Hown. revert res fs Hinv.
  induction Hown as [|line rest Hline _ IH]; intros res fs Hinv; simpl.
  - intros [= <- <-]. split_and!; [done..|]. exists []. by rewrite app_nil_r.
  - unfold line_labels_own in Hline.
    destruct (flow_passthrough (trim line)) eqn:Hp.
    + intros Hl. destruct (IH _ _ Hinv Hl) as (Hinv' & Hsub & outs & -> & Hall).
      split_and!; [done..|]. exists (line :: outs).
      split; [by rewrite <- (assoc_L (++))|]. constructor; [|done].
      unfold line_written_with. by rewrite Hp.
    + destruct (preprocessFlowLine line getFlowNodeId fs) as [[out fs1]| |] eqn:Hout;
        simpl; try done.
      intros Hl. unfold preprocessFlowLine in Hout.
      destruct (scan_loop _ _ _ _) as [toks| |] eqn:Hscan; simpl in Hout; try done.
      destruct (render_tokens getFlowNodeId toks fs) as [[parts fs0]| |] eqn:Hr;
        simpl in Hout; try done.
      injection Hout as <- <-. simpl in Hline.
      apply forallb_Forall_true in Hline.
      destruct (render_tokens_written _ _ _ _ Hinv Hline Hr) as (Hinv1 & Hsub1 & Hparts).
      destruct (IH _ _ Hinv1 Hl) as (Hinv' & Hsub & outs & -> & Hall).
      split_and!; [done|by etrans|].
      exists ((leading_ws line ++ collapse_runs 32 (concat parts)) :: outs).
      split; [by rewrite <- (assoc_L (++))|]. constructor; [|done].
      unfold line_written_with. rewrite Hp. exists toks, parts.
      split_and!; [done| |done]. by apply (written_with_mono fs0 fs').
Qed.

End LabelReuse.

(** X29.  One pass of [preprocessFlowchart] over a source whose labelled
    nodes carry no property name of [Object.prototype] as their label:
    every labelled-node token of every scanned line is written as an
    identifier that the pass records for its label in [nameMapping],
    followed by the label in the brackets of the token's own shape, and
    the pass records one identifier per label.  Two tokens with the same
    label, on one line or on two, therefore carry the same identifier.
    Arrows are padded with one space on each side, raw tokens are copied,
    and lines that are not scanned are copied. *)
Theorem flow_labels_share_identifier (code : jsstr) :
  labels_own code →
  ∃ res st,
    preprocessFlowchart code = Ok (join [10] res, st)
    ∧ (∀ id1 id2 l, (id1, l) ∈ nameMapping st → (id2, l) ∈ nameMapping st → id1 = id2)
    ∧ Forall2 (line_written_with (nameMapping st)) (split_on 10 code) res.
Proof.
  intros Hown. unfold preprocessFlowchart.
  destruct (preprocessFlowchart_loop_total (split_on 10 code) [] (mkFlow pass_start ∅))
    as (res & fs & Hloop).
  rewrite Hloop. simpl.
  apply forallb_Forall_true in Hown.
  destruct (preprocessFlowchart_loop_written _ _ _ _ _ flow_start_inv Hown Hloop)
    as ([_ Hmap] & _ & outs & -> & Hall).
  exists outs, (fl_pass fs). split_and!; [done| |done].
  intros id1 id2 l H1%Hmap H2%Hmap. congruence.
Qed.

Lemma flow_labels_share_identifier_witness :
  ∃ res st,
    preprocessFlowchart (js "flowchart TD
  `Antrag einreichen` --> {`Antrag einreichen`}
  (`Antrag einreichen`) --> `toString()`") = Ok (join [10] res, st)
    ∧ (∀ id1 id2 l, (id1, l) ∈ nameMapping st → (id2, l) ∈ nameMapping st → id1 = id2)
    ∧ Forall2 (line_written_with (nameMapping st)) (split_on 10 (js "flowchart TD
  `Antrag einreichen` --> {`Antrag einreichen`}
  (`Antrag einreichen`) --> `toString()`")) res.
Proof.
  apply flow_labels_share_identifier. vm_compute. reflexivity.
Defined.

(** X30.  What [preprocessERAttribute] does with a third field that is not
    a key tag: it emits no key tag, and after the type only the comment.
    A third field that is the last field is the comment; a third field
    that further fields follow is left out, and the comment is made of the
    fields from the fourth on, joined by a comma and a space.  The comment
    is trimmed, loses one layer of surrounding quotes and is emitted
    between quotes if anything is left. *)
Theorem attribute_comment_without_key_tag (line : jsstr) (st : PassState)
    (name type f3 : jsstr) (later : list jsstr) :
  splitCSV (trim line) = name :: type :: f3 :: later →
  is_key_tag f3 = false →
  ∃ id st',
    preprocessERAttribute line st
    = Ok (leading_ws line ++ id ++ js " " ++ type
            ++ comment_suffix
                 (Some (trim (match later with
                              | [] => f3
                              | _ => join (js ", ") later
                              end))),
          st').
Proof.
  intros Hp Hk.
  destruct (preprocessERAttribute_fields line st name type (f3 :: later) Hp)
    as (id & _ & ->).
  exists id, (record_id id name st). simpl. rewrite Hk. simpl.
  by destruct later.
Qed.

Lemma attribute_comment_without_key_tag_witness :
  ∃ id st',
    preprocessERAttribute (js "  Typ, string, Büro, Wohnung, Keller") pass_start
    = Ok (leading_ws (js "  Typ, string, Büro, Wohnung, Keller") ++ id ++ js " "
            ++ js "string"
            ++ comment_suffix (Some (trim (join (js ", ") [js "Wohnung"; js "Keller"]))),
          st').
Proof.
  apply (attribute_comment_without_key_tag (js "  Typ, string, Büro, Wohnung, Keller")
           pass_start (js "Typ") (js "string") (js "Büro") [js "Wohnung"; js "Keller"]);
    vm_compute; reflexivity.
Defined.
